(** * Virtual-background pipeline of [src/App.jsx]: frame pump, temporal mask
      blender, load controller and compositing shader

    [src/App.jsx] holds two revisions of [useBackgroundEffect] and
    [FRAG_SRC].  The development follows the one with the joint bilateral
    shader (landscape model, [SEG_WIDTH = 256], [SEG_HEIGHT = 144], skip
    interval at most 2, [localAlpha] rising to 1.0); the other one differs
    in these constants (640 x 360, at most 4, 0.97) and in its shader.

    Numbers.  JavaScript numbers and GLSL floats are modelled as exact
    rationals ([Q]); rounding of IEEE doubles, of [Float32Array] stores and
    of GPU arithmetic is not modelled.  Equalities between computed values
    are therefore stated with [==] ([Qeq]).  The one place where the
    JavaScript code leaves the finite numbers on finite inputs, the division
    by [mask.length >> 4] for a mask of fewer than 16 cells, is written out
    (see [BlendMask]).  Counters are [nat]. *)

From Stdlib Require Import QArith Qabs Qminmax Lqa Lia List Arith ZArith Bool String.
From stdpp Require Import base list strings gmap.
Import ListNotations.

Open Scope Q_scope.

(** ** Constants of the source *)

Definition SEG_WIDTH : nat := 256.
Definition SEG_HEIGHT : nat := 144.

(** [a < b] on numbers, as a test. *)
Definition Qltb (a b : Q) : bool := negb (Qle_bool b a).

(** A counter as a number. *)
Definition Qnat (n : nat) : Q := inject_Z (Z.of_nat n).

(** ** [for] loops

    [forLoop fuel i bound step body s] is
    [for (; i < bound; i += step) s = body(i, s)].  The loop test is the
    source's; [fuel] only bounds the number of iterations Rocq unfolds, and
    [forLoop_fold] shows when it is enough. *)

Fixpoint forLoop {S : Type} (fuel i bound step : nat)
    (body : nat -> S -> S) (s : S) : S :=
  match fuel with
  | O => s
  | Datatypes.S fuel' =>
      if (i <? bound)%nat
      then forLoop fuel' (i + step)%nat bound step body (body i s)
      else s
  end.

(** The indices visited by a loop that runs [n] times from [i]. *)
Definition strideIdx (i step n : nat) : list nat :=
  map (fun j => (i + step * j)%nat) (seq 0 n).

(** ** Temporal mask blender *)

Module Blender.

(** A mask is the content of a [Float32Array] of finite values. *)
Abbreviation Mask := (list Q).

(** [a[i]] for a typed array.  Every read below is guarded by
    [i < mask.length] with [prev.length === mask.length], so the value
    chosen out of range is never used. *)
Definition cell (a : Mask) (i : nat) : Q := default 0 (a !! i).

(** The persistent blended mask ([blendMaskRef.current]).  [AllNaN len]
    is a [Float32Array] of [len >= 1] cells that all hold NaN: the only
    non-finite content the blender can produce from finite masks, when
    [diff] is [0 / 0]. *)
Inductive BlendMask :=
| Cells (c : Mask)
| AllNaN (len : nat).

Definition blendLength (b : BlendMask) : nat :=
  match b with
  | Cells c => length c
  | AllNaN len => len
  end.

(** [const hasPrev = prev && prev.length === mask.length] *)
Definition hasPrev (prev : option BlendMask) (mask : Mask) : bool :=
  match prev with
  | None => false
  | Some p => (blendLength p =? length mask)%nat
  end.

(** [for (let i = 0; i < mask.length; i += 16) diff += Math.abs(mask[i] - prev[i])] *)
Definition diffSum (mask prev : Mask) : Q :=
  forLoop (length mask) 0 (length mask) 16
    (fun i diff => diff + Qabs (cell mask i - cell prev i)) 0.

(** [const uncertainty = 1.0 - Math.abs(curr * 2.0 - 1.0)] *)
Definition uncertainty (curr : Q) : Q := 1.0 - Qabs (curr * 2.0 - 1.0).

(** [const localAlpha = globalAlpha + uncertainty * (1.0 - globalAlpha)] *)
Definition localAlpha (globalAlpha curr : Q) : Q :=
  globalAlpha + uncertainty curr * (1.0 - globalAlpha).

(** The body of the second loop:
    [blend[i] = curr * localAlpha + blend[i] * (1.0 - localAlpha)]. *)
Definition blendCell (globalAlpha : Q) (mask : Mask) (i : nat) (blend : Mask) : Mask :=
  let curr := cell mask i in
  let la := localAlpha globalAlpha curr in
  <[ i := curr * la + cell blend i * (1.0 - la) ]> blend.

(** [for (let i = 0; i < mask.length; i++) { ... }], in place on [blend]. *)
Definition blendLoop (globalAlpha : Q) (mask blend : Mask) : Mask :=
  forLoop (length mask) 0 (length mask) 1 (blendCell globalAlpha mask) blend.

(** [Math.min(0.9, 0.15 + diff * 6.0)] *)
Definition globalAlphaOf (diff : Q) : Q := Qmin 0.9 (0.15 + diff * 6.0).

(** [diff /= (mask.length >> 4)] and [globalAlpha], when the divisor is
    not zero. *)
Definition meanDiff (mask prev : Mask) : Q :=
  diffSum mask prev / inject_Z (Z.of_nat (Nat.shiftr (length mask) 4)).

Definition globalAlpha (mask prev : Mask) : Q := globalAlphaOf (meanDiff mask prev).

(** The [else] branch (a previous mask [prev] of the same length holds
    finite cells).  With [n = mask.length >> 4]:
    - [n > 0]: [diff /= n] is a finite division;
    - [n = 0] and the sum positive: [diff] is [+Infinity], so
      [Math.min(0.9, Infinity)] is [0.9];
    - [n = 0] and the sum zero: [diff] is [0 / 0 = NaN], [globalAlpha] is
      NaN and every cell written by the second loop is NaN (an empty mask
      has no cell to write). *)
Definition blendWith (mask prev : Mask) : BlendMask :=
  let n := Nat.shiftr (length mask) 4 in
  let sum := diffSum mask prev in
  if (n =? 0)%nat then
    if Qltb 0 sum then Cells (blendLoop 0.9 mask prev)
    else match mask with
         | [] => Cells prev
         | _ :: _ => AllNaN (length mask)
         end
  else Cells (blendLoop (globalAlpha mask prev) mask prev).

(** The whole update of [blendMaskRef.current] for a new raw [mask]
    (lines "const prev = blendMaskRef.current" to the end of the [else]).
    A previous mask of NaN cells of the same length stays NaN:
    [Math.abs(mask[0] - NaN)] is NaN and so is everything after it. *)
Definition blendUpdate (prev : option BlendMask) (mask : Mask) : BlendMask :=
  if hasPrev prev mask then
    match prev with
    | Some (Cells p) => blendWith mask p
    | Some (AllNaN len) => AllNaN len
    | None => Cells mask
    end
  else Cells mask (* new Float32Array(mask) *).

End Blender.

(** ** Load controller *)

Module LoadController.

(** [avgFrameTimeRef] and [skipIntervalRef]. *)
Record LoadStats := {
  avgFrameTime : Q;
  skipInterval : nat
}.

(** [useRef(16)] and [useRef(1)] *)
Definition initialLoad : LoadStats :=
  {| avgFrameTime := 16; skipInterval := 1 |}.

(** The bound in [skipIntervalRef.current < 2]. *)
Definition MAX_SKIP : nat := 2.

(** [[
  const avg = avgFrameTimeRef.current = avgFrameTimeRef.current * 0.9 + segTime * 0.1;
  if (avg > 8 && skipIntervalRef.current < 2) skipIntervalRef.current++;
  else if (avg < 3 && skipIntervalRef.current > 1) skipIntervalRef.current--;
]] *)
Definition loadUpdate (segTime : Q) (s : LoadStats) : LoadStats :=
  let avg := avgFrameTime s * 0.9 + segTime * 0.1 in
  if Qltb 8 avg && (skipInterval s <? 2)%nat then
    {| avgFrameTime := avg; skipInterval := S (skipInterval s) |}
  else if Qltb avg 3 && (1 <? skipInterval s)%nat then
    {| avgFrameTime := avg; skipInterval := Nat.pred (skipInterval s) |}
  else
    {| avgFrameTime := avg; skipInterval := skipInterval s |}.

(** The controller after a series of measurements, oldest first. *)
Definition loadRun (times : list Q) (s : LoadStats) : LoadStats :=
  fold_left (fun s t => loadUpdate t s) times s.

(** The controller after [n] measurements of the same duration. *)
Definition loadIter (segTime : Q) (n : nat) (s : LoadStats) : LoadStats :=
  Nat.iter n (loadUpdate segTime) s.

(** The thresholds in [avg > 8] and [avg < 3]. *)
Definition SLOW : Q := 8.
Definition FAST : Q := 3.

(** States the controller can be in: the initial one and every state
    after a measurement of non-negative duration. *)
Inductive reachable : LoadStats -> Prop :=
| reach_init : reachable initialLoad
| reach_step s t : reachable s -> 0 <= t -> reachable (loadUpdate t s).

(** What holds of every reachable state: the interval is 1 or 2, and it
    is 2 only while the average is at least the lower threshold. *)
Definition loadInv (s : LoadStats) : Prop :=
  (1 <= skipInterval s <= MAX_SKIP)%nat /\
  (skipInterval s = MAX_SKIP -> FAST <= avgFrameTime s).

End LoadController.

(** ** Fragment shader [FRAG_SRC] *)

Module Shader.

Record vec4 := mkVec4 { vx : Q; vy : Q; vz : Q; vw : Q }.

Definition vec2 : Type := Q * Q.

(** A bound texture, seen through [texture(sampler, uv)]. *)
Definition sampler2D : Type := vec2 -> vec4.

(** Component-wise equality of colours up to [==]. *)
Definition vec4_eq (a b : vec4) : Prop :=
  vx a == vx b /\ vy a == vy b /\ vz a == vz b /\ vw a == vw b.

(** GLSL built-ins on rationals. *)
Definition clamp (x lo hi : Q) : Q := Qmin (Qmax x lo) hi.
Definition mix (x y a : Q) : Q := x * (1 - a) + y * a.
Definition step (edge x : Q) : Q := if Qltb x edge then 0.0 else 1.0.
Definition smoothstep (e0 e1 x : Q) : Q :=
  let t := clamp ((x - e0) / (e1 - e0)) 0.0 1.0 in
  t * t * (3.0 - 2.0 * t).
Definition mix4 (x y : vec4) (a : Q) : vec4 :=
  mkVec4 (mix (vx x) (vx y) a) (mix (vy x) (vy y) a)
         (mix (vz x) (vz y) a) (mix (vw x) (vw y) a).

(** [dot(c.rgb, luma)] with [luma = vec3(0.299, 0.587, 0.114)] *)
Definition lumaOf (c : vec4) : Q := vx c * 0.299 + vy c * 0.587 + vz c * 0.114.

(** Pass 3, last two lines:
    [mSnap = step(0.5, m); m = mix(m, mSnap, videoEdge * uncertainty * 0.85)] *)
Definition edgeSnap (m videoEdge uncertainty : Q) : Q :=
  let mSnap := step 0.5 m in
  mix m mSnap (videoEdge * uncertainty * 0.85).

(** Accumulators of the bilateral loop. *)
Record Acc := mkAcc { totalW : Q; mRaw : Q; mBlend : Q }.

Section Frag.

(** [exp] and [sqrt] (inside [length]) are the GPU's; they are not
    rational functions and are taken as parameters. *)
Variable glsl_exp : Q -> Q.
Variable glsl_sqrt : Q -> Q.

(** Uniforms.  [u_mask] and [u_rawMask] are the red channels of the
    two mask textures, as [texture(.., uv).r] reads them. *)
Variable u_video : sampler2D.
Variable u_mask : vec2 -> Q.
Variable u_rawMask : vec2 -> Q.
Variable u_bg : sampler2D.
Variable u_mode : Z.
Variable u_texelSize : vec2.
Variable u_maskTexelSize : vec2.

Definition glsl_length (x y : Q) : Q := glsl_sqrt (x * x + y * y).

(** Body of the inner loop of pass 1 for the offset [(dx, dy)]. *)
Definition bilateralTap (v_uv : vec2) (lumC : Q) (dy dx : Z) (acc : Acc) : Acc :=
  let mUV := (fst v_uv + inject_Z dx * fst u_maskTexelSize,
              snd v_uv + inject_Z dy * snd u_maskTexelSize) in
  let rawV := u_rawMask mUV in
  let blndV := u_mask mUV in
  let lumN := lumaOf (u_video mUV) in
  let wS := glsl_exp (- inject_Z (dx * dx + dy * dy) * 0.5) in
  let dL := lumN - lumC in
  let wR := glsl_exp (- dL * dL * 35.0) in
  let w := wS * wR in
  mkAcc (totalW acc + w) (mRaw acc + rawV * w) (mBlend acc + blndV * w).

(** Pass 1: the two nested loops over [-1 .. 1], then the two divisions. *)
Definition upsample (v_uv : vec2) : Q * Q :=
  let lumC := lumaOf (u_video v_uv) in
  let acc :=
    fold_left (fun acc dy =>
      fold_left (fun acc dx => bilateralTap v_uv lumC dy dx acc)
                [-1; 0; 1]%Z acc)
      [-1; 0; 1]%Z (mkAcc 0.0 0.0 0.0) in
  (mRaw acc / totalW acc, mBlend acc / totalW acc).

(** Pass 2: [uncertainty] and the raw / blend mix. *)
Definition shaderUncertainty (v_uv : vec2) : Q :=
  1.0 - Qabs (fst (upsample v_uv) * 2.0 - 1.0).

Definition boundaryMix (v_uv : vec2) : Q :=
  let '(mR, mB) := upsample v_uv in
  mix mB mR (clamp (shaderUncertainty v_uv * 2.0) 0.0 1.0).

(** Pass 3: the luma gradient at full resolution. *)
Definition videoEdge (v_uv : vec2) : Q :=
  let '(x, y) := v_uv in
  let lumR := lumaOf (u_video (x + fst u_texelSize, y + 0.0)) in
  let lumL := lumaOf (u_video (x + - fst u_texelSize, y + 0.0)) in
  let lumU := lumaOf (u_video (x + 0.0, y + snd u_texelSize)) in
  let lumD := lumaOf (u_video (x + 0.0, y + - snd u_texelSize)) in
  clamp (glsl_length (lumR - lumL) (lumU - lumD) * 7.0) 0.0 1.0.

(** The mask value [m] right before the final feather. *)
Definition maskBeforeFeather (v_uv : vec2) : Q :=
  edgeSnap (boundaryMix v_uv) (videoEdge v_uv) (shaderUncertainty v_uv).

(** [void main()] : the value written to [fragColor]. *)
Definition fragMain (v_uv : vec2) : vec4 :=
  let vid := u_video v_uv in
  if (u_mode =? 0)%Z then vid
  else
    let m := smoothstep 0.33 0.67 (maskBeforeFeather v_uv) in
    let bg := u_bg v_uv in
    mix4 bg vid m.

End Frag.

End Shader.

(** ** Frame pump: [draw] of [useBackgroundEffect] *)

Module Pump.

Import Blender LoadController Shader.

(** A picture (video frame, background image) is identified with what a
    sampler reads from it at each normalised coordinate. *)
Definition Image : Type := sampler2D.

(** [videoRef.current] when it is not null. *)
Record Video := {
  paused : bool;
  ended : bool;
  videoWidth : nat;
  videoHeight : nat;
  picture : Image
}.

(** What one call of [segmenterRef.current.segment] does: it throws, it
    returns no confidence mask, or it returns one. *)
Inductive SegResult :=
| SegThrows
| SegNoMask
| SegMask (mask : Mask).

(** An uploaded picture ([uploadedImageRef.current]) with its [src]. *)
Record Uploaded := { upSrc : string; upPicture : Image }.

(** Everything one call of [draw] reads from outside the hook. *)
Record Tick := {
  video : option Video;           (* videoRef.current *)
  selectedBg : string;            (* selectedBgRef.current *)
  segmenterReady : bool;          (* segmenterReadyRef.current *)
  segmenterPresent : bool;        (* segmenterRef.current is not null *)
  segResult : SegResult;          (* outcome of segment(), if it is called *)
  segTime : Q;                    (* performance.now() - segStart, if measured *)
  uploadedImage : option Uploaded;
  bgImages : gmap string Image;   (* bgImagesRef.current *)
  blurred : Image                 (* the blur canvas after drawImage *)
}.

(** [BACKGROUNDS]: [id] and [type] of each entry. *)
Definition BACKGROUNDS : list (string * string) :=
  [ ("none", "none"); ("living-room", "image"); ("home-office", "image");
    ("library", "image"); ("upload", "upload") ]%string.

(** [BACKGROUNDS.find((b) => b.id === curBg)] *)
Definition findBackground (curBg : string) : option (string * string) :=
  List.find (fun b => String.eqb (fst b) curBg) BACKGROUNDS.

(** Texture units. *)
Definition TEXTURE0 : nat := 0.  (* video *)
Definition TEXTURE1 : nat := 1.  (* blended mask *)
Definition TEXTURE2 : nat := 2.  (* background *)
Definition TEXTURE3 : nat := 3.  (* raw mask *)

(** The calls of [draw] that the properties speak about, in program order. *)
Inductive Event :=
| TexImage2D (unit w h : nat)   (* storage of [w x h] texels is allocated *)
| TexImage2DFrom (unit : nat)   (* texImage2D from a picture source *)
| TexSubImage2D (unit : nat)    (* texels are written into existing storage *)
| Segment                       (* segmenterRef.current.segment(...) *)
| DrawArrays (mode : Z)         (* u_mode is set and the quad is drawn *)
| RequestAnimationFrame.

(** The refs of the hook and the GL objects [draw] writes. *)
Record State := {
  lastDims : nat * nat;             (* lastDimsRef *)
  lastBgKey : option string;        (* lastBgKeyRef *)
  frameCount : nat;                 (* frameCountRef *)
  maskAlloc : nat * nat;            (* maskAllocRef *)
  hasMask : bool;                   (* hasMaskRef *)
  blendMask : option BlendMask;     (* blendMaskRef *)
  load : LoadStats;                 (* avgFrameTimeRef, skipIntervalRef *)
  surface : nat * nat;              (* canvas size, viewport, 1/u_texelSize and
                                       storage size of the video texture *)
  videoTexels : Image;              (* content of textures.video *)
  rawMaskTex : option Mask;         (* content of textures.rawMask *)
  maskTex : option BlendMask;       (* content of textures.mask *)
  bgTex : Image;                    (* content of textures.bg *)
  u_mode : Z
}.

Definition blank : Image := fun _ => mkVec4 0 0 0 0.

(** [new Uint8Array([26, 26, 46, 255])], the 1 x 1 fallback background. *)
Definition darkFallback : Image :=
  fun _ => mkVec4 (26 / 255) (26 / 255) (46 / 255) 1.

(** The refs as [useRef] creates them and the textures after [initWebGL]. *)
Definition initialState : State := {|
  lastDims := (0, 0)%nat;
  lastBgKey := None;
  frameCount := 0;
  maskAlloc := (0, 0)%nat;
  hasMask := false;
  blendMask := None;
  load := initialLoad;
  surface := (0, 0)%nat;
  videoTexels := blank;
  rawMaskTex := None;
  maskTex := None;
  bgTex := darkFallback;
  u_mode := 0
|}.

Definition set_video (dims : nat * nat) (surf : nat * nat) (tex : Image) (s : State) : State :=
  {| lastDims := dims; lastBgKey := lastBgKey s; frameCount := frameCount s;
     maskAlloc := maskAlloc s; hasMask := hasMask s; blendMask := blendMask s;
     load := load s; surface := surf; videoTexels := tex;
     rawMaskTex := rawMaskTex s; maskTex := maskTex s; bgTex := bgTex s;
     u_mode := u_mode s |}.

Definition set_frameCount (n : nat) (s : State) : State :=
  {| lastDims := lastDims s; lastBgKey := lastBgKey s; frameCount := n;
     maskAlloc := maskAlloc s; hasMask := hasMask s; blendMask := blendMask s;
     load := load s; surface := surface s; videoTexels := videoTexels s;
     rawMaskTex := rawMaskTex s; maskTex := maskTex s; bgTex := bgTex s;
     u_mode := u_mode s |}.

Definition set_masks (alloc : nat * nat) (blend : BlendMask) (raw : Mask) (s : State) : State :=
  {| lastDims := lastDims s; lastBgKey := lastBgKey s; frameCount := frameCount s;
     maskAlloc := alloc; hasMask := true; blendMask := Some blend;
     load := load s; surface := surface s; videoTexels := videoTexels s;
     rawMaskTex := Some raw; maskTex := Some blend; bgTex := bgTex s;
     u_mode := u_mode s |}.

Definition set_load (l : LoadStats) (s : State) : State :=
  {| lastDims := lastDims s; lastBgKey := lastBgKey s; frameCount := frameCount s;
     maskAlloc := maskAlloc s; hasMask := hasMask s; blendMask := blendMask s;
     load := l; surface := surface s; videoTexels := videoTexels s;
     rawMaskTex := rawMaskTex s; maskTex := maskTex s; bgTex := bgTex s;
     u_mode := u_mode s |}.

Definition set_bg (key : option string) (tex : Image) (s : State) : State :=
  {| lastDims := lastDims s; lastBgKey := key; frameCount := frameCount s;
     maskAlloc := maskAlloc s; hasMask := hasMask s; blendMask := blendMask s;
     load := load s; surface := surface s; videoTexels := videoTexels s;
     rawMaskTex := rawMaskTex s; maskTex := maskTex s; bgTex := tex;
     u_mode := u_mode s |}.

Definition set_mode (m : Z) (s : State) : State :=
  {| lastDims := lastDims s; lastBgKey := lastBgKey s; frameCount := frameCount s;
     maskAlloc := maskAlloc s; hasMask := hasMask s; blendMask := blendMask s;
     load := load s; surface := surface s; videoTexels := videoTexels s;
     rawMaskTex := rawMaskTex s; maskTex := maskTex s; bgTex := bgTex s;
     u_mode := m |}.

(** [x || d] for a dimension: [0] is falsy. *)
Definition orDefault (x d : nat) : nat := if (x =? 0)%nat then d else x.

(** [w] and [h] of the tick:
    [video.videoWidth || 640], [video.videoHeight || 480]. *)
Definition frameDims (v : Video) : nat * nat :=
  (orDefault (videoWidth v) 640, orDefault (videoHeight v) 480).

Definition dimsDiffer (a b : nat * nat) : bool :=
  negb (fst a =? fst b)%nat || negb (snd a =? snd b)%nat.

(** The video the tick works on: [None] when the first test of [draw],
    [!video || video.paused || video.ended], sends it back to the scheduler. *)
Definition liveVideo (t : Tick) : option Video :=
  match video t with
  | Some v => if paused v || ended v then None else Some v
  | None => None
  end.

(** Resize block and upload of the video frame. *)
Definition uploadVideo (v : Video) (s : State) : State * list Event :=
  let '(w, h) := frameDims v in
  if dimsDiffer (lastDims s) (w, h) then
    (* texImage2D(.., w, h, 0, RGBA, UNSIGNED_BYTE, null), then texSubImage2D *)
    (set_video (w, h) (w, h) (picture v) s,
     [TexImage2D TEXTURE0 w h; TexSubImage2D TEXTURE0])
  else
    (set_video (lastDims s) (surface s) (picture v) s, [TexSubImage2D TEXTURE0]).

(** [curBg === "none" || !curReady || !segmenterRef.current] *)
Definition bypass (t : Tick) : bool :=
  String.eqb (selectedBg t) "none" || negb (segmenterReady t) || negb (segmenterPresent t).

(** [frameCountRef.current % skipIntervalRef.current === 0]; with a zero
    divisor [%] is NaN and the test fails. *)
Definition shouldSegment (s : State) : bool :=
  if (skipInterval (load s) =? 0)%nat then false
  else (frameCount s mod skipInterval (load s) =? 0)%nat.

(** The mask the tick obtains: [null] if the call throws or the result
    has no confidence mask. *)
Definition obtainedMask (t : Tick) : option Mask :=
  match segResult t with
  | SegMask mask => Some mask
  | SegThrows | SegNoMask => None
  end.

(** The body of [if (shouldSegment) { ... }]. *)
Definition segmentStep (t : Tick) (s : State) : State * list Event :=
  let '(s1, ev) :=
    match obtainedMask t with
    | Some mask =>
        let realloc := dimsDiffer (maskAlloc s) (SEG_WIDTH, SEG_HEIGHT) in
        let blend := blendUpdate (blendMask s) mask in
        if realloc then
          (set_masks (SEG_WIDTH, SEG_HEIGHT) blend mask s,
           [TexImage2D TEXTURE3 SEG_WIDTH SEG_HEIGHT;
            TexImage2D TEXTURE1 SEG_WIDTH SEG_HEIGHT])
        else
          (set_masks (maskAlloc s) blend mask s,
           [TexSubImage2D TEXTURE3; TexSubImage2D TEXTURE1])
    | None => (s, [])
    end in
  (set_load (loadUpdate (segTime t) (load s1)) s1, Segment :: ev).

(** Upload of the background picture (texture unit 2). *)
Definition uploadBackground (t : Tick) (s : State) : State * list Event :=
  match findBackground (selectedBg t) with
  | Some (id, ty) =>
      if String.eqb ty "blur" then
        (set_bg None (blurred t) s, [TexImage2DFrom TEXTURE2])
      else if String.eqb ty "image" then
        match bgImages t !! id with
        | Some img =>
            if bool_decide (lastBgKey s = Some id) then (s, [])
            else (set_bg (Some id) img s, [TexImage2DFrom TEXTURE2])
        | None => (s, [])
        end
      else if String.eqb ty "upload" then
        match uploadedImage t with
        | Some up =>
            let key := ("upload:" ++ upSrc up)%string in
            if bool_decide (lastBgKey s = Some key) then (s, [])
            else (set_bg (Some key) (upPicture up) s, [TexImage2DFrom TEXTURE2])
        | None => (s, [])
        end
      else (s, [])
  | None => (s, [])
  end.

(** [u_mode] is set and the quad drawn, then the next frame is requested. *)
Definition present (mode : Z) (s : State) : State * list Event :=
  (set_mode mode s, [DrawArrays mode; RequestAnimationFrame]).

(** One call of [draw]. *)
Definition draw (t : Tick) (s : State) : State * list Event :=
  match liveVideo t with
  | None => (s, [RequestAnimationFrame])
  | Some v =>
      let '(s1, ev1) := uploadVideo v s in
      if bypass t then
        let '(s2, ev2) := present 0 s1 in (s2, ev1 ++ ev2)
      else
        let s2 := set_frameCount (S (frameCount s1)) s1 in
        let '(s3, ev3) :=
          if shouldSegment s2 then segmentStep t s2 else (s2, []) in
        if negb (hasMask s3) then
          let '(s4, ev4) := present 0 s3 in (s4, ev1 ++ ev3 ++ ev4)
        else
          let '(s4, ev4) := uploadBackground t s3 in
          let '(s5, ev5) := present 1 s4 in
          (s5, ev1 ++ ev3 ++ ev4 ++ ev5)
  end.

(** The first half of an active tick, up to the end of
    [if (shouldSegment) { ... }]: state and events after the upload of the
    frame, the increment of the counter and the segmentation, if any. *)
Definition segmentStage (t : Tick) (v : Video) (s : State) : State * list Event :=
  let '(s1, ev1) := uploadVideo v s in
  let s2 := set_frameCount (S (frameCount s1)) s1 in
  let '(s3, ev3) :=
    if shouldSegment s2 then segmentStep t s2 else (s2, []) in
  (s3, ev1 ++ ev3).

(** The pump over a series of ticks: final state and all events. *)
Fixpoint run (ts : list Tick) (s : State) : State * list Event :=
  match ts with
  | [] => (s, [])
  | t :: ts' =>
      let '(s1, ev1) := draw t s in
      let '(s2, ev2) := run ts' s1 in
      (s2, ev1 ++ ev2)
  end.

(** The state after a series of ticks. *)
Definition stateAfter (ts : list Tick) (s : State) : State := fst (run ts s).

(** Whether a tick drew, and in which mode. *)
Definition drawnMode (ev : list Event) : option Z :=
  match List.find (fun e => match e with DrawArrays _ => true | _ => false end) ev with
  | Some (DrawArrays m) => Some m
  | _ => None
  end.

(** Allocations of video texture storage among the events. *)
Definition isVideoAlloc (e : Event) : bool :=
  match e with
  | TexImage2D unit _ _ => (unit =? TEXTURE0)%nat
  | _ => false
  end.

Definition videoReallocs (ev : list Event) : nat :=
  length (List.filter isVideoAlloc ev).

(** In-place uploads into the video texture among the events. *)
Definition isVideoSub (e : Event) : bool :=
  match e with
  | TexSubImage2D unit => (unit =? TEXTURE0)%nat
  | _ => false
  end.

Definition videoSubUploads (ev : list Event) : nat :=
  length (List.filter isVideoSub ev).

(** The dimensions of the frame a tick works on, if it has one. *)
Definition tickDims (t : Tick) : option (nat * nat) :=
  option_map frameDims (liveVideo t).

(** Events of the blocks before the draw call: texture traffic and the
    call of the segmenter. *)
Definition isDraw (e : Event) : bool :=
  match e with DrawArrays _ => true | _ => false end.

Definition isTexture (e : Event) : Prop :=
  match e with
  | TexImage2D _ _ _ | TexImage2DFrom _ | TexSubImage2D _ => True
  | _ => False
  end.

(** Events that do not concern the video texture. *)
Definition notVideo (e : Event) : Prop :=
  isVideoAlloc e = false /\ isVideoSub e = false.

(** Ticks that work on a frame. *)
Definition liveTicks (ts : list Tick) : nat :=
  length (List.filter (fun t => bool_decide (tickDims t <> None)) ts).

(** What every state of a session satisfies. *)
Definition pumpInv (s : State) : Prop :=
  loadInv (load s) /\
  (hasMask s = false <-> blendMask s = None) /\
  maskTex s = blendMask s.

(** The blender state, the two mask textures and the has-mask flag. *)
Definition maskState (s : State) : option BlendMask * option Mask * option BlendMask * bool :=
  (blendMask s, rawMaskTex s, maskTex s, hasMask s).

Section Canvas.

(** The GPU side: [exp], [sqrt] and the filtered read of an R32F mask
    texture (LINEAR or NEAREST, as [maskFilter] was chosen). *)
Variable glsl_exp : Q -> Q.
Variable glsl_sqrt : Q -> Q.
Variable maskSampler : option BlendMask -> vec2 -> Q.

Definition texel (n : nat) : Q := 1.0 / inject_Z (Z.of_nat n).

(** The canvas after a draw call in state [s]: the fragment shader at
    every coordinate, with the uniforms and textures of [s]. *)
Definition canvas (s : State) : Image :=
  fragMain glsl_exp glsl_sqrt
    (videoTexels s)
    (maskSampler (maskTex s))
    (maskSampler (option_map Cells (rawMaskTex s)))
    (bgTex s) (u_mode s)
    (texel (fst (surface s)), texel (snd (surface s)))
    (texel SEG_WIDTH, texel SEG_HEIGHT).

End Canvas.

End Pump.

(** ** The blend as the specification words it *)

Module BlenderSpec.

Import Blender.

(** Confidence values: foreground probabilities in [[0, 1]]. *)
Definition in01 (x : Q) : Prop := 0 <= x <= 1.

Definition Qsum (l : list Q) : Q := fold_right Qplus 0 l.

(** The definitions from [sampleIdx] to [specBlendCell] follow the words
    of the specification, not the loops of the source. *)

(** One sample every 16 cells. *)
Definition sampleIdx (len : nat) : list nat :=
  List.filter (fun i => (i mod 16 =? 0)%nat) (seq 0 len).

(** Mean absolute difference between two masks over the sampled cells. *)
Definition meanAbsDiff16 (mask prev : Mask) : Q :=
  let idx := sampleIdx (length mask) in
  Qsum (map (fun i => Qabs (cell mask i - cell prev i)) idx)
  / inject_Z (Z.of_nat (length idx)).

(** [alpha_g = min(0.9, 0.15 + diff * k)] with gain [k = 6]. *)
Definition specGlobalAlpha (diff : Q) : Q := Qmin 0.9 (0.15 + diff * 6).

(** [u = 1 - |2m - 1|], [alpha_local = alpha_g + u * (alpha_max - alpha_g)],
    [blended = raw * alpha_local + blended * (1 - alpha_local)]. *)
Definition specBlendCell (alpha_max alpha_g raw old : Q) : Q :=
  let u := 1 - Qabs (2 * raw - 1) in
  let alpha_local := alpha_g + u * (alpha_max - alpha_g) in
  raw * alpha_local + old * (1 - alpha_local).

(** The [alpha_max] of the source: the literal [1.0] in [localAlpha]. *)
Definition ALPHA_MAX : Q := 1.

(** The value the loop body stores in cell [i]. *)
Definition blended (ga : Q) (mask blend : Mask) (i : nat) : Q :=
  cell mask i * localAlpha ga (cell mask i)
  + cell blend i * (1.0 - localAlpha ga (cell mask i)).

(** The cells of a blended mask that holds finite values. *)
Definition cellsOf (b : BlendMask) : Mask :=
  match b with
  | Cells c => c
  | AllNaN _ => []
  end.

(** The blended mask after [n] invocations on the same raw mask, starting
    from the blended mask [b0]. *)
Definition blendSeq (raw b0 : Mask) (n : nat) : BlendMask :=
  Nat.iter n (fun b => blendUpdate (Some b) raw) (Cells b0).

(** Distance between the blended and the raw mask in cell [i] after [n]
    invocations. *)
Definition blendDist (raw b0 : Mask) (n i : nat) : Q :=
  Qabs (cell (cellsOf (blendSeq raw b0 n)) i - cell raw i).

(** Two masks agree on the cells the motion estimate samples. *)
Definition sampledEqual (raw c : Mask) : Prop :=
  forall j, (16 * j < length raw)%nat -> cell c (16 * j) == cell raw (16 * j).

(** A previous blended mask, when there is one, holds confidences. *)
Definition prevIn01 (prev : option BlendMask) : Prop :=
  match prev with
  | None => True
  | Some (Cells c) => Forall in01 c
  | Some (AllNaN _) => False
  end.

End BlenderSpec.

(** ** Sample inputs *)

Module Samples.

Import Blender LoadController Shader Pump.

(** A raw mask of 16 cells and a blended mask that agrees with it on the
    sampled cell 0 only. *)
Definition rawMask16 : Mask := repeat 0.75 16.
Definition oldMask16 : Mask := 0.75 :: repeat 0.25 15.

Definition redFrame : Image := fun _ => mkVec4 1 0 0 1.

Definition camera : Video :=
  {| paused := false; ended := false;
     videoWidth := 640; videoHeight := 480; picture := redFrame |}.

Definition cameraHD : Video :=
  {| paused := false; ended := false;
     videoWidth := 1280; videoHeight := 720; picture := redFrame |}.

(** A tick with the given frame, background selection and segmenter
    outcome; the segmenter is loaded and the call takes 5 ms. *)
Definition tickOf (v : Video) (bg : string) (r : SegResult) : Tick :=
  {| video := Some v; selectedBg := bg;
     segmenterReady := true; segmenterPresent := true;
     segResult := r; segTime := 5;
     uploadedImage := None; bgImages := ∅; blurred := blank |}.

Definition tickNone : Tick := tickOf camera "none" SegNoMask.
Definition tickMask : Tick := tickOf camera "library" (SegMask rawMask16).
Definition tickThrows : Tick := tickOf camera "library" SegThrows.
Definition tickHD : Tick := tickOf cameraHD "library" (SegMask rawMask16).

(** States of a session: after a first tick that acquired a mask and
    after a tick without background. *)
Definition afterMask : State := stateAfter [tickMask] initialState.
Definition afterNone : State := stateAfter [tickNone] initialState.

(** Stand-ins for the GPU functions where a concrete one is needed. *)
Definition constOne : Q -> Q := fun _ => 1.
Definition halfMask : vec2 -> Q := fun _ => 0.5.

End Samples.

(** ** A static scene: the same raw mask at every invocation *)

Module StaticScene.

Import Blender BlenderSpec.

(** [blendMaskRef.current] after a series of raw masks, oldest first. *)
Definition blendRun (prev : option BlendMask) (masks : list Mask) : option BlendMask :=
  fold_left (fun p mask => Some (blendUpdate p mask)) masks prev.

(** [diff] and [globalAlpha] as invocation [n + 1] on the raw mask [raw]
    computes them: against the blended mask that the [n] invocations
    before it left behind. *)
Definition diffAt (raw b0 : Mask) (n : nat) : Q :=
  meanDiff raw (cellsOf (blendSeq raw b0 n)).

Definition weightAt (raw b0 : Mask) (n : nat) : Q :=
  globalAlphaOf (diffAt raw b0 n).

(** A scene that changed from background to foreground everywhere. *)
Definition allZero16 : Mask := repeat 0 16.
Definition allOne16 : Mask := repeat 1 16.

End StaticScene.

(** ** Further definitions: parts of the source outside the claims *)

Module ShaderParts.

Import Shader.

(** The argument of the cubic in the feather,
    [clamp((m - 0.33) / (0.67 - 0.33), 0.0, 1.0)]. *)
Definition featherArg (m : Q) : Q := clamp ((m - 0.33) / (0.67 - 0.33)) 0.0 1.0.

(** A mask texture that reads the same confidence everywhere. *)
Definition flatMask (k : Q) : vec2 -> Q := fun _ => k.

End ShaderParts.

Module PumpParts.

Import Blender LoadController Shader Pump.

(** A tick that reaches the segmentation stage of [draw]: it has a frame
    and does not leave through the first passthrough exit. *)
Definition activeTick (t : Tick) : bool :=
  match liveVideo t with
  | Some _ => negb (bypass t)
  | None => false
  end.

Definition activeTicks (ts : list Tick) : nat :=
  length (List.filter activeTick ts).

(** Counting events of one kind. *)
Definition countEv (p : Event -> bool) (ev : list Event) : nat :=
  length (List.filter p ev).

Definition isSegment (e : Event) : bool :=
  match e with Segment => true | _ => false end.

(** [texImage2D] with a size on texture unit [unit]: new storage. *)
Definition isAllocOf (unit : nat) (e : Event) : bool :=
  match e with
  | TexImage2D u _ _ => (u =? unit)%nat
  | _ => false
  end.

(** [texImage2D] from a picture on the background unit. *)
Definition isBgUpload (e : Event) : bool :=
  match e with
  | TexImage2DFrom u => (u =? TEXTURE2)%nat
  | _ => false
  end.

Definition segmentCalls (ev : list Event) : nat := countEv isSegment ev.
Definition maskAllocs (unit : nat) (ev : list Event) : nat := countEv (isAllocOf unit) ev.
Definition bgUploads (ev : list Event) : nat := countEv isBgUpload ev.

(** The next active tick calls the segmenter: the interval is 1, or the
    frame counter is odd (so that its successor is a multiple of 2). *)
Definition due (s : State) : bool :=
  (skipInterval (load s) =? 1)%nat || Nat.odd (frameCount s).

(** How the refs and textures of the mask path hang together in a
    session: the canvas size follows [lastDimsRef]; [maskAllocRef] is
    set exactly when a mask has arrived; and then both mask textures are
    filled, the blended one with [blendMaskRef.current], which has as
    many cells as the raw mask. *)
Definition sessionInv (s : State) : Prop :=
  surface s = lastDims s /\
  maskAlloc s = (if hasMask s then (SEG_WIDTH, SEG_HEIGHT) else (0, 0)%nat) /\
  match rawMaskTex s with
  | Some raw =>
      hasMask s = true /\
      exists b, blendMask s = Some b /\ maskTex s = Some b /\
                blendLength b = length raw
  | None => hasMask s = false /\ blendMask s = None /\ maskTex s = None
  end.

(** The background entry a tick selects, when its picture is there. *)
Definition pictureReady (t : Tick) : bool :=
  match findBackground (selectedBg t) with
  | Some (id, ty) =>
      if String.eqb ty "image" then bool_decide (is_Some (bgImages t !! id))
      else if String.eqb ty "upload" then bool_decide (is_Some (uploadedImage t))
      else String.eqb ty "blur"
  | None => false
  end.

(** A tick like [Samples.tickMask] after the picture of the "library"
    background has loaded. *)
Definition tickLibrary : Tick :=
  {| video := Some Samples.camera; selectedBg := "library";
     segmenterReady := true; segmenterPresent := true;
     segResult := SegMask Samples.rawMask16; segTime := 5;
     uploadedImage := None;
     bgImages := {[ "library"%string := Samples.redFrame ]};
     blurred := blank |}.

End PumpParts.

(** ** [useSegmenter]: loading and releasing the segmenter *)

Module Segmenter.

(** The [delegate] a segmenter was created with. *)
Inductive Delegate := GPU | CPU.

(** What the awaited calls of [init] do: the dynamic import, the fileset
    resolver and the two [createFromOptions] calls resolve or reject, and
    a rejection carries [err.message]. *)
Record World := {
  importFails : bool;
  resolverFails : bool;
  gpuFails : bool;
  cpuFails : bool;
  message : string
}.

(** The outcome of the awaits: the segmenter, or the error that reaches
    the outer [catch].  The inner [try] retries with the CPU delegate
    when the GPU one rejects. *)
Definition awaited (w : World) : Delegate + string :=
  if importFails w then inr (message w)
  else if resolverFails w then inr (message w)
  else if gpuFails w then
    if cpuFails w then inr (message w) else inl CPU
  else inl GPU.

(** The hook: [segmenterRef], the two pieces of React state, the
    [cancelled] flag of the effect, and the segmenters created and
    closed so far. *)
Record Hook := {
  segmenterRef : option Delegate;
  segmenterReady : bool;
  segmenterError : option string;
  cancelled : bool;
  opened : list Delegate;
  closed : list Delegate
}.

Definition mounted : Hook :=
  {| segmenterRef := None; segmenterReady := false; segmenterError := None;
     cancelled := false; opened := []; closed := [] |}.

(** [err.message || "Segmenter failed to load"]: an empty message is falsy. *)
Definition errorText (msg : string) : string :=
  if String.eqb msg "" then "Segmenter failed to load"%string else msg.

(** The rest of [init] once its awaits have settled. *)
Definition settle (w : World) (h : Hook) : Hook :=
  match awaited w with
  | inl d =>
      if cancelled h then
        (* segmenter.close(); return *)
        {| segmenterRef := segmenterRef h; segmenterReady := segmenterReady h;
           segmenterError := segmenterError h; cancelled := cancelled h;
           opened := opened h ++ [d]; closed := closed h ++ [d] |}
      else
        {| segmenterRef := Some d; segmenterReady := true;
           segmenterError := segmenterError h; cancelled := cancelled h;
           opened := opened h ++ [d]; closed := closed h |}
  | inr msg =>
      if cancelled h then h
      else
        {| segmenterRef := segmenterRef h; segmenterReady := segmenterReady h;
           segmenterError := Some (errorText msg); cancelled := cancelled h;
           opened := opened h; closed := closed h |}
  end.

(** The cleanup of the effect. *)
Definition cleanup (h : Hook) : Hook :=
  {| segmenterRef := None; segmenterReady := segmenterReady h;
     segmenterError := segmenterError h; cancelled := true;
     opened := opened h;
     closed := closed h ++ match segmenterRef h with
                           | Some d => [d]
                           | None => []
                           end |}.

(** The effect runs once ([[]] as dependencies): [init] settles at most
    once and the cleanup runs at most once, in either order. *)
Inductive HookEvent := Settle | Unmount.

Definition hookStep (w : World) (h : Hook) (e : HookEvent) : Hook :=
  match e with
  | Settle => settle w h
  | Unmount => cleanup h
  end.

Definition hookRun (w : World) (evs : list HookEvent) : Hook :=
  fold_left (hookStep w) evs mounted.

Definition isUnmount (e : HookEvent) : bool :=
  match e with Unmount => true | Settle => false end.

Definition isSettle (e : HookEvent) : bool :=
  match e with Settle => true | Unmount => false end.

(** The schedules of one effect instance. *)
Definition schedule (evs : list HookEvent) : Prop :=
  (length (List.filter isSettle evs) <= 1)%nat /\
  (length (List.filter isUnmount evs) <= 1)%nat.

(** What [useBackgroundEffect] sees of the hook in a tick. *)
Definition seenBy (h : Hook) (t : Pump.Tick) : Prop :=
  Pump.segmenterReady t = segmenterReady h /\
  Pump.segmenterPresent t = bool_decide (is_Some (segmenterRef h)).

End Segmenter.

(** ** [RecordScreen]: countdown and recording timer *)

Module Recorder.

Definition MAX_DURATION : nat := 30.

Inductive Phase := Setup | Countdown | Recording | Preview.

(** The state of the screen that the countdown and the timer touch:
    [phase], [countdown] and [elapsed] (React state), the variable [c] of
    [startCountdown], whether the two intervals are set, the state of the
    [MediaRecorder] ([None]: none created yet; [Some true]: "recording"),
    whether its [stop] event is still to come, and how often [start] and
    [stop] were called. *)
Record Screen := {
  phase : Phase;
  countdown : Z;
  c : Z;
  countdownTimer : bool;
  elapsed : nat;
  timer : bool;
  recorder : option bool;
  stopPending : bool;
  starts : nat;
  stops : nat
}.

Definition initialScreen : Screen :=
  {| phase := Setup; countdown := 3; c := 0; countdownTimer := false;
     elapsed := 0; timer := false; recorder := None; stopPending := false;
     starts := 0; stops := 0 |}.

(** [startRecording] *)
Definition startRecording (r : Screen) : Screen :=
  {| phase := Recording; countdown := countdown r; c := c r;
     countdownTimer := countdownTimer r;
     elapsed := 0; timer := true; recorder := Some true;
     stopPending := stopPending r; starts := S (starts r); stops := stops r |}.

(** [stopRecording]: the interval is cleared, and [stop] is called only
    on a recorder that is recording. *)
Definition stopRecording (r : Screen) : Screen :=
  match recorder r with
  | Some true =>
      {| phase := phase r; countdown := countdown r; c := c r;
         countdownTimer := countdownTimer r;
         elapsed := elapsed r; timer := false; recorder := Some false;
         stopPending := true; starts := starts r; stops := S (stops r) |}
  | _ =>
      {| phase := phase r; countdown := countdown r; c := c r;
         countdownTimer := countdownTimer r;
         elapsed := elapsed r; timer := false; recorder := recorder r;
         stopPending := stopPending r; starts := starts r; stops := stops r |}
  end.

Definition set_elapsed (n : nat) (r : Screen) : Screen :=
  {| phase := phase r; countdown := countdown r; c := c r;
     countdownTimer := countdownTimer r;
     elapsed := n; timer := timer r; recorder := recorder r;
     stopPending := stopPending r; starts := starts r; stops := stops r |}.

(** [startCountdown] *)
Definition startCountdown (r : Screen) : Screen :=
  {| phase := Countdown; countdown := 3; c := 3; countdownTimer := true;
     elapsed := elapsed r; timer := timer r; recorder := recorder r;
     stopPending := stopPending r; starts := starts r; stops := stops r |}.

(** The callback of the countdown interval:
    [c--; if (c <= 0) { clearInterval(iv); startRecording(); } else setCountdown(c)]. *)
Definition countdownTick (r : Screen) : Screen :=
  let c' := (c r - 1)%Z in
  if (c' <=? 0)%Z then
    startRecording
      {| phase := phase r; countdown := countdown r; c := c';
         countdownTimer := false;
         elapsed := elapsed r; timer := timer r; recorder := recorder r;
         stopPending := stopPending r; starts := starts r; stops := stops r |}
  else
    {| phase := phase r; countdown := c'; c := c';
       countdownTimer := countdownTimer r;
       elapsed := elapsed r; timer := timer r; recorder := recorder r;
       stopPending := stopPending r; starts := starts r; stops := stops r |}.

(** The callback of the recording interval:
    [[
  setElapsed((prev) => {
    if (prev + 1 >= MAX_DURATION) { stopRecording(); return MAX_DURATION; }
    return prev + 1;
  });
    ]] *)
Definition timerTick (r : Screen) : Screen :=
  if (MAX_DURATION <=? elapsed r + 1)%nat
  then set_elapsed MAX_DURATION (stopRecording r)
  else set_elapsed (elapsed r + 1) r.

(** [mr.onstop] *)
Definition onStop (r : Screen) : Screen :=
  {| phase := Preview; countdown := countdown r; c := c r;
     countdownTimer := countdownTimer r;
     elapsed := elapsed r; timer := timer r; recorder := recorder r;
     stopPending := false; starts := starts r; stops := stops r |}.

(** [retake] *)
Definition retake (r : Screen) : Screen :=
  {| phase := Setup; countdown := countdown r; c := c r;
     countdownTimer := countdownTimer r;
     elapsed := 0; timer := timer r; recorder := recorder r;
     stopPending := stopPending r; starts := starts r; stops := stops r |}.

(** What can happen to the screen.  The three buttons are rendered in
    one phase each (record: "setup", stop: "recording", retake:
    "preview"); an interval fires only while it is set and [onstop] only
    after [stop]. *)
Inductive ScreenEvent :=
| ClickRecord | ClickStop | ClickRetake
| CountdownFires | TimerFires | RecorderStopped.

Definition phaseIs (p : Phase) (r : Screen) : bool :=
  match p, phase r with
  | Setup, Setup | Countdown, Countdown | Recording, Recording
  | Preview, Preview => true
  | _, _ => false
  end.

Definition screenStep (r : Screen) (e : ScreenEvent) : Screen :=
  match e with
  | ClickRecord => if phaseIs Setup r then startCountdown r else r
  | ClickStop => if phaseIs Recording r then stopRecording r else r
  | ClickRetake => if phaseIs Preview r then retake r else r
  | CountdownFires => if countdownTimer r then countdownTick r else r
  | TimerFires => if timer r then timerTick r else r
  | RecorderStopped => if stopPending r then onStop r else r
  end.

Definition screenRun (evs : list ScreenEvent) (r : Screen) : Screen :=
  fold_left screenStep evs r.

(** [const progress = (elapsed / MAX_DURATION) * 100] and
    [const timeLeft = MAX_DURATION - elapsed]. *)
Definition progress (r : Screen) : Q := (Qnat (elapsed r) / Qnat MAX_DURATION) * 100.
Definition timeLeft (r : Screen) : Z := (Z.of_nat MAX_DURATION - Z.of_nat (elapsed r))%Z.

(** What holds of the screen at all times. *)
Definition screenInv (r : Screen) : Prop :=
  (elapsed r <= MAX_DURATION)%nat /\
  (1 <= countdown r <= 3)%Z /\
  starts r = (stops r + match recorder r with Some true => 1 | _ => 0 end)%nat /\
  (timer r = true ->
     phase r = Recording /\ recorder r = Some true /\
     (elapsed r < MAX_DURATION)%nat /\ countdownTimer r = false) /\
  (countdownTimer r = true ->
     phase r = Countdown /\ countdown r = c r /\ timer r = false /\
     recorder r <> Some true) /\
  (recorder r = Some true -> phase r = Recording) /\
  (phase r = Setup \/ phase r = Preview -> recorder r <> Some true) /\
  (stopPending r = true ->
     phase r = Recording /\ recorder r = Some false /\ timer r = false /\
     countdownTimer r = false).

End Recorder.

(** ** The e-mail check of [EmailScreen] and of the upload server *)

Module Email.

(** A JavaScript string is a sequence of UTF-16 code units. *)
Abbreviation JsString := (list N).

Definition AT : N := 64%N.    (* the at sign *)
Definition DOT : N := 46%N.   (* the full stop *)

(** [\s]: the white space and line terminator code points of ECMAScript. *)
Definition isSpace (ch : N) : bool :=
  (((9 <=? ch) && (ch <=? 13)) || (ch =? 32) || (ch =? 160) || (ch =? 5760)
   || ((8192 <=? ch) && (ch <=? 8202)) || (ch =? 8232) || (ch =? 8233)
   || (ch =? 8239) || (ch =? 8287) || (ch =? 12288) || (ch =? 65279))%N.

(** [[^\s@]] *)
Definition plain (ch : N) : bool := negb (isSpace ch) && negb (ch =? AT)%N.

(** Regular expressions, as far as the pattern needs them. *)
Inductive Re :=
| Empty                      (* matches nothing *)
| Eps                        (* matches the empty string *)
| Class (p : N -> bool)      (* one code unit that satisfies [p] *)
| Seq (r1 r2 : Re)
| Alt (r1 r2 : Re)
| Star (r : Re).

Definition Lit (ch : N) : Re := Class (N.eqb ch).
Definition Plus (r : Re) : Re := Seq r (Star r).

(** [/^[^\s@]+@[^\s@]+\.[^\s@]+$/]: anchored at both ends, no flags. *)
Definition emailRe : Re :=
  Seq (Plus (Class plain))
    (Seq (Lit AT) (Seq (Plus (Class plain)) (Seq (Lit DOT) (Plus (Class plain))))).

(** The strings a pattern matches as a whole. *)
Inductive lang : Re -> JsString -> Prop :=
| lang_eps : lang Eps []
| lang_class p ch : p ch = true -> lang (Class p) [ch]
| lang_seq r1 r2 s1 s2 : lang r1 s1 -> lang r2 s2 -> lang (Seq r1 r2) (s1 ++ s2)
| lang_alt_l r1 r2 s : lang r1 s -> lang (Alt r1 r2) s
| lang_alt_r r1 r2 s : lang r2 s -> lang (Alt r1 r2) s
| lang_star_nil r : lang (Star r) []
| lang_star_cons r s1 s2 :
    lang r s1 -> lang (Star r) s2 -> lang (Star r) (s1 ++ s2).

(** Matching by derivatives. *)
Fixpoint nullable (r : Re) : bool :=
  match r with
  | Empty => false
  | Eps => true
  | Class _ => false
  | Seq r1 r2 => nullable r1 && nullable r2
  | Alt r1 r2 => nullable r1 || nullable r2
  | Star _ => true
  end.

Fixpoint deriv (ch : N) (r : Re) : Re :=
  match r with
  | Empty => Empty
  | Eps => Empty
  | Class p => if p ch then Eps else Empty
  | Seq r1 r2 =>
      if nullable r1
      then Alt (Seq (deriv ch r1) r2) (deriv ch r2)
      else Seq (deriv ch r1) r2
  | Alt r1 r2 => Alt (deriv ch r1) (deriv ch r2)
  | Star r1 => Seq (deriv ch r1) (Star r1)
  end.

Fixpoint matches (r : Re) (s : JsString) : bool :=
  match s with
  | [] => nullable r
  | ch :: s' => matches (deriv ch r) s'
  end.

(** [email.match(/^[^\s@]+@[^\s@]+\.[^\s@]+$/)] is not [null]. *)
Definition emailOk (email : JsString) : bool := matches emailRe email.

(** [handleSubmit]: the error shown, or the address handed to [onNext]. *)
Definition handleSubmit (email : JsString) : string + JsString :=
  if negb (emailOk email)
  then inl "Please enter a valid email address"%string
  else inr email.

(** A string of one or more code units other than white space and "@". *)
Definition word (s : JsString) : Prop := s <> [] /\ Forall (fun ch => plain ch = true) s.

End Email.

(** ** The upload server ([/api/upload]) *)

Module Server.

Import Email.

(** The uploaded part as [multer] hands it to [fileFilter], and what
    [multer] finds while it stores it. *)
Record Part := {
  mimetype : string;
  storedPath : string;   (* where the disk storage writes it *)
  overLimit : bool       (* it exceeds [limits.fileSize], 100 * 1024 * 1024 *)
}.

(** [file.mimetype.startsWith('video/')] *)
Definition fileFilter (f : Part) : bool := String.prefix "video/" (mimetype f).

(** [req.body.email].  A text field gives a string; no field gives
    [undefined]; a JSON body can hold any value; a field that is sent
    twice, or with a bracketed name, gives an array or an object.  What
    matters to the handler is whether the value is falsy and whether it
    has a [match] method:
    - [Absent]: [undefined] or another falsy value that is not a string;
    - [Str s]: the string [s];
    - [Other message]: a truthy value that is not a string, so that
      calling [email.match] raises a [TypeError] with that message. *)
Inductive BodyValue :=
| Absent
| Str (s : JsString)
| Other (message : string).

(** The request after [upload.single('video')]: [req.body.email] and
    [req.file]. *)
Record Request := {
  bodyEmail : BodyValue;
  reqFile : option Part
}.

Record Response := {
  status : nat;
  errorText : option string
}.

(** What a middleware does: it answers, or an error goes to the error
    handler (an exception thrown, or [cb(err)]). *)
Inductive Outcome :=
| Answer (r : Response)
| Throw (message : string).

(** Errors as the error handler tells them apart. *)
Inductive ServerError :=
| MulterError (message : string)
| PlainError (message : string).

(** The files of the uploads directory. *)
Abbreviation Disk := (gset string).

(** [!email || !email.match(...)]: its value, or the message of the
    exception it raises.  [undefined] and the empty string are falsy. *)
Definition emailBad (e : BodyValue) : bool + string :=
  match e with
  | Absent => inl true
  | Str [] => inl true
  | Str s => inl (negb (emailOk s))
  | Other message => inr message
  end.

(** The route handler. *)
Definition handler (req : Request) (disk : Disk) : Outcome * Disk :=
  match emailBad (bodyEmail req) with
  | inr message => (Throw message, disk)
  | inl true =>
      (Answer {| status := 400; errorText := Some "Valid email is required"%string |},
       match reqFile req with
       | Some f => disk ∖ {[ storedPath f ]}     (* fs.unlinkSync(req.file.path) *)
       | None => disk
       end)
  | inl false =>
      match reqFile req with
      | None =>
          (Answer {| status := 400;
                     errorText := Some "Video file is required"%string |},
           disk)
      | Some _ => (Answer {| status := 200; errorText := None |}, disk)
      end
  end.

(** The error-handling middleware ([app.use((err, req, res, next) => ...)]). *)
Definition errorHandler (err : ServerError) : Response :=
  match err with
  | MulterError message =>
      {| status := 400; errorText := Some ("Upload error: " ++ message)%string |}
  | PlainError message => {| status := 400; errorText := Some message |}
  end.

(** A request with an optional file part through [upload.single('video')],
    the handler and the error handler.  A part that [fileFilter] refuses,
    or that exceeds the size limit, ends in the error handler ([multer]
    removes what it had written); an accepted part is on the disk before
    the handler runs; an exception of the handler ends in the error
    handler as well. *)
Definition upload (email : BodyValue) (part : option Part) (disk : Disk)
    : Response * Disk :=
  let route req disk :=
    let '(o, disk') := handler req disk in
    (match o with
     | Answer r => r
     | Throw message => errorHandler (PlainError message)
     end, disk') in
  match part with
  | Some f =>
      if fileFilter f then
        if overLimit f then
          (errorHandler (MulterError "File too large"), disk)
        else
          route {| bodyEmail := email; reqFile := Some f |}
                ({[ storedPath f ]} ∪ disk)
      else
        (errorHandler (PlainError "Only video files are allowed"), disk)
  | None => route {| bodyEmail := email; reqFile := None |} disk
  end.

(** Sample inputs: the address [a@b.c] and a WebM part. *)
Definition sampleAddress : JsString := [97; 64; 98; 46; 99]%N.

Definition samplePart : Part :=
  {| mimetype := "video/webm"; storedPath := "testimonial-1.webm";
     overLimit := false |}.

End Server.

(** ** The other revision of [useBackgroundEffect] and [FRAG_SRC] *)

Module Rev1.

Import Shader.

(** *** Timestamps for [segmentForVideo]

    [[
  const segStart = performance.now();
  const timestamp = segStart > lastTimeRef.current ? segStart : lastTimeRef.current + 1;
  lastTimeRef.current = timestamp;
    ]] *)
Definition nextTimestamp (last segStart : Q) : Q :=
  if Qltb last segStart then segStart else last + 1.

(** The timestamps handed to the segmenter for a series of clock
    readings, starting from [lastTimeRef.current = last]. *)
Fixpoint timestamps (last : Q) (readings : list Q) : list Q :=
  match readings with
  | [] => []
  | segStart :: rest =>
      let ts := nextTimestamp last segStart in
      ts :: timestamps ts rest
  end.

(** Each element is less than the next one. *)
Fixpoint increasing (l : list Q) : Prop :=
  match l with
  | [] => True
  | x :: rest =>
      match rest with
      | [] => True
      | y :: _ => x < y
      end /\ increasing rest
  end.

(** *** The guided-filter shader *)

(** Sums of the guided-filter loop. *)
Record Sums := mkSums { sI : Q; sP : Q; sIP : Q; sII : Q }.

(** Accumulators of the Gaussian / dilation loop. *)
Record Feat := mkFeat { mBlur : Q; mDilate : Q }.

(** [const float gw3[3] = float[](0.25, 0.5, 0.25)] *)
Definition gw3 (i : Z) : Q :=
  if (i =? 1)%Z then 0.5 else 0.25.

Section Frag1.

Variable u_video : sampler2D.
Variable u_mask : vec2 -> Q.
Variable u_rawMask : vec2 -> Q.
Variable u_bg : sampler2D.
Variable u_mode : Z.
Variable u_maskTexelSize : vec2.

(** [v_uv + vec2(float(dx), float(dy)) * u_maskTexelSize] *)
Definition tapUV (v_uv : vec2) (dy dx : Z) : vec2 :=
  (fst v_uv + inject_Z dx * fst u_maskTexelSize,
   snd v_uv + inject_Z dy * snd u_maskTexelSize).

(** Body of the first loop. *)
Definition featTap (v_uv : vec2) (dy dx : Z) (acc : Feat) : Feat :=
  let s := u_mask (tapUV v_uv dy dx) in
  mkFeat (mBlur acc + s * gw3 (dx + 1) * gw3 (dy + 1)) (Qmax (mDilate acc) s).

(** [float mFeat = max(mBlur, mDilate * 0.1)] after the two loops. *)
Definition mFeat (v_uv : vec2) : Q :=
  let acc :=
    fold_left (fun acc dy =>
      fold_left (fun acc dx => featTap v_uv dy dx acc) [-1; 0; 1]%Z acc)
      [-1; 0; 1]%Z (mkFeat 0.0 0.0) in
  Qmax (mBlur acc) (mDilate acc * 0.1).

(** Body of the second loop. *)
Definition guidedTap (v_uv : vec2) (dy dx : Z) (acc : Sums) : Sums :=
  let uv2 := tapUV v_uv dy dx in
  let I := lumaOf (u_video uv2) in
  let P := u_rawMask uv2 in
  mkSums (sI acc + I) (sP acc + P) (sIP acc + I * P) (sII acc + I * I).

Definition guidedSums (v_uv : vec2) : Sums :=
  fold_left (fun acc dy =>
    fold_left (fun acc dx => guidedTap v_uv dy dx acc) [-1; 0; 1]%Z acc)
    [-1; 0; 1]%Z (mkSums 0.0 0.0 0.0 0.0).

(** The divisor of [a]: [sII / n - mI * mI + 0.02]. *)
Definition guidedDivisor (v_uv : vec2) : Q :=
  let s := guidedSums v_uv in
  let n := 9.0 in
  let mI := sI s / n in
  sII s / n - mI * mI + 0.02.

(** [mGuided = clamp(a * guide + b, 0.0, 1.0)] *)
Definition mGuided (v_uv : vec2) : Q :=
  let guide := lumaOf (u_video v_uv) in
  let s := guidedSums v_uv in
  let n := 9.0 in
  let mI := sI s / n in
  let mP := sP s / n in
  let a := (sIP s / n - mI * mP) / (sII s / n - mI * mI + 0.02) in
  let b := mP - a * mI in
  clamp (a * guide + b) 0.0 1.0.

(** [void main()] *)
Definition fragMain1 (v_uv : vec2) : vec4 :=
  let vid := u_video v_uv in
  if (u_mode =? 0)%Z then vid
  else
    let maskUncertainty := 1.0 - Qabs (mFeat v_uv * 2.0 - 1.0) in
    let m := mix (mFeat v_uv) (mGuided v_uv) (0.7 + maskUncertainty * 0.3) in
    let m := smoothstep 0.40 0.60 m in
    let bg := u_bg v_uv in
    mix4 bg vid m.

(** Every channel of [x] lies between the channels of [a] and [b]. *)
Definition between4 (a b x : vec4) : Prop :=
  Qmin (vx a) (vx b) <= vx x <= Qmax (vx a) (vx b) /\
  Qmin (vy a) (vy b) <= vy x <= Qmax (vy a) (vy b) /\
  Qmin (vz a) (vz b) <= vz x <= Qmax (vz a) (vz b) /\
  Qmin (vw a) (vw b) <= vw x <= Qmax (vw a) (vw b).

(** The nine taps in loop order. *)
Definition taps : list (Z * Z) :=
  [(-1, -1); (-1, 0); (-1, 1); (0, -1); (0, 0); (0, 1); (1, -1); (1, 0); (1, 1)]%Z.

(** The guide and the raw mask at the nine taps. *)
Definition guideAt (v_uv : vec2) : list Q :=
  map (fun '(dy, dx) => lumaOf (u_video (tapUV v_uv dy dx))) taps.

Definition rawAt (v_uv : vec2) : list Q :=
  map (fun '(dy, dx) => u_rawMask (tapUV v_uv dy dx)) taps.

End Frag1.

End Rev1.

(** * Properties *)

(** ** Loops *)

Lemma Qltb_lt (a b : Q) : Qltb a b = true <-> a < b.
Proof.
  unfold Qltb. rewrite negb_true_iff.
  split; intros H.
  - apply Qnot_le_lt. intros Hle. apply Qle_bool_iff in Hle. congruence.
  - destruct (Qle_bool b a) eqn:E; [|reflexivity].
    apply Qle_bool_iff in E. exfalso. apply (Qlt_not_le _ _ H E).
Qed.

Lemma Qltb_ge (a b : Q) : Qltb a b = false <-> b <= a.
Proof.
  unfold Qltb. rewrite negb_false_iff. apply Qle_bool_iff.
Qed.

Lemma strideIdx_S (i step n : nat) :
  strideIdx i step (S n) = i :: strideIdx (i + step) step n.
Proof.
  unfold strideIdx. simpl. f_equal; [lia|].
  rewrite <- seq_shift, map_map. apply map_ext. intros j. lia.
Qed.

(** A loop that runs exactly [n] times folds its body over the visited
    indices, whatever fuel at least [n] it was given. *)
Lemma forLoop_fold {S : Type} (body : nat -> S -> S) (bound step : nat) :
  forall (n fuel i : nat) (s : S),
    (n <= fuel)%nat ->
    (forall j, (j < n)%nat -> (i + step * j < bound)%nat) ->
    (bound <= i + step * n)%nat ->
    forLoop fuel i bound step body s
    = fold_left (fun s k => body k s) (strideIdx i step n) s.
Proof.
  induction n as [|n IH]; intros fuel i s Hfuel Hin Hout.
  - destruct fuel as [|fuel]; simpl; [reflexivity|].
    destruct (Nat.ltb_spec i bound); [lia|reflexivity].
  - destruct fuel as [|fuel]; [lia|].
    rewrite strideIdx_S. simpl.
    destruct (Nat.ltb_spec i bound) as [_|Hge].
    + apply IH; [lia| |lia].
      intros j Hj. specialize (Hin (Datatypes.S j)). lia.
    + specialize (Hin 0%nat). lia.
Qed.

(** ** Sequences that shrink by a tenth at every step *)

Lemma Qnat_S (n : nat) : Qnat (S n) == Qnat n + 1.
Proof.
  unfold Qnat. rewrite Nat2Z.inj_succ, <- Z.add_1_r, inject_Z_plus. reflexivity.
Qed.

Lemma Qnat_nonneg (n : nat) : 0 <= Qnat n.
Proof.
  unfold Qnat. change 0 with (inject_Z 0). rewrite <- Zle_Qle. lia.
Qed.

Lemma Qnat_le (n m : nat) : (n <= m)%nat -> Qnat n <= Qnat m.
Proof.
  intros H. unfold Qnat. rewrite <- Zle_Qle. lia.
Qed.

Section Geometric.

Variable d : nat -> Q.
Hypothesis d_nonneg : forall n, 0 <= d n.
Hypothesis d_contracts : forall n, d (S n) <= 0.9 * d n.

Lemma geometric_bound (n : nat) : d n * (9 + Qnat n) <= 9 * d 0%nat.
Proof.
  induction n as [|n IH].
  - change (Qnat 0) with 0. lra.
  - rewrite Qnat_S.
    pose proof (d_nonneg n) as Hn. pose proof (d_nonneg (S n)) as HSn.
    pose proof (d_contracts n) as Hc. pose proof (Qnat_nonneg n) as Hq.
    assert (d (S n) * (9 + (Qnat n + 1)) <= 0.9 * d n * (10 + Qnat n)) by nra.
    nra.
Qed.

Lemma geometric_antitone (n : nat) : d (S n) <= d n.
Proof.
  pose proof (d_nonneg n). pose proof (d_contracts n). lra.
Qed.

Lemma geometric_vanishes (eps : Q) :
  0 < eps -> exists N, forall n, (N <= n)%nat -> d n < eps.
Proof.
  intros Heps.
  destruct (Qarchimedean (9 * d 0%nat / eps)) as [p Hp].
  exists (Pos.to_nat p). intros n Hn.
  assert (Hq : 9 * d 0%nat < eps * Qnat n).
  { apply Qnat_le in Hn. unfold Qnat in Hn at 1.
    rewrite positive_nat_Z in Hn.
    assert (Hx : 9 * d 0%nat / eps * eps == 9 * d 0%nat).
    { field. lra. }
    change (inject_Z (Z.pos p)) with (Z.pos p # 1) in Hn.
    set (x := 9 * d 0%nat / eps) in *.
    set (P := Z.pos p # 1) in *. nra. }
  pose proof (geometric_bound n) as Hb.
  pose proof (d_nonneg n) as Hd. pose proof (Qnat_nonneg n) as Hnn.
  destruct (Qlt_le_dec (d n) eps) as [Hlt|Hge]; [exact Hlt|]. nra.
Qed.

End Geometric.

(** ** Temporal mask blender *)

Module BlenderFacts.

Import Blender BlenderSpec.

(** *** The second loop, cell by cell *)

Lemma cell_insert_eq (b : Mask) (i : nat) (x : Q) :
  (i < length b)%nat -> cell (<[i := x]> b) i = x.
Proof.
  intros H. unfold cell. by rewrite list_lookup_insert_eq.
Qed.

Lemma cell_insert_ne (b : Mask) (i j : nat) (x : Q) :
  i <> j -> cell (<[i := x]> b) j = cell b j.
Proof.
  intros H. unfold cell. by rewrite list_lookup_insert_ne.
Qed.

Lemma fold_blendCell (ga : Q) (mask : Mask) :
  forall (n a : nat) (blend : Mask),
    (a + n <= length blend)%nat ->
    let r := fold_left (fun b k => blendCell ga mask k b) (seq a n) blend in
    length r = length blend /\
    forall i, cell r i =
              if (a <=? i)%nat && (i <? a + n)%nat
              then blended ga mask blend i else cell blend i.
Proof.
  induction n as [|n IH]; intros a blend Hlen; simpl.
  - split; [reflexivity|]. intros i.
    destruct (Nat.leb_spec a i), (Nat.ltb_spec i (a + 0)); simpl; try reflexivity; lia.
  - destruct (IH (S a) (blendCell ga mask a blend)) as [Hl Hc].
    { unfold blendCell. rewrite length_insert. lia. }
    split.
    { rewrite Hl. unfold blendCell. apply length_insert. }
    intros i. rewrite Hc. unfold blended, blendCell.
    destruct (Nat.eq_dec a i) as [->|Hne].
    + rewrite cell_insert_eq by lia.
      destruct (Nat.leb_spec (S i) i); [lia|].
      destruct (Nat.leb_spec i i); [|lia].
      destruct (Nat.ltb_spec i (i + S n)); [|lia]. reflexivity.
    + rewrite cell_insert_ne by exact Hne.
      destruct (Nat.leb_spec (S a) i), (Nat.leb_spec a i),
               (Nat.ltb_spec i (S a + n)), (Nat.ltb_spec i (a + S n));
        simpl; try reflexivity; lia.
Qed.

Lemma strideIdx_1 (n : nat) : strideIdx 0 1 n = seq 0 n.
Proof.
  unfold strideIdx. rewrite <- (map_id (seq 0 n)) at 2.
  apply map_ext. intros j. lia.
Qed.

(** The in-place loop writes every cell once, from its own old value. *)
Lemma blendLoop_spec (ga : Q) (mask blend : Mask) :
  length blend = length mask ->
  length (blendLoop ga mask blend) = length mask /\
  forall i, (i < length mask)%nat ->
            cell (blendLoop ga mask blend) i = blended ga mask blend i.
Proof.
  intros Hlen. unfold blendLoop.
  rewrite (forLoop_fold _ _ _ (length mask)); [|lia|intros; lia|lia].
  rewrite strideIdx_1.
  destruct (fold_blendCell ga mask (length mask) 0 blend) as [Hl Hc]; [lia|].
  split; [lia|].
  intros i Hi. rewrite Hc.
  destruct (Nat.leb_spec 0 i); [|lia].
  destruct (Nat.ltb_spec i (0 + length mask)); [reflexivity|lia].
Qed.

(** *** The first loop: the sampled sum *)

Lemma fold_left_Qsum (g : nat -> Q) (l : list nat) (acc : Q) :
  fold_left (fun d i => d + g i) l acc == acc + Qsum (map g l).
Proof.
  revert acc. induction l as [|x l IH]; intros acc; simpl.
  - lra.
  - rewrite IH. lra.
Qed.

Lemma Qsum_nonneg (l : list Q) : Forall (fun x => 0 <= x) l -> 0 <= Qsum l.
Proof.
  induction 1 as [|x l Hx _ IH]; simpl; lra.
Qed.

Lemma filter_seq_between (a : nat) :
  (a mod 16 = 0)%nat ->
  forall n d, (1 <= d)%nat -> (d + n <= 16)%nat ->
    List.filter (fun i => (i mod 16 =? 0)%nat) (seq (a + d) n) = [].
Proof.
  intros Ha. induction n as [|n IH]; intros d Hd Hn; [reflexivity|].
  cbn [seq List.filter].
  destruct (Nat.eqb_spec ((a + d) mod 16) 0) as [E|_].
  { pose proof (Nat.Div0.div_mod a 16). pose proof (Nat.Div0.div_mod (a + d) 16). lia. }
  replace (S (a + d)) with (a + S d)%nat by lia.
  apply IH; lia.
Qed.

(** For a length that is a multiple of 16 the sampled cells are the cells
    [0, 16, 32, ...] that the first loop visits. *)
Lemma sampleIdx_mul16 (k : nat) : sampleIdx (16 * k) = strideIdx 0 16 k.
Proof.
  unfold sampleIdx, strideIdx. induction k as [|k IH]; [reflexivity|].
  replace (16 * S k)%nat with (16 * k + 16)%nat by lia.
  rewrite seq_app, List.filter_app, IH, (seq_S k 0), map_app. f_equal.
  change (seq (0 + 16 * k) 16) with ((0 + 16 * k)%nat :: seq (S (0 + 16 * k)) 15).
  cbn [List.filter].
  assert (Hk : ((16 * k) mod 16 = 0)%nat).
  { rewrite Nat.mul_comm. apply Nat.Div0.mod_mul. }
  rewrite !Nat.add_0_l, Hk. cbn [Nat.eqb map].
  replace (S (16 * k)) with (16 * k + 1)%nat by lia.
  rewrite filter_seq_between by (exact Hk || lia). f_equal; lia.
Qed.

Lemma length_strideIdx (i step n : nat) : length (strideIdx i step n) = n.
Proof. unfold strideIdx. by rewrite length_map, length_seq. Qed.

Lemma shiftr4_mul16 (k : nat) : Nat.shiftr (16 * k) 4 = k.
Proof.
  rewrite Nat.shiftr_div_pow2. change (2 ^ 4)%nat with 16%nat.
  rewrite Nat.mul_comm. apply Nat.div_mul. lia.
Qed.

(** The sum the first loop leaves in [diff], for a mask of [16 * k] cells. *)
Lemma diffSum_mul16 (mask prev : Mask) (k : nat) :
  length mask = (16 * k)%nat ->
  diffSum mask prev
  == Qsum (map (fun i => Qabs (cell mask i - cell prev i)) (sampleIdx (length mask))).
Proof.
  intros Hk. unfold diffSum.
  rewrite (forLoop_fold _ _ _ k); [|lia|intros; lia|lia].
  rewrite fold_left_Qsum, Hk, sampleIdx_mul16. lra.
Qed.

(** Whatever the length, the loop only adds absolute values. *)
Lemma forLoop_diff_nonneg (mask prev : Mask) (step bound : nat) :
  forall (fuel i : nat) (acc : Q),
    0 <= acc ->
    0 <= forLoop fuel i bound step
           (fun i diff => diff + Qabs (cell mask i - cell prev i)) acc.
Proof.
  induction fuel as [|fuel IH]; intros i acc Hacc; cbn [forLoop]; [exact Hacc|].
  destruct (i <? bound)%nat; [|exact Hacc].
  apply IH. pose proof (Qabs_nonneg (cell mask i - cell prev i)). lra.
Qed.

Lemma diffSum_nonneg (mask prev : Mask) : 0 <= diffSum mask prev.
Proof. apply forLoop_diff_nonneg. lra. Qed.

(** *** Source and specification agree *)

Lemma blendUpdate_copy (prev : option BlendMask) (mask : Mask) :
  hasPrev prev mask = false -> blendUpdate prev mask = Cells mask.
Proof. intros H. unfold blendUpdate. by rewrite H. Qed.

Lemma blendUpdate_hasPrev (mask prev : Mask) :
  length prev = length mask ->
  (Nat.shiftr (length mask) 4 <> 0)%nat ->
  blendUpdate (Some (Cells prev)) mask
  = Cells (blendLoop (globalAlpha mask prev) mask prev).
Proof.
  intros Hlen Hn. unfold blendUpdate, hasPrev, blendWith. cbn [blendLength].
  rewrite Hlen, Nat.eqb_refl.
  destruct (Nat.eqb_spec (Nat.shiftr (length mask) 4) 0); [contradiction|reflexivity].
Qed.

Lemma meanDiff_mul16 (mask prev : Mask) (k : nat) :
  length mask = (16 * k)%nat ->
  meanDiff mask prev == meanAbsDiff16 mask prev.
Proof.
  intros Hk. unfold meanDiff, meanAbsDiff16.
  rewrite (diffSum_mul16 mask prev k Hk).
  rewrite Hk at 2 4. rewrite shiftr4_mul16, sampleIdx_mul16, length_strideIdx.
  reflexivity.
Qed.

Lemma blended_spec (ga ga' : Q) (mask prev : Mask) (i : nat) :
  ga == ga' ->
  blended ga mask prev i == specBlendCell ALPHA_MAX ga' (cell mask i) (cell prev i).
Proof.
  intros Hga. unfold blended, specBlendCell, localAlpha, uncertainty, ALPHA_MAX.
  assert (Ha : Qabs (cell mask i * 2.0 - 1.0) == Qabs (2 * cell mask i - 1)).
  { apply Qabs_wd. lra. }
  rewrite Ha, Hga. set (a := Qabs (2 * cell mask i - 1)). lra.
Qed.

(** C1.  When a previous blended mask of the same length exists (masks of
    [16 * k] cells, [k > 0], as every [SEG_WIDTH x SEG_HEIGHT] mask is):
    the global weight the source computes is
    [min(0.9, 0.15 + diff * 6)] for [diff] the mean absolute difference
    over one cell in 16, and every cell of the new blended mask is
    [raw * alpha_local + old * (1 - alpha_local)] with
    [alpha_local = alpha_g + u * (alpha_max - alpha_g)],
    [u = 1 - |2 raw - 1|] and [alpha_max = 1]. *)
Theorem blend_follows_formula (mask prev : Mask) (k : nat) :
  length prev = length mask ->
  length mask = (16 * k)%nat ->
  (0 < k)%nat ->
  let alpha_g := specGlobalAlpha (meanAbsDiff16 mask prev) in
  globalAlpha mask prev == alpha_g /\
  exists out,
    blendUpdate (Some (Cells prev)) mask = Cells out /\
    length out = length mask /\
    forall i, (i < length mask)%nat ->
      cell out i == specBlendCell ALPHA_MAX alpha_g (cell mask i) (cell prev i).
Proof.
  intros Hlen Hk Hpos alpha_g.
  assert (Hga : globalAlpha mask prev == alpha_g).
  { unfold globalAlpha, globalAlphaOf, alpha_g, specGlobalAlpha.
    rewrite (meanDiff_mul16 mask prev k Hk). apply Q.min_compat; [reflexivity|lra]. }
  split; [exact Hga|].
  exists (blendLoop (globalAlpha mask prev) mask prev).
  destruct (blendLoop_spec (globalAlpha mask prev) mask prev Hlen) as [Hl Hc].
  split; [|split; [exact Hl|]].
  - apply blendUpdate_hasPrev; [exact Hlen|].
    rewrite Hk, shiftr4_mul16. lia.
  - intros i Hi. rewrite (Hc i Hi). apply blended_spec. exact Hga.
Qed.

Ltac sample_in01 :=
  repeat (apply Forall_cons_2; [unfold in01; lra|]); apply Forall_nil_2.

(** The theorem at the 16-cell sample masks: the scene did not move on
    the sampled cell, the global weight is 0.15. *)
Lemma blend_follows_formula_witness :
  length Samples.oldMask16 = length Samples.rawMask16 /\
  length Samples.rawMask16 = (16 * 1)%nat /\
  globalAlpha Samples.rawMask16 Samples.oldMask16
  == specGlobalAlpha (meanAbsDiff16 Samples.rawMask16 Samples.oldMask16) /\
  exists out,
    blendUpdate (Some (Cells Samples.oldMask16)) Samples.rawMask16 = Cells out /\
    length out = length Samples.rawMask16 /\
    forall i, (i < length Samples.rawMask16)%nat ->
      cell out i == specBlendCell ALPHA_MAX
                      (specGlobalAlpha (meanAbsDiff16 Samples.rawMask16 Samples.oldMask16))
                      (cell Samples.rawMask16 i) (cell Samples.oldMask16 i).
Proof.
  split; [reflexivity|]. split; [reflexivity|].
  apply (blend_follows_formula Samples.rawMask16 Samples.oldMask16 1);
    [reflexivity|reflexivity|lia].
Defined.

(** *** Range of the weights and of the blended cells *)

Lemma cell_lookup (l : Mask) (i : nat) (x : Q) : l !! i = Some x -> cell l i = x.
Proof. intros H. unfold cell. by rewrite H. Qed.

Lemma cell_Forall (P : Q -> Prop) (l : Mask) (i : nat) :
  Forall P l -> (i < length l)%nat -> P (cell l i).
Proof.
  intros HP Hi. destruct (lookup_lt_is_Some_2 l i Hi) as [x Hx].
  rewrite (cell_lookup l i x Hx). exact (proj1 (Forall_lookup P l) HP i x Hx).
Qed.

Lemma Forall_cells (P : Q -> Prop) (l : Mask) :
  (forall i, (i < length l)%nat -> P (cell l i)) -> Forall P l.
Proof.
  intros H. apply Forall_lookup. intros i x Hx.
  rewrite <- (cell_lookup l i x Hx). apply H. by eapply lookup_lt_Some.
Qed.

Lemma shiftr4_pos (n : nat) : (16 <= n)%nat -> (Nat.shiftr n 4 <> 0)%nat.
Proof.
  intros H. rewrite Nat.shiftr_div_pow2. change (2 ^ 4)%nat with 16%nat.
  pose proof (Nat.Div0.div_mod n 16). pose proof (Nat.mod_upper_bound n 16). lia.
Qed.

Lemma meanDiff_nonneg (mask prev : Mask) :
  (16 <= length mask)%nat -> 0 <= meanDiff mask prev.
Proof.
  intros H. unfold meanDiff. apply Qle_shift_div_l.
  - pose proof (shiftr4_pos _ H). change 0 with (inject_Z 0).
    rewrite <- Zlt_Qlt. lia.
  - pose proof (diffSum_nonneg mask prev). lra.
Qed.

Lemma globalAlphaOf_range (diff : Q) :
  0 <= diff -> 0.15 <= globalAlphaOf diff <= 0.9.
Proof.
  intros H. unfold globalAlphaOf.
  destruct (Q.min_spec 0.9 (0.15 + diff * 6.0)) as [[L E]|[L E]]; rewrite E; lra.
Qed.

Lemma globalAlpha_range (mask prev : Mask) :
  (16 <= length mask)%nat -> 0.15 <= globalAlpha mask prev <= 0.9.
Proof.
  intros H. apply globalAlphaOf_range, meanDiff_nonneg, H.
Qed.

Lemma uncertainty_range (c : Q) : in01 c -> 0 <= uncertainty c <= 1.
Proof.
  unfold in01, uncertainty. intros H. apply Qabs_case; intros; lra.
Qed.

Lemma localAlpha_range (ga c : Q) :
  0 <= ga <= 1 -> in01 c -> ga <= localAlpha ga c <= 1.
Proof.
  intros Hga Hc. unfold localAlpha.
  pose proof (uncertainty_range c Hc). nra.
Qed.

Lemma blended_in01 (ga : Q) (mask blend : Mask) (i : nat) :
  0 <= ga <= 1 -> in01 (cell mask i) -> in01 (cell blend i) ->
  in01 (blended ga mask blend i).
Proof.
  intros Hga Hm Hb. unfold blended.
  pose proof (localAlpha_range ga (cell mask i) Hga Hm).
  unfold in01 in *. nra.
Qed.

(** Why the masks below have at least 16 cells: for a shorter mask
    [mask.length >> 4] is 0; when the first cells agree [diff] is [0 / 0]
    and every blended cell is NaN, when they differ [diff] is [Infinity]
    and the global weight is 0.9. *)
Example short_mask_divides_by_zero :
  blendUpdate (Some (Cells [0.5])) [0.5] = AllNaN 1 /\
  exists x, blendUpdate (Some (Cells [0.5])) [1] = Cells [x] /\ x == 0.95.
Proof.
  split; [reflexivity|]. eexists. split; [reflexivity|]. reflexivity.
Qed.

(** C10.  Confidences stay confidences: for a raw mask with all values in
    [[0, 1]] (of at least 16 cells, as every [SEG_WIDTH x SEG_HEIGHT] mask
    is) and a previous blended mask, if any, with all values in [[0, 1]],
    the new blended mask has finite cells, all in [[0, 1]], whether it is
    the initial copy or a blend; in a blend the global weight is in
    [[0, 1]] and every local weight is in [[globalAlpha, 1]]. *)
Theorem blend_keeps_range (prev : option BlendMask) (mask : Mask) :
  Forall in01 mask ->
  prevIn01 prev ->
  (16 <= length mask)%nat ->
  (exists out, blendUpdate prev mask = Cells out /\ Forall in01 out) /\
  (forall old, prev = Some (Cells old) -> length old = length mask ->
     0 <= globalAlpha mask old <= 1 /\
     forall i, (i < length mask)%nat ->
       globalAlpha mask old <= localAlpha (globalAlpha mask old) (cell mask i) <= 1).
Proof.
  intros Hmask Hprev Hlen. split.
  - unfold blendUpdate. destruct (hasPrev prev mask) eqn:Hhas.
    + destruct prev as [[old|len]|]; cbn [prevIn01] in Hprev;
        [|contradiction|discriminate].
      cbn [hasPrev blendLength] in Hhas. apply Nat.eqb_eq in Hhas.
      pose proof (blendUpdate_hasPrev mask old Hhas (shiftr4_pos _ Hlen)) as E.
      unfold blendUpdate, hasPrev in E. cbn [blendLength] in E.
      rewrite Hhas, Nat.eqb_refl in E. rewrite E.
      destruct (blendLoop_spec (globalAlpha mask old) mask old Hhas) as [Hl Hc].
      eexists. split; [reflexivity|].
      apply Forall_cells. intros i Hi. rewrite Hl in Hi. rewrite (Hc i Hi).
      pose proof (globalAlpha_range mask old Hlen).
      apply blended_in01; [lra| |].
      * apply cell_Forall; assumption.
      * apply cell_Forall; [assumption|lia].
    + exists mask. split; [reflexivity|exact Hmask].
  - intros old _ _. pose proof (globalAlpha_range mask old Hlen) as Hga.
    split; [lra|]. intros i Hi. apply localAlpha_range; [lra|].
    apply cell_Forall; assumption.
Qed.

Lemma blend_keeps_range_witness :
  Forall in01 Samples.rawMask16 /\
  prevIn01 (Some (Cells Samples.oldMask16)) /\
  exists out,
    blendUpdate (Some (Cells Samples.oldMask16)) Samples.rawMask16 = Cells out /\
    Forall in01 out.
Proof.
  assert (H1 : Forall in01 Samples.rawMask16)
    by (cbv [Samples.rawMask16 repeat]; sample_in01).
  assert (H2 : prevIn01 (Some (Cells Samples.oldMask16)))
    by (cbv [prevIn01 Samples.oldMask16 repeat]; sample_in01).
  assert (H3 : (16 <= length Samples.rawMask16)%nat) by (vm_compute; lia).
  split; [exact H1|]. split; [exact H2|].
  exact (proj1 (blend_keeps_range (Some (Cells Samples.oldMask16))
                  Samples.rawMask16 H1 H2 H3)).
Defined.

(** *** The same raw mask again and again *)

Lemma diffSum_samples (mask prev : Mask) :
  diffSum mask prev
  == Qsum (map (fun i => Qabs (cell mask i - cell prev i))
               (strideIdx 0 16 ((length mask + 15) / 16))).
Proof.
  unfold diffSum.
  pose proof (Nat.Div0.div_mod (length mask + 15) 16) as Hdm.
  pose proof (Nat.mod_upper_bound (length mask + 15) 16) as Hub.
  rewrite (forLoop_fold _ _ _ ((length mask + 15) / 16)); [|lia|intros; lia|lia].
  rewrite fold_left_Qsum. lra.
Qed.

Lemma In_strideIdx (x n : nat) :
  In x (strideIdx 0 16 n) <-> exists j, (j < n)%nat /\ x = (16 * j)%nat.
Proof.
  unfold strideIdx. rewrite in_map_iff. split.
  - intros [j [E Hj]]. apply in_seq in Hj. exists j. lia.
  - intros [j [Hj E]]. exists j. split; [lia|]. apply in_seq. lia.
Qed.

Lemma Qsum_zero (l : list Q) : Forall (fun x => x == 0) l -> Qsum l == 0.
Proof.
  induction 1 as [|x l Hx _ IH]; cbn [Qsum fold_right]; [reflexivity|].
  fold (Qsum l). lra.
Qed.

Lemma Qsum_zero_inv (l : list Q) :
  Forall (fun x => 0 <= x) l -> Qsum l == 0 -> Forall (fun x => x == 0) l.
Proof.
  induction 1 as [|x l Hx Hl IH]; cbn [Qsum fold_right]; intros Hs; [constructor|].
  fold (Qsum l) in Hs. pose proof (Qsum_nonneg l Hl).
  constructor; [lra|]. apply IH. lra.
Qed.

Lemma Qabs_zero_iff (x : Q) : Qabs x == 0 <-> x == 0.
Proof.
  split; intros H.
  - revert H. apply Qabs_case; intros; lra.
  - rewrite H. reflexivity.
Qed.

Lemma meanDiff_zero_iff (raw c : Mask) :
  (16 <= length raw)%nat ->
  meanDiff raw c == 0 <-> sampledEqual raw c.
Proof.
  intros Hlen.
  pose proof (shiftr4_pos _ Hlen) as Hn.
  assert (HN : ~ inject_Z (Z.of_nat (Nat.shiftr (length raw) 4)) == 0).
  { change 0 with (inject_Z 0). rewrite inject_Z_injective. lia. }
  pose proof (Nat.Div0.div_mod (length raw + 15) 16) as Hdm.
  pose proof (Nat.mod_upper_bound (length raw + 15) 16) as Hub.
  set (g := fun i => Qabs (cell raw i - cell c i)).
  assert (Hsum : meanDiff raw c == 0 <-> Qsum (map g (strideIdx 0 16 ((length raw + 15) / 16))) == 0).
  { unfold meanDiff. rewrite (diffSum_samples raw c). fold g.
    set (S := Qsum _). set (N := inject_Z _) in *. split; intros H.
    - assert (E : S / N * N == S) by (field; exact HN). rewrite H in E. lra.
    - rewrite H. field. exact HN. }
  rewrite Hsum. split.
  - intros H j Hj. apply Qsum_zero_inv in H.
    + rewrite List.Forall_map, List.Forall_forall in H.
      specialize (H (16 * j)%nat). unfold g in H.
      rewrite Qabs_zero_iff in H.
      assert (E : cell raw (16 * j) - cell c (16 * j) == 0).
      { apply H. apply In_strideIdx. exists j. split; [lia|reflexivity]. }
      lra.
    + rewrite List.Forall_map, List.Forall_forall. intros x _. apply Qabs_nonneg.
  - intros H. apply Qsum_zero.
    rewrite List.Forall_map, List.Forall_forall. intros x Hx.
    apply In_strideIdx in Hx. destruct Hx as [j [Hj ->]].
    unfold g. apply Qabs_zero_iff. rewrite (H j); [lra|lia].
Qed.

(** One blend moves every cell towards the raw value. *)
Lemma blended_distance (ga : Q) (raw c : Mask) (i : nat) :
  blended ga raw c i - cell raw i
  == (1 - localAlpha ga (cell raw i)) * (cell c i - cell raw i).
Proof. unfold blended. ring. Qed.

Lemma blended_contracts (ga : Q) (raw c : Mask) (i : nat) :
  0.15 <= ga <= 0.9 -> in01 (cell raw i) ->
  Qabs (blended ga raw c i - cell raw i) <= 0.9 * Qabs (cell c i - cell raw i).
Proof.
  intros Hga Hr. rewrite blended_distance, Qabs_Qmult.
  assert (Hla : ga <= localAlpha ga (cell raw i) <= 1)
    by (apply localAlpha_range; [lra|exact Hr]).
  rewrite (Qabs_pos (1 - localAlpha ga (cell raw i))) by lra.
  pose proof (Qabs_nonneg (cell c i - cell raw i)). nra.
Qed.

Lemma blendSeq_S (raw b0 : Mask) (n : nat) :
  blendSeq raw b0 (S n) = blendUpdate (Some (blendSeq raw b0 n)) raw.
Proof. reflexivity. Qed.

Lemma blendSeq_cells (raw b0 : Mask) :
  length b0 = length raw -> (16 <= length raw)%nat ->
  forall n, exists c, blendSeq raw b0 n = Cells c /\ length c = length raw.
Proof.
  intros Hb Hlen. induction n as [|n [c [Hc Hl]]].
  - exists b0. split; [reflexivity|exact Hb].
  - rewrite blendSeq_S, Hc.
    rewrite (blendUpdate_hasPrev raw c Hl (shiftr4_pos _ Hlen)).
    eexists. split; [reflexivity|].
    apply (blendLoop_spec (globalAlpha raw c) raw c Hl).
Qed.

(** With the same raw mask at every invocation the blended mask closes
    in on it, whatever the global weight is at each step. *)
Lemma blendDist_contracts (raw b0 : Mask) (n i : nat) :
  Forall in01 raw -> length b0 = length raw -> (16 <= length raw)%nat ->
  (i < length raw)%nat ->
  blendDist raw b0 (S n) i <= 0.9 * blendDist raw b0 n i.
Proof.
  intros Hraw Hb Hlen Hi. unfold blendDist.
  destruct (blendSeq_cells raw b0 Hb Hlen n) as [c [Hc Hl]].
  rewrite blendSeq_S, Hc.
  rewrite (blendUpdate_hasPrev raw c Hl (shiftr4_pos _ Hlen)). cbn [cellsOf].
  destruct (blendLoop_spec (globalAlpha raw c) raw c Hl) as [_ Hcell].
  rewrite (Hcell i Hi).
  apply blended_contracts; [apply globalAlpha_range, Hlen|].
  apply cell_Forall; assumption.
Qed.

Lemma sampledEqual_step (raw c : Mask) :
  length c = length raw -> sampledEqual raw c ->
  sampledEqual raw (blendLoop (globalAlpha raw c) raw c).
Proof.
  intros Hl Hs j Hj.
  destruct (blendLoop_spec (globalAlpha raw c) raw c Hl) as [_ Hcell].
  rewrite (Hcell _ Hj).
  pose proof (blended_distance (globalAlpha raw c) raw c (16 * j)) as E.
  rewrite (Hs j Hj) in E.
  set (b := blended _ _ _ _) in *. set (la := localAlpha _ _) in *. lra.
Qed.

(** After the initial copy [diff == 0] holds, the condition under which
    the theorem on static scenes below gives the floor at every step: the
    blended mask is the raw mask itself. *)
Lemma static_from_first_copy (raw : Mask) :
  (16 <= length raw)%nat ->
  blendUpdate None raw = Cells raw /\ meanDiff raw raw == 0.
Proof.
  intros Hlen. split; [reflexivity|].
  apply meanDiff_zero_iff; [exact Hlen|]. intros j _. reflexivity.
Qed.

Lemma Qsum_scale_le (f g : nat -> Q) (k : Q) (l : list nat) :
  (forall x, In x l -> f x <= k * g x) ->
  Qsum (map f l) <= k * Qsum (map g l).
Proof.
  induction l as [|x l IH]; intros H.
  - change (0 <= k * 0). lra.
  - cbn [map]. change (Qsum (f x :: map f l)) with (f x + Qsum (map f l)).
    change (Qsum (g x :: map g l)) with (g x + Qsum (map g l)).
    pose proof (H x (or_introl eq_refl)) as Hx.
    assert (Hl : Qsum (map f l) <= k * Qsum (map g l))
      by (apply IH; intros y Hy; apply H; by right).
    lra.
Qed.

Lemma shiftr4_Qpos (n : nat) :
  (16 <= n)%nat -> 0 < inject_Z (Z.of_nat (Nat.shiftr n 4)).
Proof.
  intros H. pose proof (shiftr4_pos n H) as Hn.
  change 0 with (inject_Z 0). rewrite <- Zlt_Qlt. lia.
Qed.

(** One blend with the same raw mask brings [diff] down to at most 0.9
    of what it was. *)
Lemma meanDiff_contracts (raw c : Mask) :
  Forall in01 raw -> length c = length raw -> (16 <= length raw)%nat ->
  meanDiff raw (blendLoop (globalAlpha raw c) raw c) <= 0.9 * meanDiff raw c.
Proof.
  intros Hraw Hl Hlen. unfold meanDiff. rewrite !diffSum_samples.
  destruct (blendLoop_spec (globalAlpha raw c) raw c Hl) as [_ Hcell].
  set (out := blendLoop (globalAlpha raw c) raw c) in *.
  set (idx := strideIdx 0 16 ((length raw + 15) / 16)).
  assert (Hs : Qsum (map (fun i => Qabs (cell raw i - cell out i)) idx)
               <= 0.9 * Qsum (map (fun i => Qabs (cell raw i - cell c i)) idx)).
  { apply Qsum_scale_le. intros x Hx.
    apply In_strideIdx in Hx as [j [Hj ->]].
    assert (Hi : (16 * j < length raw)%nat).
    { pose proof (Nat.Div0.div_mod (length raw + 15) 16).
      pose proof (Nat.mod_upper_bound (length raw + 15) 16). lia. }
    rewrite (Hcell _ Hi).
    rewrite (Qabs_Qminus (cell raw (16 * j))).
    rewrite (Qabs_Qminus (cell raw (16 * j)) (cell c (16 * j))).
    apply blended_contracts; [apply globalAlpha_range, Hlen|].
    apply cell_Forall; assumption. }
  pose proof (shiftr4_Qpos _ Hlen) as HN.
  set (N := inject_Z _) in *.
  set (S1 := Qsum _) in *. set (S0 := Qsum _) in *.
  assert (Hinv : 0 < / N) by (apply Qinv_lt_0_compat; exact HN).
  unfold Qdiv. set (r := / N) in *. nra.
Qed.

Lemma globalAlphaOf_mono (d1 d2 : Q) :
  d1 <= d2 -> globalAlphaOf d1 <= globalAlphaOf d2.
Proof.
  intros H. unfold globalAlphaOf.
  destruct (Q.min_spec 0.9 (0.15 + d1 * 6.0)) as [[L E]|[L E]]; rewrite E;
    destruct (Q.min_spec 0.9 (0.15 + d2 * 6.0)) as [[L' E']|[L' E']]; rewrite E';
    lra.
Qed.

Lemma globalAlphaOf_floor (d : Q) :
  0 <= d -> globalAlphaOf d <= 0.15 + d * 6.0 /\ (globalAlphaOf d == 0.15 <-> d == 0).
Proof.
  intros H. unfold globalAlphaOf.
  destruct (Q.min_spec 0.9 (0.15 + d * 6.0)) as [[L E]|[L E]]; rewrite E;
    (split; [lra|split; intros; lra]).
Qed.

Section Static.

Import StaticScene.

Variables raw b0 : Mask.
Hypothesis raw_in01 : Forall in01 raw.
Hypothesis same_length : length b0 = length raw.
Hypothesis long_enough : (16 <= length raw)%nat.

Lemma diffAt_nonneg (n : nat) : 0 <= diffAt raw b0 n.
Proof. apply meanDiff_nonneg, long_enough. Qed.

Lemma diffAt_contracts (n : nat) : diffAt raw b0 (S n) <= 0.9 * diffAt raw b0 n.
Proof.
  unfold diffAt.
  destruct (blendSeq_cells raw b0 same_length long_enough n) as [c [Hc Hl]].
  rewrite blendSeq_S, Hc.
  rewrite (blendUpdate_hasPrev raw c Hl (shiftr4_pos _ long_enough)).
  cbn [cellsOf]. by apply meanDiff_contracts.
Qed.

Lemma diffAt_stays_zero : diffAt raw b0 0 == 0 -> forall n, diffAt raw b0 n == 0.
Proof.
  intros H0. induction n as [|n IH]; [exact H0|].
  pose proof (diffAt_nonneg (S n)). pose proof (diffAt_contracts n). lra.
Qed.

(** What invocation [n + 1] writes: the blend of the source with the
    weight [weightAt raw b0 n]. *)
Lemma static_step (n : nat) :
  exists c out,
    blendSeq raw b0 n = Cells c /\ blendSeq raw b0 (S n) = Cells out /\
    length c = length raw /\ length out = length raw /\
    forall i, (i < length raw)%nat ->
      cell out i
      == specBlendCell ALPHA_MAX (weightAt raw b0 n) (cell raw i) (cell c i).
Proof.
  destruct (blendSeq_cells raw b0 same_length long_enough n) as [c [Hc Hl]].
  exists c, (blendLoop (globalAlpha raw c) raw c).
  destruct (blendLoop_spec (globalAlpha raw c) raw c Hl) as [Hlo Hcell].
  split; [exact Hc|]. split.
  { rewrite blendSeq_S, Hc.
    apply (blendUpdate_hasPrev raw c Hl (shiftr4_pos _ long_enough)). }
  split; [exact Hl|]. split; [exact Hlo|].
  intros i Hi. rewrite (Hcell i Hi).
  apply blended_spec. unfold weightAt, diffAt. rewrite Hc. reflexivity.
Qed.

End Static.

(** C7.  A static scene: the same raw mask (confidences in [[0, 1]], at
    least 16 cells) at every invocation, whatever blended mask of that
    length the invocations before left behind.  The source takes [diff]
    between the raw mask and the previous BLENDED mask, so:
    - every invocation blends with the weight
      [min(0.9, 0.15 + 6 * diff)], which lies in [[0.15, 0.9]] and is the
      floor 0.15 exactly when [diff == 0];
    - [diff] shrinks to at most 0.9 of itself at each invocation, so the
      weight never rises and comes as close to 0.15 as one likes;
    - if [diff == 0] when the series starts (as after the initial copy)
      the weight is 0.15 at every step;
    - in every cell the distance between blended and raw value never
      grows and falls below any positive bound. *)
Theorem static_mask_converges (raw b0 : Mask) :
  Forall in01 raw ->
  length b0 = length raw ->
  (16 <= length raw)%nat ->
  (forall n, exists c out,
      blendSeq raw b0 n = Cells c /\ blendSeq raw b0 (S n) = Cells out /\
      length c = length raw /\ length out = length raw /\
      forall i, (i < length raw)%nat ->
        cell out i
        == specBlendCell ALPHA_MAX (StaticScene.weightAt raw b0 n)
             (cell raw i) (cell c i)) /\
  (forall n,
      0.15 <= StaticScene.weightAt raw b0 n <= 0.9 /\
      (StaticScene.weightAt raw b0 n == 0.15 <-> StaticScene.diffAt raw b0 n == 0) /\
      StaticScene.diffAt raw b0 (S n) <= 0.9 * StaticScene.diffAt raw b0 n /\
      StaticScene.weightAt raw b0 (S n) <= StaticScene.weightAt raw b0 n) /\
  (forall eps, 0 < eps ->
      exists N, forall n, (N <= n)%nat -> StaticScene.weightAt raw b0 n < 0.15 + eps) /\
  (StaticScene.diffAt raw b0 0 == 0 ->
   forall n, StaticScene.weightAt raw b0 n == 0.15) /\
  (forall n i, (i < length raw)%nat ->
      blendDist raw b0 (S n) i <= blendDist raw b0 n i) /\
  (forall i eps, (i < length raw)%nat -> 0 < eps ->
      exists N, forall n, (N <= n)%nat -> blendDist raw b0 n i < eps).
Proof.
  intros Hraw Hb Hlen.
  assert (Hpos : forall n i, 0 <= blendDist raw b0 n i)
    by (intros; apply Qabs_nonneg).
  assert (Hd0 : forall n, 0 <= StaticScene.diffAt raw b0 n)
    by (intros; apply diffAt_nonneg; assumption).
  assert (Hdc : forall n, StaticScene.diffAt raw b0 (S n)
                          <= 0.9 * StaticScene.diffAt raw b0 n)
    by (intros; apply diffAt_contracts; assumption).
  split; [|split; [|split; [|split; [|split]]]].
  - intros n. apply static_step; assumption.
  - intros n. unfold StaticScene.weightAt.
    split; [apply globalAlphaOf_range, Hd0|].
    split; [apply globalAlphaOf_floor, Hd0|].
    split; [apply Hdc|].
    apply globalAlphaOf_mono. pose proof (Hd0 n). pose proof (Hdc n). lra.
  - intros eps Heps.
    destruct (geometric_vanishes (StaticScene.diffAt raw b0) Hd0 Hdc (eps / 6))
      as [N HN].
    { apply Qlt_shift_div_l; lra. }
    exists N. intros n Hn. specialize (HN n Hn).
    unfold StaticScene.weightAt.
    destruct (globalAlphaOf_floor _ (Hd0 n)) as [Hle _].
    assert (E : eps / 6 * 6 == eps) by field.
    set (d := StaticScene.diffAt raw b0 n) in *. set (e6 := eps / 6) in *. lra.
  - intros H0 n. unfold StaticScene.weightAt.
    apply globalAlphaOf_floor; [apply Hd0|].
    apply diffAt_stays_zero; assumption.
  - intros n i Hi.
    pose proof (blendDist_contracts raw b0 n i Hraw Hb Hlen Hi).
    pose proof (Hpos n i). lra.
  - intros i eps Hi Heps.
    apply (geometric_vanishes (fun n => blendDist raw b0 n i)); [| |exact Heps].
    + intros n. apply Hpos.
    + intros n. apply blendDist_contracts; assumption.
Qed.

(** The theorem at a scene that has just changed from 0 to 1 everywhere:
    the weight of the second invocation is not above that of the first. *)
Lemma static_mask_converges_witness :
  Forall in01 StaticScene.allOne16 /\
  StaticScene.weightAt StaticScene.allOne16 StaticScene.allZero16 1
  <= StaticScene.weightAt StaticScene.allOne16 StaticScene.allZero16 0.
Proof.
  assert (H1 : Forall in01 StaticScene.allOne16)
    by (cbv [StaticScene.allOne16 repeat]; sample_in01).
  assert (H2 : length StaticScene.allZero16 = length StaticScene.allOne16)
    by reflexivity.
  assert (H3 : (16 <= length StaticScene.allOne16)%nat) by (vm_compute; lia).
  split; [exact H1|].
  exact (proj2 (proj2 (proj2 (proj1 (proj2
           (static_mask_converges StaticScene.allOne16 StaticScene.allZero16
              H1 H2 H3)) 0%nat)))).
Defined.

(** The claim as worded fails after motion.  The session receives the
    raw mask 0 everywhere (copied), then 1 everywhere (blended to 0.9),
    then the identical mask 1 everywhere again: that invocation blends
    with the weight 0.75, so the cell becomes 0.975 and not the 0.915 that
    the floor 0.15 would give. *)
Lemma static_after_motion_weight_above_floor :
  ~ (forall (history : list Mask) (raw c : Mask),
       Forall in01 raw -> (16 <= length raw)%nat ->
       last history = Some raw ->
       StaticScene.blendRun None history = Some (Cells c) ->
       exists out,
         blendUpdate (Some (Cells c)) raw = Cells out /\
         forall i, (i < length raw)%nat ->
           cell out i == specBlendCell ALPHA_MAX 0.15 (cell raw i) (cell c i)).
Proof.
  intros H.
  assert (H1 : Forall in01 StaticScene.allOne16)
    by (cbv [StaticScene.allOne16 repeat]; sample_in01).
  assert (H3 : (16 <= length StaticScene.allOne16)%nat) by (vm_compute; lia).
  destruct (H [StaticScene.allZero16; StaticScene.allOne16] StaticScene.allOne16
              (cellsOf (blendUpdate (Some (Cells StaticScene.allZero16))
                          StaticScene.allOne16))
              H1 H3 eq_refl eq_refl) as (out & Hout & Hcell).
  assert (H0 : (0 < length StaticScene.allOne16)%nat) by (vm_compute; lia).
  specialize (Hcell 0%nat H0).
  assert (Eo : cell out 0
               = cell (cellsOf (blendUpdate
                                  (Some (Cells (cellsOf (blendUpdate
                                     (Some (Cells StaticScene.allZero16))
                                     StaticScene.allOne16))))
                                  StaticScene.allOne16)) 0)
    by (rewrite Hout; reflexivity).
  rewrite Eo in Hcell. vm_compute in Hcell. discriminate Hcell.
Qed.

(** The weights of the first three invocations in that scene. *)
Example static_after_motion_trajectory :
  StaticScene.weightAt StaticScene.allOne16 StaticScene.allZero16 0 == 0.9 /\
  StaticScene.weightAt StaticScene.allOne16 StaticScene.allZero16 1 == 0.75 /\
  StaticScene.weightAt StaticScene.allOne16 StaticScene.allZero16 2 == 0.3.
Proof. repeat split; reflexivity. Qed.

(** Without [diff == 0] the floor is not reached: after a change of the
    whole scene from 0 to 1 the global weight is at its ceiling 0.9 in the
    first invocation and still 0.75 in the second, although the second
    raw mask is identical to the first. *)
Example moving_scene_alpha :
  let raw := repeat 1 16 in
  let old := repeat 0 16 in
  globalAlpha raw old == 0.9 /\
  globalAlpha raw (cellsOf (blendSeq raw old 1)) == 0.75.
Proof. split; reflexivity. Qed.

End BlenderFacts.

(** ** Load controller *)

Module LoadFacts.

Import LoadController.

Ltac load_side :=
  first [ reflexivity | lia | lra | intros [? ?]; first [lia | lra] ].

Lemma loadUpdate_avg (t : Q) (s : LoadStats) :
  avgFrameTime (loadUpdate t s) = avgFrameTime s * 0.9 + t * 0.1.
Proof.
  unfold loadUpdate.
  destruct (Qltb 8 _ && _); [reflexivity|].
  destruct (Qltb _ 3 && _); reflexivity.
Qed.

(** The three cases of the update, read off the two tests. *)
Lemma loadUpdate_skip (t : Q) (s : LoadStats) :
  let avg := avgFrameTime s * 0.9 + t * 0.1 in
  (SLOW < avg /\ (skipInterval s < MAX_SKIP)%nat /\
   skipInterval (loadUpdate t s) = S (skipInterval s)) \/
  (~ (SLOW < avg /\ (skipInterval s < MAX_SKIP)%nat) /\
   avg < FAST /\ (1 < skipInterval s)%nat /\
   S (skipInterval (loadUpdate t s)) = skipInterval s) \/
  (~ (SLOW < avg /\ (skipInterval s < MAX_SKIP)%nat) /\
   ~ (avg < FAST /\ (1 < skipInterval s)%nat) /\
   skipInterval (loadUpdate t s) = skipInterval s).
Proof.
  intros avg. unfold loadUpdate, SLOW, FAST, MAX_SKIP. fold avg.
  destruct (Qltb 8 avg) eqn:E1;
    destruct (Nat.ltb_spec (skipInterval s) 2) as [L1|L1];
    destruct (Qltb avg 3) eqn:E2;
    destruct (Nat.ltb_spec 1 (skipInterval s)) as [L2|L2];
    cbn [andb skipInterval];
    try apply Qltb_lt in E1; try apply Qltb_ge in E1;
    try apply Qltb_lt in E2; try apply Qltb_ge in E2;
    first [ left; solve [repeat split; load_side]
          | right; left; solve [repeat split; load_side]
          | right; right; solve [repeat split; load_side] ].
Qed.

Lemma loadInv_step (t : Q) (s : LoadStats) : loadInv s -> loadInv (loadUpdate t s).
Proof.
  intros [Hr Ha]. unfold loadInv. rewrite loadUpdate_avg.
  unfold MAX_SKIP, SLOW, FAST in *.
  destruct (loadUpdate_skip t s) as [[C1 [C2 C3]]|[[C1 [C2 [C3 C4]]]|[C1 [C2 C3]]]];
    unfold MAX_SKIP, SLOW, FAST in *.
  - split; [lia|]. intros _. lra.
  - split; [lia|]. intros E. lia.
  - split; [lia|]. intros E.
    destruct (Qlt_le_dec (avgFrameTime s * 0.9 + t * 0.1) 3) as [Hlt|Hge]; [|exact Hge].
    exfalso. apply C2. split; [exact Hlt|lia].
Qed.

Lemma reachable_inv (s : LoadStats) : reachable s -> loadInv s.
Proof.
  induction 1 as [|s t _ IH _].
  - unfold loadInv, initialLoad, MAX_SKIP, FAST. cbn. split; [lia|intros; lia].
  - apply loadInv_step, IH.
Qed.

Lemma loadIter_S (L : Q) (n : nat) (s : LoadStats) :
  loadIter L (S n) s = loadUpdate L (loadIter L n s).
Proof. reflexivity. Qed.

Lemma loadIter_reachable (L : Q) (n : nat) (s : LoadStats) :
  reachable s -> 0 <= L -> reachable (loadIter L n s).
Proof.
  intros Hs HL. induction n as [|n IH]; [exact Hs|].
  rewrite loadIter_S. apply reach_step; assumption.
Qed.

Lemma loadIter_avg (L : Q) (n : nat) (s : LoadStats) :
  avgFrameTime (loadIter L (S n) s) = avgFrameTime (loadIter L n s) * 0.9 + L * 0.1.
Proof. rewrite loadIter_S. apply loadUpdate_avg. Qed.

(** Under a constant measurement the average closes in on it. *)
Lemma loadIter_avg_converges (L : Q) (s : LoadStats) (eps : Q) :
  0 < eps ->
  exists N, forall n, (N <= n)%nat -> Qabs (avgFrameTime (loadIter L n s) - L) < eps.
Proof.
  intros Heps.
  apply (geometric_vanishes (fun n => Qabs (avgFrameTime (loadIter L n s) - L)));
    [| |exact Heps].
  - intros n. apply Qabs_nonneg.
  - intros n. rewrite loadIter_avg.
    set (a := avgFrameTime (loadIter L n s)).
    assert (E : a * 0.9 + L * 0.1 - L == 0.9 * (a - L)) by ring.
    rewrite E, Qabs_Qmult. rewrite (Qabs_pos 0.9) by lra. lra.
Qed.

Lemma Qabs_lt_inv (x eps : Q) : Qabs x < eps -> - eps < x /\ x < eps.
Proof.
  apply Qabs_case; intros; lra.
Qed.

(** C4, as amended.  After every measurement the average is
    [avg * 0.9 + segTime * 0.1] and the interval moves by at most 1: up
    when the new average exceeds 8 and the interval is below its bound 2,
    down when (not so and) the new average is below 3 and the interval is
    above 1, else not at all.  In every reachable state the interval is
    in [[1, 2]].  Under a constant latency above 8 it never decreases,
    never exceeds 2 and is 2 from some measurement on.  Under a constant
    latency below 3 it never goes below 1, is 1 from some measurement on,
    and does not increase after a state whose average is at most 8. *)
Theorem load_controller_adapts (s : LoadStats) (L : Q) :
  reachable s ->
  0 <= L ->
  (forall t, avgFrameTime (loadUpdate t s) == avgFrameTime s * 0.9 + t * 0.1 /\
     let avg := avgFrameTime s * 0.9 + t * 0.1 in
     (SLOW < avg /\ (skipInterval s < MAX_SKIP)%nat /\
      skipInterval (loadUpdate t s) = S (skipInterval s)) \/
     (~ (SLOW < avg /\ (skipInterval s < MAX_SKIP)%nat) /\
      avg < FAST /\ (1 < skipInterval s)%nat /\
      S (skipInterval (loadUpdate t s)) = skipInterval s) \/
     (~ (SLOW < avg /\ (skipInterval s < MAX_SKIP)%nat) /\
      ~ (avg < FAST /\ (1 < skipInterval s)%nat) /\
      skipInterval (loadUpdate t s) = skipInterval s)) /\
  (1 <= skipInterval s <= MAX_SKIP)%nat /\
  (SLOW < L ->
     (forall n, (skipInterval (loadIter L n s)
                 <= skipInterval (loadIter L (S n) s) <= MAX_SKIP)%nat) /\
     exists N, forall n, (N <= n)%nat -> skipInterval (loadIter L n s) = MAX_SKIP) /\
  (L < FAST ->
     (forall n, (1 <= skipInterval (loadIter L n s))%nat) /\
     (forall n, avgFrameTime (loadIter L n s) <= SLOW ->
        (skipInterval (loadIter L (S n) s) <= skipInterval (loadIter L n s))%nat) /\
     exists N, forall n, (N <= n)%nat -> skipInterval (loadIter L n s) = 1%nat).
Proof.
  intros Hs HL.
  assert (Hinv : forall n, loadInv (loadIter L n s)).
  { intros n. apply reachable_inv, loadIter_reachable; assumption. }
  split; [|split; [|split]].
  - intros t. split; [rewrite loadUpdate_avg; reflexivity|apply loadUpdate_skip].
  - apply (reachable_inv s Hs).
  - intros Hslow. unfold SLOW in Hslow. split.
    + intros n. rewrite loadIter_S.
      destruct (Hinv n) as [Hr Ha]. destruct (Hinv (S n)) as [Hr' _].
      rewrite loadIter_S in Hr'. split; [|lia].
      destruct (loadUpdate_skip L (loadIter L n s))
        as [[C1 [C2 C3]]|[[C1 [C2 [C3 C4]]]|[C1 [C2 C3]]]];
        unfold MAX_SKIP, SLOW, FAST in *; [lia| |lia].
      assert (3 <= avgFrameTime (loadIter L n s)) by (apply Ha; lia). lra.
    + destruct (loadIter_avg_converges L s (L - 8)) as [N HN]; [lra|].
      exists (S N). intros n Hn. destruct n as [|m]; [lia|].
      specialize (HN (S m)). apply Qabs_lt_inv in HN; [|lia].
      rewrite loadIter_avg in HN. rewrite loadIter_S.
      destruct (Hinv m) as [Hr _].
      destruct (loadUpdate_skip L (loadIter L m s))
        as [[C1 [C2 C3]]|[[C1 [C2 [C3 C4]]]|[C1 [C2 C3]]]];
        unfold MAX_SKIP, SLOW, FAST in *; [lia|lra|].
      assert (~ (skipInterval (loadIter L m s) < 2)%nat).
      { intros Hlt. apply C1. split; [lra|exact Hlt]. }
      lia.
  - intros Hfast. unfold FAST in Hfast. split; [|split].
    + intros n. apply (Hinv n).
    + intros n Havg. rewrite loadIter_S.
      destruct (loadUpdate_skip L (loadIter L n s))
        as [[C1 [C2 C3]]|[[C1 [C2 [C3 C4]]]|[C1 [C2 C3]]]];
        unfold MAX_SKIP, SLOW, FAST in *; [lra|lia|lia].
    + destruct (loadIter_avg_converges L s (3 - L)) as [N HN]; [lra|].
      exists (S N). intros n Hn. destruct n as [|m]; [lia|].
      specialize (HN (S m)). apply Qabs_lt_inv in HN; [|lia].
      rewrite loadIter_avg in HN. rewrite loadIter_S.
      destruct (Hinv m) as [Hr _]. destruct (Hinv (S m)) as [Hr' _].
      rewrite loadIter_S in Hr'.
      destruct (loadUpdate_skip L (loadIter L m s))
        as [[C1 [C2 C3]]|[[C1 [C2 [C3 C4]]]|[C1 [C2 C3]]]];
        unfold MAX_SKIP, SLOW, FAST in *; [lra|lia|].
      assert (~ (1 < skipInterval (loadIter L m s))%nat).
      { intros Hlt. apply C2. split; [lra|exact Hlt]. }
      lia.
Qed.

Lemma load_controller_adapts_witness :
  reachable initialLoad /\ 0 <= 10 /\
  exists N, forall n, (N <= n)%nat -> skipInterval (loadIter 10 n initialLoad) = MAX_SKIP.
Proof.
  assert (H : 0 <= 10) by lra.
  split; [exact reach_init|]. split; [exact H|].
  refine (proj2 (proj1 (proj2 (proj2
            (load_controller_adapts initialLoad 10 reach_init H))) _)).
  unfold SLOW. lra.
Defined.

(** From the initial state (average 16, interval 1) the first fast
    measurement raises the interval to 2: under a constant latency below
    the lower threshold the interval is not monotonically decreasing. *)
Lemma fast_latency_first_raises_interval :
  ~ (forall (s : LoadStats) (L : Q) (n : nat),
       reachable s -> 0 <= L -> L < FAST ->
       (skipInterval (loadIter L (S n) s) <= skipInterval (loadIter L n s))%nat).
Proof.
  intros H.
  specialize (H initialLoad 1 0%nat reach_init).
  assert (H1 : 0 <= 1) by lra. assert (H2 : 1 < FAST) by (unfold FAST; lra).
  specialize (H H1 H2). vm_compute in H. lia.
Qed.

(** The interval under a constant latency of 1 ms from the initial state:
    2 after the first measurement, still 2 after 19, back to 1 after 20. *)
Example fast_latency_trajectory :
  skipInterval initialLoad = 1%nat /\
  skipInterval (loadIter 1 1 initialLoad) = 2%nat /\
  skipInterval (loadIter 1 19 initialLoad) = 2%nat /\
  skipInterval (loadIter 1 20 initialLoad) = 1%nat.
Proof. vm_compute. repeat split. Qed.

End LoadFacts.

(** ** Fragment shader *)

Module ShaderFacts.

Import Shader.

Lemma clamp_range (x : Q) : 0 <= clamp x 0.0 1.0 <= 1.
Proof.
  unfold clamp.
  destruct (Q.min_spec (Qmax x 0.0) 1.0) as [[L E]|[L E]]; rewrite E; [|lra].
  destruct (Q.max_spec x 0.0) as [[L' E']|[L' E']]; rewrite E' in *; lra.
Qed.

Lemma step_cases (edge x : Q) :
  (x < edge /\ step edge x = 0.0) \/ (edge <= x /\ step edge x = 1.0).
Proof.
  unfold step. destruct (Qltb x edge) eqn:E.
  - left. apply Qltb_lt in E. auto.
  - right. apply Qltb_ge in E. auto.
Qed.

(** The snap is a mix: it leaves [1 - w] of the distance to the target. *)
Lemma edgeSnap_distance (m videoEdge uncertainty : Q) :
  edgeSnap m videoEdge uncertainty - step 0.5 m
  == (1 - videoEdge * uncertainty * 0.85) * (m - step 0.5 m).
Proof. unfold edgeSnap, mix. ring. Qed.

Lemma snap_weight_bound (videoEdge uncertainty : Q) :
  0 <= videoEdge <= 1 -> uncertainty <= 1 ->
  videoEdge * uncertainty * 0.85 <= 0.85.
Proof. intros Hv Hu. nra. Qed.

(** In mode 0 the shader returns the video sample, whatever is bound to
    the other samplers. *)
Lemma fragMain_passthrough glsl_exp glsl_sqrt u_video u_mask u_rawMask u_bg
    u_texelSize u_maskTexelSize (v_uv : vec2) :
  fragMain glsl_exp glsl_sqrt u_video u_mask u_rawMask u_bg 0
           u_texelSize u_maskTexelSize v_uv
  = u_video v_uv.
Proof. reflexivity. Qed.

(** At the strongest edge ([videoEdge = 1]) and the highest uncertainty
    ([uncertainty = 1], where the mixed value is the raw value 0.5) the
    value before the feather is 0.925: it is not snapped to 0 or to 1. *)
Lemma edge_snap_leaves_soft_value :
  edgeSnap 0.5 1 1 == 0.925 /\
  ~ (edgeSnap 0.5 1 1 == 0 \/ edgeSnap 0.5 1 1 == 1).
Proof.
  assert (E : edgeSnap 0.5 1 1 == 0.925) by reflexivity.
  split; [exact E|]. rewrite E. intros [H|H]; lra.
Qed.

Lemma videoEdge_range glsl_sqrt u_video u_texelSize (v_uv : vec2) :
  0 <= videoEdge glsl_sqrt u_video u_texelSize v_uv <= 1.
Proof.
  destruct v_uv as [x y]. unfold videoEdge. apply clamp_range.
Qed.

Lemma shaderUncertainty_le_1 glsl_exp u_video u_mask u_rawMask u_maskTexelSize
    (v_uv : vec2) :
  shaderUncertainty glsl_exp u_video u_mask u_rawMask u_maskTexelSize v_uv <= 1.
Proof.
  unfold shaderUncertainty.
  set (r := fst _). pose proof (Qabs_nonneg (r * 2.0 - 1.0)). lra.
Qed.

Lemma fragMain_composite glsl_exp glsl_sqrt u_video u_mask u_rawMask u_bg
    (u_mode : Z) u_texelSize u_maskTexelSize (v_uv : vec2) :
  u_mode <> 0%Z ->
  fragMain glsl_exp glsl_sqrt u_video u_mask u_rawMask u_bg u_mode
           u_texelSize u_maskTexelSize v_uv
  = mix4 (u_bg v_uv) (u_video v_uv)
      (smoothstep 0.33 0.67
         (maskBeforeFeather glsl_exp glsl_sqrt u_video u_mask u_rawMask
            u_texelSize u_maskTexelSize v_uv)).
Proof.
  intros Hmode. unfold fragMain.
  destruct (Z.eqb_spec u_mode 0); [contradiction|reflexivity].
Qed.

(** What the snap does to a value [m], for a weight [w] of at most 0.85. *)
Lemma edgeSnap_partial (m edge unc : Q) :
  0 <= edge <= 1 -> unc <= 1 ->
  let w := edge * unc * 0.85 in
  edgeSnap m edge unc == m * (1 - w) + step 0.5 m * w /\
  w <= 0.85 /\
  Qabs (edgeSnap m edge unc - step 0.5 m) >= 0.15 * Qabs (m - step 0.5 m) /\
  (edgeSnap m edge unc == step 0.5 m <-> m == step 0.5 m).
Proof.
  intros Hedge Hunc w.
  assert (Hw : w <= 0.85) by (apply snap_weight_bound; assumption).
  pose proof (edgeSnap_distance m edge unc) as Hd. fold w in Hd.
  split; [unfold edgeSnap, mix; fold w; ring|].
  split; [exact Hw|]. split.
  - rewrite Hd, Qabs_Qmult, (Qabs_pos (1 - w)) by lra.
    pose proof (Qabs_nonneg (m - step 0.5 m)). nra.
  - split; intros H.
    + assert (E : (1 - w) * (m - step 0.5 m) == 0) by (rewrite <- Hd; lra).
      apply Qmult_integral in E. destruct E as [E|E]; lra.
    + assert (E : m - step 0.5 m == 0) by lra.
      rewrite E in Hd. lra.
Qed.

(** The highest uncertainty arises in the shader where the raw mask reads
    0.5 around the pixel: the mixed value is then 0.5 and the value before
    the feather is [0.5 + 0.425 * videoEdge], at most 0.925 however strong
    the gradient is. *)
Section UncertainPixel.

Variable glsl_exp : Q -> Q.
Variable glsl_sqrt : Q -> Q.
Variable u_video : sampler2D.
Variable u_mask : vec2 -> Q.
Variable u_rawMask : vec2 -> Q.
Variable u_texelSize : vec2.
Variable u_maskTexelSize : vec2.
Variable v_uv : vec2.

Hypothesis exp_pos : forall x, 0 < glsl_exp x.
Hypothesis raw_half : forall p, u_rawMask p == 0.5.

Local Abbreviation tap :=
  (bilateralTap glsl_exp u_video u_mask u_rawMask u_maskTexelSize v_uv).

Lemma tap_half (lumC : Q) (dy dx : Z) (acc : Acc) :
  mRaw acc == 0.5 * totalW acc ->
  mRaw (tap lumC dy dx acc) == 0.5 * totalW (tap lumC dy dx acc) /\
  totalW acc < totalW (tap lumC dy dx acc).
Proof.
  intros H. unfold tap, bilateralTap. cbn [mRaw totalW].
  set (w1 := glsl_exp _). set (w2 := glsl_exp _).
  assert (0 < w1) by apply exp_pos. assert (0 < w2) by apply exp_pos.
  rewrite raw_half, H. split; [ring|nra].
Qed.

Lemma row_half (lumC : Q) (dy : Z) (dxs : list Z) :
  forall acc,
    mRaw acc == 0.5 * totalW acc ->
    let acc' := fold_left (fun acc dx => tap lumC dy dx acc) dxs acc in
    mRaw acc' == 0.5 * totalW acc' /\ totalW acc <= totalW acc'.
Proof.
  induction dxs as [|dx dxs IH]; intros acc H; cbn [fold_left].
  - split; [exact H|lra].
  - destruct (tap_half lumC dy dx acc H) as [H1 H2].
    destruct (IH _ H1) as [H3 H4]. split; [exact H3|lra].
Qed.

Lemma upsample_half :
  fst (upsample glsl_exp u_video u_mask u_rawMask u_maskTexelSize v_uv) == 0.5.
Proof.
  unfold upsample. cbn [fst]. fold tap.
  set (lumC := lumaOf (u_video v_uv)).
  cbn [fold_left].
  set (a0 := mkAcc 0.0 0.0 0.0).
  assert (H0 : mRaw a0 == 0.5 * totalW a0) by reflexivity.
  destruct (tap_half lumC (-1) (-1) a0 H0) as [H1 L1].
  set (a1 := tap lumC (-1)%Z (-1)%Z a0) in *.
  destruct (row_half lumC (-1) [0; 1]%Z a1 H1) as [H2 L2].
  cbn [fold_left] in H2, L2.
  set (a2 := tap lumC (-1)%Z 1%Z _) in *.
  destruct (row_half lumC 0 [-1; 0; 1]%Z a2 H2) as [H3 L3].
  cbn [fold_left] in H3, L3.
  set (a3 := tap lumC 0%Z 1%Z _) in *.
  destruct (row_half lumC 1 [-1; 0; 1]%Z a3 H3) as [H4 L4].
  cbn [fold_left] in H4, L4.
  set (a4 := tap lumC 1%Z 1%Z _) in *.
  assert (Hpos : 0 < totalW a4).
  { change (totalW a0) with 0.0 in L1. lra. }
  rewrite H4. field. lra.
Qed.

Lemma uncertain_pixel_stays_soft :
  shaderUncertainty glsl_exp u_video u_mask u_rawMask u_maskTexelSize v_uv == 1 /\
  boundaryMix glsl_exp u_video u_mask u_rawMask u_maskTexelSize v_uv == 0.5 /\
  maskBeforeFeather glsl_exp glsl_sqrt u_video u_mask u_rawMask
      u_texelSize u_maskTexelSize v_uv
  == 0.5 + 0.425 * videoEdge glsl_sqrt u_video u_texelSize v_uv /\
  0.5 <= maskBeforeFeather glsl_exp glsl_sqrt u_video u_mask u_rawMask
      u_texelSize u_maskTexelSize v_uv <= 0.925.
Proof.
  pose proof upsample_half as Hup.
  assert (Hu : shaderUncertainty glsl_exp u_video u_mask u_rawMask
                 u_maskTexelSize v_uv == 1).
  { unfold shaderUncertainty. set (r := fst _) in *.
    assert (E : r * 2.0 - 1.0 == 0) by lra.
    rewrite E. reflexivity. }
  assert (Hm : boundaryMix glsl_exp u_video u_mask u_rawMask
                 u_maskTexelSize v_uv == 0.5).
  { unfold boundaryMix.
    set (un := shaderUncertainty _ _ _ _ _ _) in *.
    destruct (upsample _ _ _ _ _ _) as [mR mB]. cbn [fst] in Hup.
    assert (Hc : clamp (un * 2.0) 0.0 1.0 == 1).
    { unfold clamp.
      destruct (Q.max_spec (un * 2.0) 0.0) as [[L E]|[L E]]; [lra|].
      destruct (Q.min_spec (Qmax (un * 2.0) 0.0) 1.0) as [[L' E']|[L' E']];
        rewrite E'; lra. }
    unfold mix. rewrite Hc. lra. }
  pose proof (videoEdge_range glsl_sqrt u_video u_texelSize v_uv) as He.
  assert (Hs : maskBeforeFeather glsl_exp glsl_sqrt u_video u_mask u_rawMask
                 u_texelSize u_maskTexelSize v_uv
               == 0.5 + 0.425 * videoEdge glsl_sqrt u_video u_texelSize v_uv).
  { unfold maskBeforeFeather.
    set (m := boundaryMix _ _ _ _ _ _) in *.
    set (un := shaderUncertainty _ _ _ _ _ _) in *.
    set (e := videoEdge _ _ _ _) in *.
    unfold edgeSnap, mix.
    destruct (step_cases 0.5 m) as [[L E]|[L E]]; rewrite E; [lra|].
    rewrite Hm, Hu. ring. }
  split; [exact Hu|]. split; [exact Hm|]. split; [exact Hs|].
  rewrite Hs. lra.
Qed.

End UncertainPixel.

(** C8, as amended.  In Composite mode ([u_mode <> 0]) the output is
    [mix(bg, vid, smoothstep(0.33, 0.67, m'))] where the value [m'] before
    the feather is the mixed mask value [m] moved towards [step(0.5, m)]
    (1 for [m >= 0.5], else 0) by the fraction
    [w = videoEdge * uncertainty * 0.85].  The gradient term [videoEdge]
    is in [[0, 1]] and the uncertainty at most 1, so [w <= 0.85]: [m']
    keeps at least 15 % of the distance of [m] to the target and is 0 or
    1 through the snap only if [m] already was. *)
Theorem edge_snap_is_partial glsl_exp glsl_sqrt u_video u_mask u_rawMask u_bg
    (u_mode : Z) u_texelSize u_maskTexelSize (v_uv : vec2) :
  u_mode <> 0%Z ->
  let m := boundaryMix glsl_exp u_video u_mask u_rawMask u_maskTexelSize v_uv in
  let edge := videoEdge glsl_sqrt u_video u_texelSize v_uv in
  let unc := shaderUncertainty glsl_exp u_video u_mask u_rawMask u_maskTexelSize v_uv in
  let w := edge * unc * 0.85 in
  let m' := maskBeforeFeather glsl_exp glsl_sqrt u_video u_mask u_rawMask
              u_texelSize u_maskTexelSize v_uv in
  fragMain glsl_exp glsl_sqrt u_video u_mask u_rawMask u_bg u_mode
           u_texelSize u_maskTexelSize v_uv
  = mix4 (u_bg v_uv) (u_video v_uv) (smoothstep 0.33 0.67 m') /\
  m' == m * (1 - w) + step 0.5 m * w /\
  ((0.5 <= m /\ step 0.5 m = 1.0) \/ (m < 0.5 /\ step 0.5 m = 0.0)) /\
  0 <= edge <= 1 /\ unc <= 1 /\ w <= 0.85 /\
  Qabs (m' - step 0.5 m) >= 0.15 * Qabs (m - step 0.5 m) /\
  (m' == step 0.5 m <-> m == step 0.5 m).
Proof.
  intros Hmode m edge unc w m'.
  pose proof (videoEdge_range glsl_sqrt u_video u_texelSize v_uv) as Hedge.
  pose proof (shaderUncertainty_le_1 glsl_exp u_video u_mask u_rawMask
                u_maskTexelSize v_uv) as Hunc.
  destruct (edgeSnap_partial m edge unc Hedge Hunc) as [H1 [H2 [H3 H4]]].
  split; [apply fragMain_composite, Hmode|].
  split; [exact H1|].
  split; [destruct (step_cases 0.5 m) as [[L E]|[L E]]; auto|].
  split; [exact Hedge|]. split; [exact Hunc|]. split; [exact H2|].
  split; [exact H3|exact H4].
Qed.

Lemma edge_snap_is_partial_witness :
  (1 <> 0)%Z /\
  fragMain Samples.constOne Samples.constOne Samples.redFrame
    Samples.halfMask Samples.halfMask Pump.darkFallback 1
    (1 / 640, 1 / 480) (1 / 256, 1 / 144) (0.5, 0.5)
  = mix4 (Pump.darkFallback (0.5, 0.5)) (Samples.redFrame (0.5, 0.5))
      (smoothstep 0.33 0.67
         (maskBeforeFeather Samples.constOne Samples.constOne Samples.redFrame
            Samples.halfMask Samples.halfMask
            (1 / 640, 1 / 480) (1 / 256, 1 / 144) (0.5, 0.5))).
Proof.
  assert (H : (1 <> 0)%Z) by lia.
  split; [exact H|].
  exact (proj1 (edge_snap_is_partial Samples.constOne Samples.constOne
                  Samples.redFrame Samples.halfMask Samples.halfMask
                  Pump.darkFallback 1 (1 / 640, 1 / 480) (1 / 256, 1 / 144)
                  (0.5, 0.5) H)).
Defined.

End ShaderFacts.

(** ** Frame pump *)

Module PumpFacts.

Import Blender LoadController Shader Pump.

Local Opaque loadUpdate blendUpdate.

Lemma dimsDiffer_false (a b : nat * nat) : dimsDiffer a b = false <-> a = b.
Proof.
  destruct a as [a1 a2], b as [b1 b2]. unfold dimsDiffer. cbn [fst snd].
  destruct (Nat.eqb_spec a1 b1), (Nat.eqb_spec a2 b2); cbn;
    split; intros H; try discriminate; try congruence.
Qed.

Lemma dimsDiffer_true (a b : nat * nat) : dimsDiffer a b = true <-> a <> b.
Proof.
  rewrite <- dimsDiffer_false. destruct (dimsDiffer a b); split; congruence.
Qed.

(** *** What each block of [draw] touches *)

Lemma uploadVideo_state (v : Video) (s : State) :
  let s1 := fst (uploadVideo v s) in
  videoTexels s1 = picture v /\ lastDims s1 = frameDims v /\
  maskState s1 = maskState s /\ load s1 = load s /\
  frameCount s1 = frameCount s /\ bgTex s1 = bgTex s /\
  lastBgKey s1 = lastBgKey s /\ maskAlloc s1 = maskAlloc s.
Proof.
  unfold uploadVideo. destruct (frameDims v) as [w h] eqn:Ed.
  destruct (dimsDiffer (lastDims s) (w, h)) eqn:E; cbn.
  - repeat split; reflexivity.
  - apply dimsDiffer_false in E. repeat split; try reflexivity. exact E.
Qed.

Lemma uploadVideo_events (v : Video) (s : State) :
  snd (uploadVideo v s)
  = if dimsDiffer (lastDims s) (frameDims v)
    then [TexImage2D TEXTURE0 (fst (frameDims v)) (snd (frameDims v));
          TexSubImage2D TEXTURE0]
    else [TexSubImage2D TEXTURE0].
Proof.
  unfold uploadVideo. destruct (frameDims v) as [w h].
  destruct (dimsDiffer (lastDims s) (w, h)); reflexivity.
Qed.

Lemma segmentStep_state (t : Tick) (s : State) :
  let s3 := fst (segmentStep t s) in
  videoTexels s3 = videoTexels s /\ lastDims s3 = lastDims s /\
  frameCount s3 = frameCount s /\ bgTex s3 = bgTex s /\
  lastBgKey s3 = lastBgKey s /\
  load s3 = loadUpdate (segTime t) (load s) /\
  match obtainedMask t with
  | Some mask =>
      maskState s3 = (Some (blendUpdate (blendMask s) mask), Some mask,
                      Some (blendUpdate (blendMask s) mask), true)
  | None => maskState s3 = maskState s
  end.
Proof.
  unfold segmentStep. destruct (obtainedMask t) as [mask|].
  - destruct (dimsDiffer (maskAlloc s) (SEG_WIDTH, SEG_HEIGHT)); cbn;
      repeat split; reflexivity.
  - cbn. repeat split; reflexivity.
Qed.

Lemma segmentStep_events (t : Tick) (s : State) :
  exists ev, snd (segmentStep t s) = Segment :: ev /\
    Forall (fun e => e = TexImage2D TEXTURE3 SEG_WIDTH SEG_HEIGHT \/
                     e = TexImage2D TEXTURE1 SEG_WIDTH SEG_HEIGHT \/
                     e = TexSubImage2D TEXTURE3 \/ e = TexSubImage2D TEXTURE1) ev.
Proof.
  unfold segmentStep. destruct (obtainedMask t) as [mask|].
  - destruct (dimsDiffer (maskAlloc s) (SEG_WIDTH, SEG_HEIGHT)); cbn;
      eexists; (split; [reflexivity|]);
      repeat first [apply Forall_nil_2 | apply Forall_cons_2; [auto 6|]].
  - cbn. eexists. split; [reflexivity|constructor].
Qed.

Lemma uploadBackground_state (t : Tick) (s : State) :
  let s4 := fst (uploadBackground t s) in
  videoTexels s4 = videoTexels s /\ lastDims s4 = lastDims s /\
  maskState s4 = maskState s /\ load s4 = load s /\
  frameCount s4 = frameCount s.
Proof.
  unfold uploadBackground.
  destruct (findBackground (selectedBg t)) as [[id ty]|]; [|cbn; auto 10].
  destruct (String.eqb ty "blur"); [cbn; auto 10|].
  destruct (String.eqb ty "image").
  { destruct (bgImages t !! id); [|cbn; auto 10].
    destruct (bool_decide _); cbn; auto 10. }
  destruct (String.eqb ty "upload"); [|cbn; auto 10].
  destruct (uploadedImage t); [|cbn; auto 10].
  destruct (bool_decide _); cbn; auto 10.
Qed.

Lemma uploadBackground_events (t : Tick) (s : State) :
  Forall (fun e => e = TexImage2DFrom TEXTURE2) (snd (uploadBackground t s)).
Proof.
  unfold uploadBackground.
  destruct (findBackground (selectedBg t)) as [[id ty]|]; [|constructor].
  destruct (String.eqb ty "blur"); [repeat constructor|].
  destruct (String.eqb ty "image").
  { destruct (bgImages t !! id); [|constructor].
    destruct (bool_decide _); repeat constructor. }
  destruct (String.eqb ty "upload"); [|constructor].
  destruct (uploadedImage t); [|constructor].
  destruct (bool_decide _); repeat constructor.
Qed.

(** *** [draw], branch by branch *)

Lemma draw_idle (t : Tick) (s : State) :
  liveVideo t = None -> draw t s = (s, [RequestAnimationFrame]).
Proof. intros H. unfold draw. by rewrite H. Qed.

Lemma draw_bypass (t : Tick) (s : State) (v : Video) :
  liveVideo t = Some v -> bypass t = true ->
  draw t s = (set_mode 0 (fst (uploadVideo v s)),
              snd (uploadVideo v s) ++ [DrawArrays 0; RequestAnimationFrame]).
Proof.
  intros Hv Hb. unfold draw. rewrite Hv, Hb.
  destruct (uploadVideo v s) as [s1 ev1]. reflexivity.
Qed.

Lemma draw_active (t : Tick) (s : State) (v : Video) :
  liveVideo t = Some v -> bypass t = false ->
  let s3 := fst (segmentStage t v s) in
  let ev3 := snd (segmentStage t v s) in
  draw t s =
  if hasMask s3
  then (set_mode 1 (fst (uploadBackground t s3)),
        ev3 ++ snd (uploadBackground t s3) ++ [DrawArrays 1; RequestAnimationFrame])
  else (set_mode 0 s3, ev3 ++ [DrawArrays 0; RequestAnimationFrame]).
Proof.
  intros Hv Hb. unfold draw, segmentStage. rewrite Hv, Hb.
  destruct (uploadVideo v s) as [s1 ev1].
  destruct (if shouldSegment _ then _ else _) as [s3 ev3]. cbn [fst snd].
  destruct (hasMask s3); cbn [negb].
  - destruct (uploadBackground t s3) as [s4 ev4]. cbn [present fst snd].
    by rewrite <- !app_assoc.
  - cbn [present]. by rewrite <- !app_assoc.
Qed.

(** The state after the first half of an active tick. *)
Lemma segmentStage_state (t : Tick) (v : Video) (s : State) :
  let s3 := fst (segmentStage t v s) in
  let segments :=
    shouldSegment (set_frameCount (S (frameCount s)) (fst (uploadVideo v s))) in
  videoTexels s3 = picture v /\ lastDims s3 = frameDims v /\
  frameCount s3 = S (frameCount s) /\
  (segments = true ->
     load s3 = loadUpdate (segTime t) (load s) /\
     match obtainedMask t with
     | Some mask =>
         maskState s3 = (Some (blendUpdate (blendMask s) mask), Some mask,
                         Some (blendUpdate (blendMask s) mask), true)
     | None => maskState s3 = maskState s
     end) /\
  (segments = false -> load s3 = load s /\ maskState s3 = maskState s).
Proof.
  unfold segmentStage.
  pose proof (uploadVideo_state v s) as Hu. cbn zeta in Hu.
  destruct (uploadVideo v s) as [s1 ev1]. cbn [fst snd] in *.
  destruct Hu as (Hu1 & Hu2 & Hu3 & Hu4 & Hu5 & _). rewrite <- Hu5.
  set (s2 := set_frameCount (S (frameCount s1)) s1).
  assert (Hm2 : maskState s2 = maskState s) by exact Hu3.
  assert (Hb2 : blendMask s2 = blendMask s).
  { unfold maskState in Hu3. change (blendMask s2) with (blendMask s1). congruence. }
  destruct (shouldSegment s2) eqn:Eseg.
  - pose proof (segmentStep_state t s2) as Hs. cbn zeta in Hs.
    destruct (segmentStep t s2) as [s3 ev3]. cbn [fst snd] in *.
    destruct Hs as (Hs1 & Hs2 & Hs3 & _ & _ & Hs6 & Hs7).
    rewrite Hs1, Hs2, Hs3, Hs6.
    split; [exact Hu1|]. split; [exact Hu2|]. split; [reflexivity|].
    split; [|discriminate].
    intros _. split; [cbn; by rewrite Hu4|].
    destruct (obtainedMask t); rewrite Hs7; [by rewrite Hb2|exact Hm2].
  - cbn [fst snd].
    split; [exact Hu1|]. split; [exact Hu2|]. split; [reflexivity|].
    split; [discriminate|]. intros _. split; [exact Hu4|exact Hm2].
Qed.

Lemma segmentStage_events (t : Tick) (v : Video) (s : State) :
  let segments :=
    shouldSegment (set_frameCount (S (frameCount s)) (fst (uploadVideo v s))) in
  exists ev,
    snd (segmentStage t v s)
    = snd (uploadVideo v s) ++ (if segments then Segment :: ev else []) /\
    Forall (fun e => e = TexImage2D TEXTURE3 SEG_WIDTH SEG_HEIGHT \/
                     e = TexImage2D TEXTURE1 SEG_WIDTH SEG_HEIGHT \/
                     e = TexSubImage2D TEXTURE3 \/ e = TexSubImage2D TEXTURE1) ev.
Proof.
  unfold segmentStage.
  pose proof (uploadVideo_state v s) as Hu. cbn zeta in Hu.
  destruct (uploadVideo v s) as [s1 ev1]. cbn [fst snd] in *.
  destruct Hu as (_ & _ & _ & _ & Hu5 & _). rewrite <- Hu5.
  set (s2 := set_frameCount (S (frameCount s1)) s1).
  destruct (shouldSegment s2) eqn:Eseg.
  - destruct (segmentStep_events t s2) as [ev [E HF]].
    destruct (segmentStep t s2) as [s3 ev3]. cbn [fst snd] in *. subst ev3.
    exists ev. split; [reflexivity|exact HF].
  - exists []. split; [reflexivity|constructor].
Qed.

(** *** Events of a tick *)

Lemma uploadVideo_textures (v : Video) (s : State) :
  Forall isTexture (snd (uploadVideo v s)).
Proof.
  rewrite uploadVideo_events.
  destruct (dimsDiffer _ _); repeat (apply Forall_cons_2; [exact I|]); constructor.
Qed.

Lemma uploadBackground_textures (t : Tick) (s : State) :
  Forall isTexture (snd (uploadBackground t s)).
Proof.
  eapply Forall_impl; [apply uploadBackground_events|].
  intros e ->. exact I.
Qed.

Lemma maskUploads_textures (ev : list Event) :
  Forall (fun e => e = TexImage2D TEXTURE3 SEG_WIDTH SEG_HEIGHT \/
                   e = TexImage2D TEXTURE1 SEG_WIDTH SEG_HEIGHT \/
                   e = TexSubImage2D TEXTURE3 \/ e = TexSubImage2D TEXTURE1) ev ->
  Forall isTexture ev.
Proof.
  intros H. eapply Forall_impl; [exact H|].
  intros e [-> | [-> | [-> | ->]]]; exact I.
Qed.

Lemma textures_no_segment (ev : list Event) :
  Forall isTexture ev -> ~ In Segment ev.
Proof.
  intros H Hin. rewrite List.Forall_forall in H. exact (H _ Hin).
Qed.

Lemma textures_no_draw (ev : list Event) (m : Z) (rest : list Event) :
  Forall isTexture ev -> drawnMode (ev ++ DrawArrays m :: rest) = Some m.
Proof.
  unfold drawnMode. induction 1 as [|e ev He _ IH]; [reflexivity|].
  destruct e; try contradiction; exact IH.
Qed.

Lemma segment_no_draw (ev1 ev2 : list Event) (m : Z) (rest : list Event) :
  Forall isTexture ev1 -> Forall isTexture ev2 ->
  drawnMode (ev1 ++ (Segment :: ev2) ++ DrawArrays m :: rest) = Some m.
Proof.
  intros H1 H2. unfold drawnMode.
  induction H1 as [|e ev He _ IH].
  - cbn [app List.find]. apply (textures_no_draw ev2 m rest H2).
  - destruct e; try contradiction; exact IH.
Qed.

(** The events of the first half of an active tick, and where the draw
    call of the second half is found behind them. *)
Lemma segmentStage_no_draw (t : Tick) (v : Video) (s : State)
    (ev4 : list Event) (m : Z) (rest : list Event) :
  Forall isTexture ev4 ->
  drawnMode (snd (segmentStage t v s) ++ ev4 ++ DrawArrays m :: rest) = Some m.
Proof.
  intros H4.
  destruct (segmentStage_events t v s) as [ev [E HF]]. cbn zeta in E. rewrite E.
  apply maskUploads_textures in HF.
  pose proof (uploadVideo_textures v s) as H1.
  destruct (shouldSegment _).
  - replace ((snd (uploadVideo v s) ++ Segment :: ev) ++ ev4 ++ DrawArrays m :: rest)
      with (snd (uploadVideo v s) ++ (Segment :: (ev ++ ev4)) ++ DrawArrays m :: rest)
      by (repeat (rewrite <- app_assoc || rewrite <- app_comm_cons); reflexivity).
    apply segment_no_draw; [exact H1|]. apply Forall_app. split; assumption.
  - rewrite app_nil_r, app_assoc. apply textures_no_draw.
    apply Forall_app. split; assumption.
Qed.

Lemma segmentStage_segments (t : Tick) (v : Video) (s : State) :
  In Segment (snd (segmentStage t v s)) <->
  shouldSegment (set_frameCount (S (frameCount s)) (fst (uploadVideo v s))) = true.
Proof.
  destruct (segmentStage_events t v s) as [ev [E HF]]. cbn zeta in E. rewrite E.
  pose proof (textures_no_segment _ (uploadVideo_textures v s)) as H1.
  rewrite in_app_iff. destruct (shouldSegment _).
  - split; [reflexivity|]. intros _. right. left. reflexivity.
  - split; [|discriminate]. intros [H|H]; [contradiction|destruct H].
Qed.

(** *** Invariants of a session *)

Lemma hasMask_maskState (s s' : State) :
  maskState s' = maskState s ->
  hasMask s' = hasMask s /\ blendMask s' = blendMask s /\
  maskTex s' = maskTex s /\ rawMaskTex s' = rawMaskTex s.
Proof. unfold maskState. intros H. injection H as -> -> -> ->. auto. Qed.

Lemma uploadBackground_hasMask (t : Tick) (s : State) :
  hasMask (fst (uploadBackground t s)) = hasMask s.
Proof.
  pose proof (uploadBackground_state t s) as H. cbn zeta in H.
  destruct H as (_ & _ & H & _). apply hasMask_maskState in H. tauto.
Qed.

Lemma last_two (l : list Event) (a b : Event) : last (l ++ [a; b]) = Some b.
Proof.
  change [a; b] with ([a] ++ [b]). rewrite app_assoc. apply last_snoc.
Qed.

(** Every tick ends with the request for the next frame. *)
Lemma draw_reschedules (t : Tick) (s : State) :
  last (snd (draw t s)) = Some RequestAnimationFrame.
Proof.
  destruct (liveVideo t) as [v|] eqn:Hv; [|by rewrite draw_idle].
  destruct (bypass t) eqn:Hb.
  - rewrite (draw_bypass t s v Hv Hb). apply last_two.
  - rewrite (draw_active t s v Hv Hb). destruct (hasMask _); cbn [snd].
    + rewrite app_assoc. apply last_two.
    + apply last_two.
Qed.

Lemma draw_inv (t : Tick) (s : State) : pumpInv s -> pumpInv (fst (draw t s)).
Proof.
  intros (HL & HM & HT).
  destruct (liveVideo t) as [v|] eqn:Hv; [|rewrite draw_idle by exact Hv; by split].
  destruct (bypass t) eqn:Hb.
  - rewrite (draw_bypass t s v Hv Hb). cbn [fst]. unfold pumpInv.
    cbn [load hasMask blendMask maskTex set_mode].
    pose proof (uploadVideo_state v s) as Hu. cbn zeta in Hu.
    destruct Hu as (_ & _ & Hu3 & Hu4 & _).
    apply hasMask_maskState in Hu3. destruct Hu3 as (-> & -> & -> & _).
    rewrite Hu4. by split.
  - rewrite (draw_active t s v Hv Hb).
    pose proof (segmentStage_state t v s) as Hs. cbn zeta in Hs.
    destruct Hs as (_ & _ & _ & Hyes & Hno).
    set (s3 := fst (segmentStage t v s)) in *.
    assert (H3 : pumpInv s3).
    { destruct (shouldSegment _).
      - destruct (Hyes eq_refl) as [Hl Hm]. unfold pumpInv. rewrite Hl.
        split; [apply LoadFacts.loadInv_step, HL|].
        destruct (obtainedMask t) as [mask|].
        + unfold maskState in Hm. injection Hm as -> _ -> ->.
          split; [split; discriminate|reflexivity].
        + apply hasMask_maskState in Hm. destruct Hm as (-> & -> & -> & _).
          by split.
      - destruct (Hno eq_refl) as [Hl Hm]. unfold pumpInv. rewrite Hl.
        apply hasMask_maskState in Hm. destruct Hm as (-> & -> & -> & _).
        by split. }
    destruct (hasMask s3) eqn:Hh; cbn [fst]; [|exact H3].
    pose proof (uploadBackground_state t s3) as Hb4. cbn zeta in Hb4.
    destruct Hb4 as (_ & _ & Hm & Hl & _).
    apply hasMask_maskState in Hm. destruct Hm as (Hm1 & Hm2 & Hm3 & _).
    destruct H3 as (H31 & H32 & H33). unfold pumpInv.
    cbn [load hasMask blendMask maskTex set_mode].
    rewrite Hl, Hm1, Hm2, Hm3. by split.
Qed.

Lemma run_cons (t : Tick) (ts : list Tick) (s : State) :
  run (t :: ts) s
  = (fst (run ts (fst (draw t s))), snd (draw t s) ++ snd (run ts (fst (draw t s)))).
Proof.
  cbn [run]. destruct (draw t s) as [s1 ev1]. cbn [fst snd].
  destruct (run ts s1) as [s2 ev2]. reflexivity.
Qed.

Lemma stateAfter_cons (t : Tick) (ts : list Tick) (s : State) :
  stateAfter (t :: ts) s = stateAfter ts (fst (draw t s)).
Proof. unfold stateAfter. by rewrite run_cons. Qed.

Lemma stateAfter_inv (ts : list Tick) (s : State) :
  pumpInv s -> pumpInv (stateAfter ts s).
Proof.
  revert s. induction ts as [|t ts IH]; intros s H; [exact H|].
  rewrite stateAfter_cons. apply IH, draw_inv, H.
Qed.

Lemma initialState_inv : pumpInv initialState.
Proof.
  unfold pumpInv, initialState. cbn. split; [|by split].
  apply LoadFacts.reachable_inv, reach_init.
Qed.

(** *** Passthrough *)

Lemma bypass_false (t : Tick) :
  bypass t = false <->
  selectedBg t <> "none"%string /\ segmenterReady t = true /\ segmenterPresent t = true.
Proof.
  unfold bypass. rewrite !orb_false_iff, !negb_false_iff, String.eqb_neq. tauto.
Qed.

Lemma canvas_passthrough glsl_exp glsl_sqrt maskSampler (s : State) (uv : vec2) :
  u_mode s = 0%Z -> canvas glsl_exp glsl_sqrt maskSampler s uv = videoTexels s uv.
Proof. intros H. unfold canvas. rewrite H. apply ShaderFacts.fragMain_passthrough. Qed.

(** C2.  A tick with a frame in which the background selection is "none",
    or the segmenter is not ready (or absent), or no mask has been
    acquired by the end of its segmentation step, draws in mode 0, and
    the canvas then shows the current video frame at every coordinate:
    for every way the GPU samples the mask textures and whatever is bound
    as background. *)
Theorem passthrough_shows_video glsl_exp glsl_sqrt maskSampler
    (t : Tick) (s : State) (v : Video) :
  liveVideo t = Some v ->
  (selectedBg t = "none"%string \/ segmenterReady t = false \/
   segmenterPresent t = false \/ hasMask (fst (draw t s)) = false) ->
  drawnMode (snd (draw t s)) = Some 0%Z /\
  u_mode (fst (draw t s)) = 0%Z /\
  (forall uv, canvas glsl_exp glsl_sqrt maskSampler (fst (draw t s)) uv = picture v uv) /\
  (forall key img uv,
     canvas glsl_exp glsl_sqrt maskSampler (set_bg key img (fst (draw t s))) uv
     = picture v uv).
Proof.
  intros Hv Hcond.
  assert (Hgoal : drawnMode (snd (draw t s)) = Some 0%Z /\
                  u_mode (fst (draw t s)) = 0%Z /\
                  videoTexels (fst (draw t s)) = picture v).
  { destruct (bypass t) eqn:Hb.
    - rewrite (draw_bypass t s v Hv Hb). cbn [fst snd].
      split; [apply textures_no_draw, uploadVideo_textures|].
      split; [reflexivity|]. apply (uploadVideo_state v s).
    - assert (Hh : hasMask (fst (draw t s)) = false).
      { apply bypass_false in Hb. destruct Hb as (B1 & B2 & B3).
        destruct Hcond as [C|[C|[C|C]]]; [contradiction|congruence|congruence|exact C]. }
      rewrite (draw_active t s v Hv Hb) in *.
      destruct (hasMask (fst (segmentStage t v s))) eqn:H3; cbn [fst snd] in *.
      + cbn [hasMask set_mode] in Hh. rewrite uploadBackground_hasMask in Hh. congruence.
      + split; [apply (segmentStage_no_draw t v s [] 0 _ (Forall_nil_2 _))|].
        split; [reflexivity|]. apply (segmentStage_state t v s). }
  destruct Hgoal as (G1 & G2 & G3).
  split; [exact G1|]. split; [exact G2|]. split.
  - intros uv. rewrite canvas_passthrough by exact G2. by rewrite G3.
  - intros key img uv. rewrite canvas_passthrough by exact G2.
    cbn [videoTexels set_bg]. by rewrite G3.
Qed.

Lemma passthrough_shows_video_witness :
  liveVideo Samples.tickNone = Some Samples.camera /\
  selectedBg Samples.tickNone = "none"%string /\
  forall uv,
    canvas Samples.constOne Samples.constOne (fun _ => Samples.halfMask)
      (fst (draw Samples.tickNone Samples.afterMask)) uv
    = picture Samples.camera uv.
Proof.
  assert (H1 : liveVideo Samples.tickNone = Some Samples.camera) by reflexivity.
  assert (H2 : selectedBg Samples.tickNone = "none"%string) by reflexivity.
  split; [exact H1|]. split; [exact H2|].
  exact (proj1 (proj2 (proj2
    (passthrough_shows_video Samples.constOne Samples.constOne
       (fun _ => Samples.halfMask)
       Samples.tickNone Samples.afterMask Samples.camera H1 (or_introl H2))))).
Defined.

(** *** Skipping and failing segmentation *)

Lemma shouldSegment_mod (s : State) :
  (1 <= skipInterval (load s))%nat ->
  shouldSegment s = true <-> (frameCount s mod skipInterval (load s) = 0)%nat.
Proof.
  intros H. unfold shouldSegment.
  destruct (Nat.eqb_spec (skipInterval (load s)) 0); [lia|]. apply Nat.eqb_eq.
Qed.

(** The second half of an active tick changes neither counter nor masks
    and draws in the mode the has-mask flag asks for. *)
Lemma draw_active_state (t : Tick) (s : State) (v : Video) :
  liveVideo t = Some v -> bypass t = false ->
  let s3 := fst (segmentStage t v s) in
  frameCount (fst (draw t s)) = frameCount s3 /\
  maskState (fst (draw t s)) = maskState s3 /\
  videoTexels (fst (draw t s)) = videoTexels s3 /\
  drawnMode (snd (draw t s)) = Some (if hasMask s3 then 1 else 0)%Z /\
  (In Segment (snd (draw t s)) <-> In Segment (snd (segmentStage t v s))).
Proof.
  intros Hv Hb s3. rewrite (draw_active t s v Hv Hb). fold s3.
  destruct (hasMask s3) eqn:H3; cbn [fst snd].
  - pose proof (uploadBackground_state t s3) as H4. cbn zeta in H4.
    destruct H4 as (H41 & _ & H43 & _ & H45).
    split; [exact H45|]. split; [exact H43|]. split; [exact H41|].
    split; [apply segmentStage_no_draw, uploadBackground_textures|].
    rewrite !in_app_iff. split; [|tauto].
    intros [H|[H|H]]; [exact H| |].
    + exfalso. exact (textures_no_segment _ (uploadBackground_textures t s3) H).
    + destruct H as [H|[H|[]]]; discriminate.
  - split; [reflexivity|]. split; [reflexivity|]. split; [reflexivity|].
    split; [apply (segmentStage_no_draw t v s [] 0 _ (Forall_nil_2 _))|].
    rewrite in_app_iff. split; [|tauto].
    intros [H|H]; [exact H|]. destruct H as [H|[H|[]]]; discriminate.
Qed.

(** C5.  In a session, on every tick with a frame, an active background
    and a ready segmenter, the counter is incremented and the segmenter
    is called if and only if the incremented counter is a multiple of the
    skip interval.  A tick that skips the call leaves the blended mask,
    both mask textures and the has-mask flag as they were, and composites
    with them (mode 1) whenever a mask has been acquired before. *)
Theorem segmentation_gate (ts : list Tick) (t : Tick) (v : Video) :
  let s := stateAfter ts initialState in
  liveVideo t = Some v ->
  bypass t = false ->
  frameCount (fst (draw t s)) = S (frameCount s) /\
  (In Segment (snd (draw t s)) <->
   (frameCount (fst (draw t s)) mod skipInterval (load s) = 0)%nat) /\
  (~ In Segment (snd (draw t s)) ->
     maskState (fst (draw t s)) = maskState s /\
     drawnMode (snd (draw t s)) = Some (if hasMask s then 1 else 0)%Z).
Proof.
  intros s Hv Hb.
  assert (Hskip : (1 <= skipInterval (load s))%nat).
  { apply (stateAfter_inv ts initialState initialState_inv). }
  destruct (draw_active_state t s v Hv Hb) as (D1 & D2 & _ & D4 & D5).
  pose proof (segmentStage_state t v s) as Hs. cbn zeta in Hs.
  destruct Hs as (_ & _ & Hs3 & _ & Hno).
  pose proof (segmentStage_segments t v s) as Hseg.
  pose proof (uploadVideo_state v s) as Hu. cbn zeta in Hu.
  destruct Hu as (_ & _ & _ & Hu4 & Hu5 & _).
  set (s2 := set_frameCount (S (frameCount s)) (fst (uploadVideo v s))) in *.
  assert (Hmod : shouldSegment s2 = true <->
                 (S (frameCount s) mod skipInterval (load s) = 0)%nat).
  { pose proof (shouldSegment_mod s2) as Hm.
    change (load s2) with (load (fst (uploadVideo v s))) in Hm.
    change (frameCount s2) with (S (frameCount s)) in Hm.
    rewrite Hu4 in Hm. apply Hm, Hskip. }
  rewrite D1, Hs3. split; [reflexivity|]. split.
  - rewrite D5, Hseg. exact Hmod.
  - intros Hnot. rewrite D5, Hseg in Hnot.
    destruct (shouldSegment s2); [contradiction|].
    destruct (Hno eq_refl) as [_ Hm]. rewrite D2, D4.
    apply hasMask_maskState in Hm as Hm'. destruct Hm' as (-> & _).
    split; [exact Hm|reflexivity].
Qed.

Lemma segmentation_gate_witness :
  liveVideo Samples.tickThrows = Some Samples.camera /\
  bypass Samples.tickThrows = false /\
  (In Segment (snd (draw Samples.tickThrows
                      (stateAfter [Samples.tickMask; Samples.tickMask] initialState))) <->
   (frameCount (fst (draw Samples.tickThrows
                       (stateAfter [Samples.tickMask; Samples.tickMask] initialState)))
    mod skipInterval (load (stateAfter [Samples.tickMask; Samples.tickMask] initialState))
    = 0)%nat).
Proof.
  assert (H1 : liveVideo Samples.tickThrows = Some Samples.camera) by reflexivity.
  assert (H2 : bypass Samples.tickThrows = false) by reflexivity.
  split; [exact H1|]. split; [exact H2|].
  exact (proj1 (proj2
    (segmentation_gate [Samples.tickMask; Samples.tickMask] Samples.tickThrows
       Samples.camera H1 H2))).
Defined.

(** C6.  When the call of the segmenter throws or returns no confidence
    mask, the tick still runs to its end (it requests the next frame), the
    blended mask, both mask textures and the has-mask flag are what the
    previous tick left, and the frame is drawn with them: composited if a
    mask had been acquired, else passed through. *)
Theorem failed_segmentation_keeps_masks (t : Tick) (s : State) :
  segResult t = SegThrows \/ segResult t = SegNoMask ->
  maskState (fst (draw t s)) = maskState s /\
  last (snd (draw t s)) = Some RequestAnimationFrame /\
  (forall v, liveVideo t = Some v ->
     videoTexels (fst (draw t s)) = picture v /\
     drawnMode (snd (draw t s))
     = Some (if bypass t || negb (hasMask s) then 0 else 1)%Z).
Proof.
  intros Hres.
  assert (Hnone : obtainedMask t = None).
  { unfold obtainedMask. destruct Hres as [-> | ->]; reflexivity. }
  split; [|split; [apply draw_reschedules|]].
  - destruct (liveVideo t) as [v|] eqn:Hv; [|by rewrite draw_idle].
    destruct (bypass t) eqn:Hb.
    + rewrite (draw_bypass t s v Hv Hb). apply (uploadVideo_state v s).
    + destruct (draw_active_state t s v Hv Hb) as (_ & D2 & _).
      rewrite D2.
      pose proof (segmentStage_state t v s) as Hs. cbn zeta in Hs.
      destruct Hs as (_ & _ & _ & Hyes & Hno). rewrite Hnone in Hyes.
      destruct (shouldSegment _); [apply Hyes|apply Hno]; reflexivity.
  - intros v Hv. destruct (bypass t) eqn:Hb.
    + rewrite (draw_bypass t s v Hv Hb). cbn [fst snd orb].
      split; [apply (uploadVideo_state v s)|].
      apply textures_no_draw, uploadVideo_textures.
    + destruct (draw_active_state t s v Hv Hb) as (_ & _ & D3 & D4 & _).
      rewrite D3, D4. cbn [orb].
      pose proof (segmentStage_state t v s) as Hs. cbn zeta in Hs.
      destruct Hs as (Hs1 & _ & _ & Hyes & Hno). rewrite Hnone in Hyes.
      split; [exact Hs1|].
      assert (Hm : maskState (fst (segmentStage t v s)) = maskState s).
      { destruct (shouldSegment _); [apply Hyes|apply Hno]; reflexivity. }
      apply hasMask_maskState in Hm. destruct Hm as (-> & _).
      destruct (hasMask s); reflexivity.
Qed.

Lemma failed_segmentation_keeps_masks_witness :
  segResult Samples.tickThrows = SegThrows /\
  maskState (fst (draw Samples.tickThrows Samples.afterMask))
  = maskState Samples.afterMask.
Proof.
  assert (H : segResult Samples.tickThrows = SegThrows) by reflexivity.
  split; [exact H|].
  exact (proj1 (failed_segmentation_keeps_masks Samples.tickThrows
                  Samples.afterMask (or_introl H))).
Defined.

(** *** The first mask *)

Lemma textures_no_drawArrays (ev : list Event) (m : Z) :
  Forall isTexture ev -> ~ In (DrawArrays m) ev.
Proof.
  intros H Hin. rewrite List.Forall_forall in H. exact (H _ Hin).
Qed.

Lemma draw_segments (t : Tick) (s : State) :
  In Segment (snd (draw t s)) ->
  exists v, liveVideo t = Some v /\ bypass t = false /\
    shouldSegment (set_frameCount (S (frameCount s)) (fst (uploadVideo v s))) = true.
Proof.
  intros Hin. destruct (liveVideo t) as [v|] eqn:Hv.
  - exists v. split; [reflexivity|].
    destruct (bypass t) eqn:Hb.
    + exfalso. rewrite (draw_bypass t s v Hv Hb) in Hin. cbn [snd] in Hin.
      apply in_app_iff in Hin. destruct Hin as [H|H].
      * exact (textures_no_segment _ (uploadVideo_textures v s) H).
      * destruct H as [H|[H|[]]]; discriminate.
    + split; [reflexivity|].
      apply (draw_active_state t s v Hv Hb) in Hin.
      exact (proj1 (segmentStage_segments t v s) Hin).
  - rewrite (draw_idle t s Hv) in Hin. destruct Hin as [H|[]]. discriminate.
Qed.

Lemma draw_hasMask_mono (t : Tick) (s : State) :
  hasMask s = true -> hasMask (fst (draw t s)) = true.
Proof.
  intros H. destruct (liveVideo t) as [v|] eqn:Hv; [|by rewrite draw_idle].
  destruct (bypass t) eqn:Hb.
  - rewrite (draw_bypass t s v Hv Hb). cbn [fst hasMask set_mode].
    pose proof (uploadVideo_state v s) as Hu. cbn zeta in Hu.
    destruct Hu as (_ & _ & Hu3 & _). apply hasMask_maskState in Hu3.
    destruct Hu3 as (-> & _). exact H.
  - destruct (draw_active_state t s v Hv Hb) as (_ & D2 & _).
    apply hasMask_maskState in D2. destruct D2 as (-> & _).
    pose proof (segmentStage_state t v s) as Hs. cbn zeta in Hs.
    destruct Hs as (_ & _ & _ & Hyes & Hno).
    destruct (shouldSegment _).
    + destruct (Hyes eq_refl) as [_ Hm]. destruct (obtainedMask t).
      * unfold maskState in Hm. by injection Hm as _ _ _ ->.
      * apply hasMask_maskState in Hm. destruct Hm as (-> & _). exact H.
    + destruct (Hno eq_refl) as [_ Hm].
      apply hasMask_maskState in Hm. destruct Hm as (-> & _). exact H.
Qed.

(** The flag is raised only by a tick whose call of the segmenter
    returned a mask: [hasMask] says that a mask has been acquired. *)
Lemma draw_hasMask_gain (t : Tick) (s : State) :
  hasMask s = false -> hasMask (fst (draw t s)) = true ->
  In Segment (snd (draw t s)) /\ exists mask, segResult t = SegMask mask.
Proof.
  intros H0 H1. destruct (liveVideo t) as [v|] eqn:Hv;
    [|rewrite draw_idle in H1 by exact Hv; cbn [fst] in H1; congruence].
  destruct (bypass t) eqn:Hb.
  - exfalso. rewrite (draw_bypass t s v Hv Hb) in H1. cbn [fst hasMask set_mode] in H1.
    pose proof (uploadVideo_state v s) as Hu. cbn zeta in Hu.
    destruct Hu as (_ & _ & Hu3 & _). apply hasMask_maskState in Hu3.
    destruct Hu3 as (Hu3 & _). congruence.
  - destruct (draw_active_state t s v Hv Hb) as (_ & D2 & _ & _ & D5).
    apply hasMask_maskState in D2. destruct D2 as (D2 & _). rewrite D2 in H1.
    rewrite D5, segmentStage_segments.
    pose proof (segmentStage_state t v s) as Hs. cbn zeta in Hs.
    destruct Hs as (_ & _ & _ & Hyes & Hno).
    destruct (shouldSegment _).
    + split; [reflexivity|]. destruct (Hyes eq_refl) as [_ Hm].
      unfold obtainedMask in Hm. destruct (segResult t) as [| |mask]; [| |eauto];
        apply hasMask_maskState in Hm; destruct Hm as (Hm & _); congruence.
    + destruct (Hno eq_refl) as [_ Hm].
      apply hasMask_maskState in Hm. destruct Hm as (Hm & _). congruence.
Qed.

Lemma stateAfter_hasMask_mono (ts : list Tick) (s : State) :
  hasMask s = true -> hasMask (stateAfter ts s) = true.
Proof.
  revert s. induction ts as [|t ts IH]; intros s H; [exact H|].
  rewrite stateAfter_cons. apply IH, draw_hasMask_mono, H.
Qed.

Lemma composite_needs_mask (t : Tick) (s : State) :
  In (DrawArrays 1) (snd (draw t s)) -> hasMask (fst (draw t s)) = true.
Proof.
  intros Hin. destruct (liveVideo t) as [v|] eqn:Hv.
  - destruct (bypass t) eqn:Hb.
    + exfalso. rewrite (draw_bypass t s v Hv Hb) in Hin. cbn [snd] in Hin.
      apply in_app_iff in Hin. destruct Hin as [H|H].
      * exact (textures_no_drawArrays _ _ (uploadVideo_textures v s) H).
      * destruct H as [H|[H|[]]]; discriminate.
    + destruct (draw_active_state t s v Hv Hb) as (_ & D2 & _ & D4 & _).
      apply hasMask_maskState in D2. destruct D2 as (-> & _).
      destruct (hasMask (fst (segmentStage t v s))) eqn:H3; [reflexivity|].
      exfalso. rewrite (draw_active t s v Hv Hb), H3 in Hin. cbn [snd] in Hin.
      destruct (segmentStage_events t v s) as [ev [E HF]]. cbn zeta in E.
      rewrite E in Hin. apply maskUploads_textures in HF.
      rewrite !in_app_iff in Hin. destruct Hin as [[H|H]|H].
      * exact (textures_no_drawArrays _ _ (uploadVideo_textures v s) H).
      * destruct (shouldSegment _); [|destruct H].
        destruct H as [H|H]; [discriminate|].
        exact (textures_no_drawArrays _ _ HF H).
      * destruct H as [H|[H|[]]]; discriminate.
  - rewrite (draw_idle t s Hv) in Hin. destruct Hin as [H|[]]. discriminate.
Qed.

(** While no mask has been acquired nothing is composited. *)
Lemma no_composite_before_mask (ts : list Tick) (s : State) :
  hasMask (stateAfter ts s) = false -> ~ In (DrawArrays 1) (snd (run ts s)).
Proof.
  revert s. induction ts as [|t ts IH]; intros s H; [intros []|].
  rewrite run_cons. cbn [snd]. rewrite in_app_iff. rewrite stateAfter_cons in H.
  intros [Hin|Hin]; [|exact (IH _ H Hin)].
  apply composite_needs_mask in Hin.
  rewrite (stateAfter_hasMask_mono ts _ Hin) in H. discriminate.
Qed.

(** C3.  In a session, when a tick calls the segmenter, obtains a raw
    mask, and there is no previous blended mask or its length differs
    from the raw mask's, the blended mask becomes a copy of the raw mask
    (and so does the blended-mask texture) and the tick composites; when
    there was no blended mask yet, no earlier tick of the session has
    composited. *)
Theorem first_mask_starts_blend (ts : list Tick) (t : Tick) (mask : Mask) :
  let s := stateAfter ts initialState in
  In Segment (snd (draw t s)) ->
  segResult t = SegMask mask ->
  hasPrev (blendMask s) mask = false ->
  maskState (fst (draw t s)) = (Some (Cells mask), Some mask, Some (Cells mask), true) /\
  drawnMode (snd (draw t s)) = Some 1%Z /\
  (blendMask s = None ->
     hasMask s = false /\ ~ In (DrawArrays 1) (snd (run ts initialState))).
Proof.
  intros s Hseg Hres Hprev.
  destruct (draw_segments t s Hseg) as (v & Hv & Hb & Hshould).
  destruct (draw_active_state t s v Hv Hb) as (_ & D2 & _ & D4 & _).
  pose proof (segmentStage_state t v s) as Hs. cbn zeta in Hs.
  destruct Hs as (_ & _ & _ & Hyes & _).
  destruct (Hyes Hshould) as [_ Hm].
  assert (Hob : obtainedMask t = Some mask) by (unfold obtainedMask; by rewrite Hres).
  rewrite Hob, (BlenderFacts.blendUpdate_copy _ _ Hprev) in Hm.
  rewrite D2, D4, Hm.
  apply hasMask_maskState in D2. destruct D2 as (_ & _).
  unfold maskState in Hm. injection Hm as _ _ _ ->.
  split; [reflexivity|]. split; [reflexivity|].
  intros Hnone.
  destruct (stateAfter_inv ts initialState initialState_inv) as (_ & Hiff & _).
  fold s in Hiff. apply Hiff in Hnone. split; [exact Hnone|].
  apply no_composite_before_mask. exact Hnone.
Qed.

Lemma first_mask_starts_blend_witness :
  In Segment (snd (draw Samples.tickMask (stateAfter [Samples.tickNone] initialState))) /\
  segResult Samples.tickMask = SegMask Samples.rawMask16 /\
  hasPrev (blendMask (stateAfter [Samples.tickNone] initialState)) Samples.rawMask16
  = false /\
  maskState (fst (draw Samples.tickMask (stateAfter [Samples.tickNone] initialState)))
  = (Some (Cells Samples.rawMask16), Some Samples.rawMask16,
     Some (Cells Samples.rawMask16), true).
Proof.
  assert (H1 : In Segment (snd (draw Samples.tickMask
                                  (stateAfter [Samples.tickNone] initialState)))).
  { vm_compute. right. left. reflexivity. }
  assert (H2 : segResult Samples.tickMask = SegMask Samples.rawMask16) by reflexivity.
  assert (H3 : hasPrev (blendMask (stateAfter [Samples.tickNone] initialState))
                 Samples.rawMask16 = false) by reflexivity.
  split; [exact H1|]. split; [exact H2|]. split; [exact H3|].
  exact (proj1 (first_mask_starts_blend [Samples.tickNone] Samples.tickMask
                  Samples.rawMask16 H1 H2 H3)).
Defined.

(** *** Video texture storage *)

Lemma videoReallocs_app (a b : list Event) :
  videoReallocs (a ++ b) = (videoReallocs a + videoReallocs b)%nat.
Proof. unfold videoReallocs. by rewrite List.filter_app, length_app. Qed.

Lemma videoSubUploads_app (a b : list Event) :
  videoSubUploads (a ++ b) = (videoSubUploads a + videoSubUploads b)%nat.
Proof. unfold videoSubUploads. by rewrite List.filter_app, length_app. Qed.

Lemma notVideo_counts (ev : list Event) :
  Forall notVideo ev -> videoReallocs ev = 0%nat /\ videoSubUploads ev = 0%nat.
Proof.
  unfold videoReallocs, videoSubUploads.
  induction 1 as [|e ev [H1 H2] _ [IH1 IH2]]; [by split|].
  cbn [List.filter]. rewrite H1, H2. by split.
Qed.

(** Behind the upload of the frame no event of a tick concerns the video
    texture. *)
Lemma draw_events_split (t : Tick) (s : State) :
  exists rest,
    snd (draw t s)
    = match liveVideo t with
      | Some v => snd (uploadVideo v s)
      | None => []
      end ++ rest /\
    Forall notVideo rest.
Proof.
  assert (Hmask : forall ev,
    Forall (fun e => e = TexImage2D TEXTURE3 SEG_WIDTH SEG_HEIGHT \/
                     e = TexImage2D TEXTURE1 SEG_WIDTH SEG_HEIGHT \/
                     e = TexSubImage2D TEXTURE3 \/ e = TexSubImage2D TEXTURE1) ev ->
    Forall notVideo ev).
  { intros ev H. eapply Forall_impl; [exact H|].
    intros e [-> | [-> | [-> | ->]]]; by split. }
  assert (Hbg : forall ev,
    Forall (fun e => e = TexImage2DFrom TEXTURE2) ev -> Forall notVideo ev).
  { intros ev H. eapply Forall_impl; [exact H|]. intros e ->. by split. }
  assert (Hend : forall m, Forall notVideo [DrawArrays m; RequestAnimationFrame]).
  { intros m. repeat (apply Forall_cons_2; [by split|]). constructor. }
  destruct (liveVideo t) as [v|] eqn:Hv.
  - destruct (bypass t) eqn:Hb.
    + rewrite (draw_bypass t s v Hv Hb). cbn [snd]. eexists. split; [reflexivity|].
      apply Hend.
    + rewrite (draw_active t s v Hv Hb).
      destruct (segmentStage_events t v s) as [ev [E HF]]. cbn zeta in E.
      apply Hmask in HF.
      assert (Hseg : Forall notVideo
                (if shouldSegment (set_frameCount (S (frameCount s)) (fst (uploadVideo v s)))
                 then Segment :: ev else [])).
      { destruct (shouldSegment _); [|constructor].
        apply Forall_cons_2; [by split|exact HF]. }
      destruct (hasMask _); cbn [snd]; rewrite E, <- app_assoc;
        eexists; (split; [reflexivity|]).
      * apply Forall_app. split; [exact Hseg|].
        apply Forall_app. split; [|apply Hend].
        apply Hbg, uploadBackground_events.
      * apply Forall_app. split; [exact Hseg|apply Hend].
  - rewrite (draw_idle t s Hv). exists [RequestAnimationFrame].
    split; [reflexivity|]. apply Forall_cons_2; [by split|constructor].
Qed.

Lemma tickDims_Some (t : Tick) (d : nat * nat) :
  tickDims t = Some d <-> exists v, liveVideo t = Some v /\ frameDims v = d.
Proof.
  unfold tickDims. destruct (liveVideo t) as [v|]; cbn.
  - split; [intros [= <-]; eauto|]. intros (v' & [= <-] & <-). reflexivity.
  - split; [discriminate|]. intros (v' & H & _). discriminate.
Qed.

(** What one tick does to the video texture. *)
Lemma draw_video (t : Tick) (s : State) :
  match tickDims t with
  | Some d =>
      videoReallocs (snd (draw t s)) = (if dimsDiffer (lastDims s) d then 1 else 0)%nat /\
      videoSubUploads (snd (draw t s)) = 1%nat /\
      lastDims (fst (draw t s)) = d
  | None =>
      videoReallocs (snd (draw t s)) = 0%nat /\
      videoSubUploads (snd (draw t s)) = 0%nat /\
      lastDims (fst (draw t s)) = lastDims s
  end.
Proof.
  destruct (draw_events_split t s) as [rest [E HF]].
  apply notVideo_counts in HF. destruct HF as [R0 S0].
  rewrite E, videoReallocs_app, videoSubUploads_app, R0, S0, !Nat.add_0_r.
  unfold tickDims. destruct (liveVideo t) as [v|] eqn:Hv; cbn [option_map].
  - rewrite uploadVideo_events.
    split; [|split].
    + destruct (dimsDiffer _ _); reflexivity.
    + destruct (dimsDiffer _ _); reflexivity.
    + destruct (bypass t) eqn:Hb.
      * rewrite (draw_bypass t s v Hv Hb). apply (uploadVideo_state v s).
      * rewrite (draw_active t s v Hv Hb).
        pose proof (segmentStage_state t v s) as Hs. cbn zeta in Hs.
        destruct Hs as (_ & Hs2 & _).
        destruct (hasMask _); cbn [fst lastDims set_mode]; [|exact Hs2].
        pose proof (uploadBackground_state t (fst (segmentStage t v s))) as H4.
        cbn zeta in H4. destruct H4 as (_ & H42 & _). by rewrite H42.
  - rewrite (draw_idle t s Hv). by split.
Qed.

Lemma run_app (ts1 ts2 : list Tick) (s : State) :
  run (ts1 ++ ts2) s
  = (fst (run ts2 (stateAfter ts1 s)),
     snd (run ts1 s) ++ snd (run ts2 (stateAfter ts1 s))).
Proof.
  revert s. induction ts1 as [|t ts1 IH]; intros s.
  - cbn [app run stateAfter fst snd]. by destruct (run ts2 s).
  - rewrite <- app_comm_cons, !run_cons, IH, stateAfter_cons. cbn [fst snd].
    by rewrite app_assoc.
Qed.

Lemma liveTicks_cons (t : Tick) (ts : list Tick) :
  liveTicks (t :: ts)
  = (match tickDims t with Some _ => 1 | None => 0 end + liveTicks ts)%nat.
Proof.
  unfold liveTicks. cbn [List.filter].
  destruct (tickDims t); [rewrite bool_decide_true by done|
                          rewrite bool_decide_false by (intros X; by apply X)];
    reflexivity.
Qed.

Lemma stateAfter_app (ts1 ts2 : list Tick) (s : State) :
  stateAfter (ts1 ++ ts2) s = stateAfter ts2 (stateAfter ts1 s).
Proof. unfold stateAfter at 1. by rewrite run_app. Qed.

(** Frames of the recorded dimensions never reallocate. *)
Lemma run_same_dims (ts : list Tick) (s : State) :
  (forall t d, In t ts -> tickDims t = Some d -> d = lastDims s) ->
  videoReallocs (snd (run ts s)) = 0%nat /\
  videoSubUploads (snd (run ts s)) = liveTicks ts /\
  lastDims (stateAfter ts s) = lastDims s.
Proof.
  revert s. induction ts as [|t ts IH]; intros s H; [by split|].
  rewrite run_cons, stateAfter_cons, liveTicks_cons. cbn [snd].
  rewrite videoReallocs_app, videoSubUploads_app.
  pose proof (draw_video t s) as Hd.
  assert (Hlast : lastDims (fst (draw t s)) = lastDims s).
  { destruct (tickDims t) as [d|] eqn:Ed; destruct Hd as (_ & _ & D3); [|exact D3].
    rewrite D3. apply (H t d); [by left|exact Ed]. }
  destruct (IH (fst (draw t s))) as (I1 & I2 & I3).
  { intros t' d' Hin Hd'. rewrite Hlast. apply (H t' d'); [by right|exact Hd']. }
  rewrite I1, I2, I3, Hlast.
  destruct (tickDims t) as [d|] eqn:Ed; destruct Hd as (D1 & D2 & _);
    rewrite D1, D2; [|by split].
  assert (Hd' : d = lastDims s) by (apply (H t d); [by left|exact Ed]).
  rewrite Hd', (proj2 (dimsDiffer_false _ _) eq_refl). by split.
Qed.

(** Frames of new dimensions reallocate once, at the first of them. *)
Lemma run_new_dims (ts : list Tick) (s : State) (d : nat * nat) :
  lastDims s <> d ->
  (forall t d', In t ts -> tickDims t = Some d' -> d' = d) ->
  (exists t, In t ts /\ tickDims t <> None) ->
  videoReallocs (snd (run ts s)) = 1%nat /\
  videoSubUploads (snd (run ts s)) = liveTicks ts /\
  lastDims (stateAfter ts s) = d.
Proof.
  revert s. induction ts as [|t ts IH]; intros s Hne H Hex.
  { destruct Hex as (t & [] & _). }
  rewrite run_cons, stateAfter_cons, liveTicks_cons. cbn [snd].
  rewrite videoReallocs_app, videoSubUploads_app.
  pose proof (draw_video t s) as Hd.
  destruct (tickDims t) as [d'|] eqn:Ed; destruct Hd as (D1 & D2 & D3).
  - assert (Hd' : d' = d) by (apply (H t d'); [by left|exact Ed]).
    rewrite Hd' in D1, D3.
    rewrite (proj2 (dimsDiffer_true _ _) Hne) in D1.
    destruct (run_same_dims ts (fst (draw t s))) as (I1 & I2 & I3).
    { intros t' d'' Hin Hd''. rewrite D3. apply (H t' d''); [by right|exact Hd'']. }
    rewrite D1, D2, I1, I2, I3, D3. by split.
  - destruct (IH (fst (draw t s))) as (I1 & I2 & I3).
    { by rewrite D3. }
    { intros t' d' Hin Hd'. apply (H t' d'); [by right|exact Hd']. }
    { destruct Hex as (t' & [<-|Hin] & Hlive); [contradiction|]. eauto. }
    rewrite D1, D2, I1, I2, I3. by split.
Qed.

Lemma liveTicks_app (ts1 ts2 : list Tick) :
  liveTicks (ts1 ++ ts2) = (liveTicks ts1 + liveTicks ts2)%nat.
Proof. unfold liveTicks. by rewrite List.filter_app, length_app. Qed.

(** C9.  On every tick the storage of the video texture is allocated
    anew if and only if the tick has a frame whose dimensions ([w], [h]
    of [draw]) differ from the recorded ones, at most once, and the frame
    is always uploaded by exactly one in-place [texSubImage2D]; the
    recorded dimensions are then the frame's.  Hence in a run whose
    frames first have the recorded dimensions [d1] and then, from some
    tick on, other dimensions [d2], storage is allocated exactly once,
    while every frame is uploaded in place. *)
Theorem video_storage_realloc (ts1 ts2 : list Tick) (s : State) (d1 d2 : nat * nat) :
  lastDims s = d1 ->
  d1 <> d2 ->
  (forall t d, In t ts1 -> tickDims t = Some d -> d = d1) ->
  (forall t d, In t ts2 -> tickDims t = Some d -> d = d2) ->
  (exists t, In t ts2 /\ tickDims t <> None) ->
  (forall t0 s0,
     (videoReallocs (snd (draw t0 s0)) <= 1)%nat /\
     (videoReallocs (snd (draw t0 s0)) = 1%nat <->
      exists d, tickDims t0 = Some d /\ d <> lastDims s0) /\
     (forall d, tickDims t0 = Some d ->
        videoSubUploads (snd (draw t0 s0)) = 1%nat /\
        lastDims (fst (draw t0 s0)) = d) /\
     (tickDims t0 = None -> videoSubUploads (snd (draw t0 s0)) = 0%nat)) /\
  videoReallocs (snd (run (ts1 ++ ts2) s)) = 1%nat /\
  videoSubUploads (snd (run (ts1 ++ ts2) s)) = liveTicks (ts1 ++ ts2) /\
  lastDims (stateAfter (ts1 ++ ts2) s) = d2.
Proof.
  intros H1 Hne Hts1 Hts2 Hex. split.
  - intros t0 s0. pose proof (draw_video t0 s0) as Hd.
    destruct (tickDims t0) as [d|] eqn:Ed.
    + destruct Hd as (D1 & D2 & D3). rewrite D1.
      destruct (dimsDiffer (lastDims s0) d) eqn:E.
      * apply dimsDiffer_true in E.
        split; [lia|]. split; [|split; [|discriminate]].
        -- split; [|reflexivity]. intros _. exists d. split; [reflexivity|congruence].
        -- intros d' [= <-]. by split.
      * apply dimsDiffer_false in E.
        split; [lia|]. split; [|split; [|discriminate]].
        -- split; [discriminate|]. intros (d' & [= <-] & Hd'). congruence.
        -- intros d' [= <-]. by split.
    + destruct Hd as (D1 & D2 & D3). rewrite D1.
      split; [lia|]. split; [|split; [discriminate|by intros _]].
      split; [discriminate|]. intros (d' & Hd' & _). discriminate.
  - rewrite stateAfter_app, run_app. cbn [snd].
    rewrite videoReallocs_app, videoSubUploads_app, liveTicks_app.
    destruct (run_same_dims ts1 s) as (A1 & A2 & A3).
    { intros t d Hin Hd. rewrite H1. by apply (Hts1 t d). }
    destruct (run_new_dims ts2 (stateAfter ts1 s) d2) as (B1 & B2 & B3).
    { rewrite A3, H1. exact Hne. }
    { exact Hts2. }
    { exact Hex. }
    rewrite A1, A2, B1, B2, B3. by split.
Qed.

Lemma video_storage_realloc_witness :
  lastDims Samples.afterMask = (640, 480)%nat /\
  videoReallocs (snd (run ([Samples.tickNone; Samples.tickMask] ++
                           [Samples.tickHD; Samples.tickHD]) Samples.afterMask))
  = 1%nat.
Proof.
  assert (H1 : lastDims Samples.afterMask = (640, 480)%nat) by reflexivity.
  assert (H2 : (640, 480)%nat <> (1280, 720)%nat) by discriminate.
  assert (H3 : forall t d, In t [Samples.tickNone; Samples.tickMask] ->
                 tickDims t = Some d -> d = (640, 480)%nat).
  { intros t d [<-|[<-|[]]] [= <-]; reflexivity. }
  assert (H4 : forall t d, In t [Samples.tickHD; Samples.tickHD] ->
                 tickDims t = Some d -> d = (1280, 720)%nat).
  { intros t d [<-|[<-|[]]] [= <-]; reflexivity. }
  assert (H5 : exists t, In t [Samples.tickHD; Samples.tickHD] /\ tickDims t <> None).
  { exists Samples.tickHD. split; [by left|discriminate]. }
  split; [exact H1|].
  exact (proj1 (proj2
    (video_storage_realloc [Samples.tickNone; Samples.tickMask]
       [Samples.tickHD; Samples.tickHD] Samples.afterMask
       (640, 480)%nat (1280, 720)%nat H1 H2 H3 H4 H5))).
Defined.

(** A short session: the first mask arrives in the first tick and is
    composited; the camera then switches to 1280 x 720 (one allocation of
    video storage, mask textures updated in place); the third tick, back
    at 640 x 480 (storage is allocated again), skips segmentation because
    the interval has become 2 and composites with the masks it finds. *)
Example session_trace :
  snd (run [Samples.tickMask; Samples.tickHD; Samples.tickThrows] initialState)
  = [TexImage2D 0 640 480; TexSubImage2D 0; Segment;
     TexImage2D 3 256 144; TexImage2D 1 256 144;
     DrawArrays 1; RequestAnimationFrame;
     TexImage2D 0 1280 720; TexSubImage2D 0; Segment;
     TexSubImage2D 3; TexSubImage2D 1;
     DrawArrays 1; RequestAnimationFrame;
     TexImage2D 0 640 480; TexSubImage2D 0;
     DrawArrays 1; RequestAnimationFrame].
Proof. vm_compute. reflexivity. Qed.

End PumpFacts.

(** ** Fragment shader: feather and final mix *)

Module ShaderMore.

Import Shader ShaderParts ShaderFacts.

Lemma clamp_low (x : Q) : x <= 0 -> clamp x 0.0 1.0 == 0.
Proof.
  intros H. unfold clamp.
  destruct (Q.max_spec x 0.0) as [[L E]|[L E]];
    destruct (Q.min_spec (Qmax x 0.0) 1.0) as [[L' E']|[L' E']];
    rewrite E' in *; rewrite ?E in *; lra.
Qed.

Lemma clamp_high (x : Q) : 1 <= x -> clamp x 0.0 1.0 == 1.
Proof.
  intros H. unfold clamp.
  destruct (Q.max_spec x 0.0) as [[L E]|[L E]];
    destruct (Q.min_spec (Qmax x 0.0) 1.0) as [[L' E']|[L' E']];
    rewrite E' in *; rewrite ?E in *; lra.
Qed.

Lemma clamp_mono (x y : Q) : x <= y -> clamp x 0.0 1.0 <= clamp y 0.0 1.0.
Proof.
  intros H. unfold clamp.
  apply Q.min_le_compat_r. apply Q.max_le_compat_r. exact H.
Qed.

(** The cubic of [smoothstep] on [[0, 1]]. *)
Lemma hermite_range (t : Q) : 0 <= t <= 1 -> 0 <= t * t * (3.0 - 2.0 * t) <= 1.
Proof.
  intros [H0 H1]. split.
  - assert (0 <= t * t) by nra. nra.
  - assert (E : 1 - t * t * (3.0 - 2.0 * t) == (1 - t) * (1 - t) * (1 + 2 * t)) by ring.
    assert (0 <= (1 - t) * (1 - t)) by nra.
    assert (0 <= (1 - t) * (1 - t) * (1 + 2 * t)) by nra.
    lra.
Qed.

Lemma hermite_mono (a b : Q) :
  0 <= a -> a <= b -> b <= 1 ->
  a * a * (3.0 - 2.0 * a) <= b * b * (3.0 - 2.0 * b).
Proof.
  intros Ha Hab Hb.
  assert (E : b * b * (3.0 - 2.0 * b) - a * a * (3.0 - 2.0 * a)
              == (b - a) * (3 * (a + b) - 2 * (a * a + a * b + b * b))) by ring.
  assert (H1 : a * a <= a) by nra.
  assert (H2 : b * b <= b) by nra.
  assert (H3 : 2 * (a * b) <= a + b) by nra.
  assert (H4 : 0 <= 3 * (a + b) - 2 * (a * a + a * b + b * b)) by lra.
  assert (0 <= (b - a) * (3 * (a + b) - 2 * (a * a + a * b + b * b))) by nra.
  lra.
Qed.

Lemma feather_unfold (m : Q) :
  smoothstep 0.33 0.67 m = featherArg m * featherArg m * (3.0 - 2.0 * featherArg m).
Proof. reflexivity. Qed.

Lemma feather_div (x : Q) : x / (0.67 - 0.33) == x * (50 # 17).
Proof.
  unfold Qdiv. assert (E : / (0.67 - 0.33) == 50 # 17) by reflexivity.
  rewrite E. reflexivity.
Qed.

Lemma featherArg_low (m : Q) : m <= 0.33 -> featherArg m == 0.
Proof.
  intros H. apply clamp_low. rewrite feather_div. nra.
Qed.

Lemma featherArg_high (m : Q) : 0.67 <= m -> featherArg m == 1.
Proof.
  intros H. apply clamp_high. rewrite feather_div. nra.
Qed.

Lemma featherArg_mono (a b : Q) : a <= b -> featherArg a <= featherArg b.
Proof.
  intros H. apply clamp_mono. rewrite !feather_div. nra.
Qed.

Lemma feather_range (m : Q) : 0 <= smoothstep 0.33 0.67 m <= 1.
Proof.
  rewrite feather_unfold.
  pose proof (clamp_range ((m - 0.33) / (0.67 - 0.33))) as Hr. fold (featherArg m) in Hr.
  apply hermite_range, Hr.
Qed.

Lemma feather_low (m : Q) : m <= 0.33 -> smoothstep 0.33 0.67 m == 0.
Proof. intros H. rewrite feather_unfold, (featherArg_low m H). reflexivity. Qed.

Lemma feather_high (m : Q) : 0.67 <= m -> smoothstep 0.33 0.67 m == 1.
Proof. intros H. rewrite feather_unfold, (featherArg_high m H). reflexivity. Qed.

Lemma feather_mono (m m2 : Q) :
  m <= m2 -> smoothstep 0.33 0.67 m <= smoothstep 0.33 0.67 m2.
Proof.
  intros H. rewrite !feather_unfold.
  pose proof (clamp_range ((m - 0.33) / (0.67 - 0.33))) as Hr. fold (featherArg m) in Hr.
  pose proof (clamp_range ((m2 - 0.33) / (0.67 - 0.33))) as Hr2.
  fold (featherArg m2) in Hr2.
  apply hermite_mono; [apply Hr|apply featherArg_mono, H|apply Hr2].
Qed.

(** X1.  The feather [smoothstep(0.33, 0.67, m)] is a mix factor: it is
    in [[0, 1]] for every [m], exactly 0 up to 0.33, exactly 1 from 0.67
    on, and it never decreases when [m] grows. *)
Theorem feather_saturates (m : Q) :
  0 <= smoothstep 0.33 0.67 m <= 1 /\
  (m <= 0.33 -> smoothstep 0.33 0.67 m == 0) /\
  (0.67 <= m -> smoothstep 0.33 0.67 m == 1) /\
  (forall m2, m <= m2 -> smoothstep 0.33 0.67 m <= smoothstep 0.33 0.67 m2).
Proof.
  split; [apply feather_range|]. split; [apply feather_low|].
  split; [apply feather_high|]. intros m2. apply feather_mono.
Qed.

Lemma mix_between (x y a : Q) :
  0 <= a <= 1 -> Qmin x y <= mix x y a <= Qmax x y.
Proof.
  intros Ha. unfold mix.
  destruct (Q.min_spec x y) as [[L E]|[L E]]; rewrite E;
    destruct (Q.max_spec x y) as [[L' E']|[L' E']]; rewrite E'; nra.
Qed.

(** X2.  In Composite mode every channel of the output pixel lies between
    the background's and the video's channel: the composite never over-
    or undershoots its two sources, whatever the masks, [exp] and [sqrt]
    deliver. *)
Theorem composite_between_sources glsl_exp glsl_sqrt u_video u_mask u_rawMask u_bg
    (u_mode : Z) u_texelSize u_maskTexelSize (v_uv : vec2) :
  u_mode <> 0%Z ->
  let out := fragMain glsl_exp glsl_sqrt u_video u_mask u_rawMask u_bg u_mode
               u_texelSize u_maskTexelSize v_uv in
  let bg := u_bg v_uv in
  let vid := u_video v_uv in
  Qmin (vx bg) (vx vid) <= vx out <= Qmax (vx bg) (vx vid) /\
  Qmin (vy bg) (vy vid) <= vy out <= Qmax (vy bg) (vy vid) /\
  Qmin (vz bg) (vz vid) <= vz out <= Qmax (vz bg) (vz vid) /\
  Qmin (vw bg) (vw vid) <= vw out <= Qmax (vw bg) (vw vid).
Proof.
  intros Hmode out bg vid. unfold out.
  rewrite (fragMain_composite _ _ _ _ _ _ _ _ _ _ Hmode).
  set (m := smoothstep 0.33 0.67 _).
  assert (Hm : 0 <= m <= 1) by apply feather_range.
  unfold mix4. cbn [vx vy vz vw].
  repeat split; apply mix_between; exact Hm.
Qed.

Lemma composite_between_sources_witness :
  (1 <> 0)%Z /\
  Qmin (vx (Pump.darkFallback (0.5, 0.5))) (vx (Samples.redFrame (0.5, 0.5)))
  <= vx (fragMain Samples.constOne Samples.constOne Samples.redFrame
           Samples.halfMask Samples.halfMask Pump.darkFallback 1
           (1 / 640, 1 / 480) (1 / 256, 1 / 144) (0.5, 0.5))
  <= Qmax (vx (Pump.darkFallback (0.5, 0.5))) (vx (Samples.redFrame (0.5, 0.5))).
Proof.
  assert (H : (1 <> 0)%Z) by lia.
  split; [exact H|].
  exact (proj1 (composite_between_sources Samples.constOne Samples.constOne
                  Samples.redFrame Samples.halfMask Samples.halfMask
                  Pump.darkFallback 1 (1 / 640, 1 / 480) (1 / 256, 1 / 144)
                  (0.5, 0.5) H)).
Defined.

Lemma mix4_one (x y : vec4) (a : Q) : a == 1 -> vec4_eq (mix4 x y a) y.
Proof.
  intros H. unfold vec4_eq, mix4, mix. cbn [vx vy vz vw].
  repeat split; rewrite H; ring.
Qed.

Lemma mix4_zero (x y : vec4) (a : Q) : a == 0 -> vec4_eq (mix4 x y a) x.
Proof.
  intros H. unfold vec4_eq, mix4, mix. cbn [vx vy vz vw].
  repeat split; rewrite H; ring.
Qed.

(** The snap followed by the feather, for a weight of at least 0.34. *)
Lemma snap_then_feather (m edge unc : Q) :
  0 <= edge <= 1 -> unc <= 1 -> 0.4 <= edge * unc ->
  smoothstep 0.33 0.67 (edgeSnap m edge unc) == step 0.5 m.
Proof.
  intros Hedge Hunc Hw.
  assert (Hw' : edge * unc * 0.85 <= 0.85) by (apply snap_weight_bound; assumption).
  pose proof (feather_low (edgeSnap m edge unc)) as Hlow.
  pose proof (feather_high (edgeSnap m edge unc)) as Hhigh.
  unfold edgeSnap, mix in *. set (w := edge * unc * 0.85) in *.
  assert (Hw2 : 0.34 <= w) by (unfold w; lra).
  destruct (step_cases 0.5 m) as [[L E]|[L E]]; rewrite E in *.
  - rewrite Hlow; [reflexivity|]. nra.
  - rewrite Hhigh; [reflexivity|]. nra.
Qed.

(** X3.  Where a strong luma edge meets an uncertain mask
    ([videoEdge * uncertainty >= 0.4]) the feathered mask is exactly 0 or
    1: the output pixel is the video pixel when the mixed mask value is
    at least 0.5 and the background pixel otherwise. *)
Theorem strong_edge_is_hard_after_feather glsl_exp glsl_sqrt u_video u_mask
    u_rawMask u_bg (u_mode : Z) u_texelSize u_maskTexelSize (v_uv : vec2) :
  u_mode <> 0%Z ->
  0.4 <= videoEdge glsl_sqrt u_video u_texelSize v_uv
         * shaderUncertainty glsl_exp u_video u_mask u_rawMask u_maskTexelSize v_uv ->
  let m := boundaryMix glsl_exp u_video u_mask u_rawMask u_maskTexelSize v_uv in
  let out := fragMain glsl_exp glsl_sqrt u_video u_mask u_rawMask u_bg u_mode
               u_texelSize u_maskTexelSize v_uv in
  (0.5 <= m -> vec4_eq out (u_video v_uv)) /\
  (m < 0.5 -> vec4_eq out (u_bg v_uv)).
Proof.
  intros Hmode Hw m out. unfold out.
  rewrite (fragMain_composite _ _ _ _ _ _ _ _ _ _ Hmode).
  unfold maskBeforeFeather. fold m.
  pose proof (snap_then_feather m _ _
                (videoEdge_range glsl_sqrt u_video u_texelSize v_uv)
                (shaderUncertainty_le_1 glsl_exp u_video u_mask u_rawMask
                   u_maskTexelSize v_uv) Hw) as Hs.
  split; intros Hm.
  - apply mix4_one. rewrite Hs.
    destruct (step_cases 0.5 m) as [[L E]|[L E]]; rewrite E; [lra|reflexivity].
  - apply mix4_zero. rewrite Hs.
    destruct (step_cases 0.5 m) as [[L E]|[L E]]; rewrite E; [reflexivity|lra].
Qed.

Lemma strong_edge_is_hard_after_feather_witness :
  (1 <> 0)%Z /\
  0.4 <= videoEdge Samples.constOne Samples.redFrame (1 / 640, 1 / 480) (0.5, 0.5)
         * shaderUncertainty Samples.constOne Samples.redFrame Samples.halfMask
             Samples.halfMask (1 / 256, 1 / 144) (0.5, 0.5) /\
  0.5 <= boundaryMix Samples.constOne Samples.redFrame Samples.halfMask
           Samples.halfMask (1 / 256, 1 / 144) (0.5, 0.5) /\
  vec4_eq
    (fragMain Samples.constOne Samples.constOne Samples.redFrame
       Samples.halfMask Samples.halfMask Pump.darkFallback 1
       (1 / 640, 1 / 480) (1 / 256, 1 / 144) (0.5, 0.5))
    (Samples.redFrame (0.5, 0.5)).
Proof.
  assert (H1 : (1 <> 0)%Z) by lia.
  assert (H2 : 0.4 <= videoEdge Samples.constOne Samples.redFrame
                        (1 / 640, 1 / 480) (0.5, 0.5)
                      * shaderUncertainty Samples.constOne Samples.redFrame
                          Samples.halfMask Samples.halfMask (1 / 256, 1 / 144) (0.5, 0.5)).
  { apply Qle_bool_iff. vm_compute. reflexivity. }
  assert (H3 : 0.5 <= boundaryMix Samples.constOne Samples.redFrame Samples.halfMask
                        Samples.halfMask (1 / 256, 1 / 144) (0.5, 0.5)).
  { apply Qle_bool_iff. vm_compute. reflexivity. }
  split; [exact H1|]. split; [exact H2|]. split; [exact H3|].
  exact (proj1 (strong_edge_is_hard_after_feather Samples.constOne Samples.constOne
                  Samples.redFrame Samples.halfMask Samples.halfMask
                  Pump.darkFallback 1 (1 / 640, 1 / 480) (1 / 256, 1 / 144)
                  (0.5, 0.5) H1 H2) H3).
Defined.

(** *** The joint bilateral upsample is a weighted mean *)

Section Upsample.

Variable glsl_exp : Q -> Q.
Variable u_video : sampler2D.
Variable u_mask : vec2 -> Q.
Variable u_rawMask : vec2 -> Q.
Variable u_maskTexelSize : vec2.
Variable v_uv : vec2.
Variables lo hi : Q.

Hypothesis exp_pos : forall x, 0 < glsl_exp x.
Hypothesis raw_range : forall p, lo <= u_rawMask p <= hi.
Hypothesis mask_range : forall p, lo <= u_mask p <= hi.

Local Abbreviation tap :=
  (bilateralTap glsl_exp u_video u_mask u_rawMask u_maskTexelSize v_uv).

(** What the accumulators satisfy after any number of taps. *)
Local Abbreviation accOk := (fun acc : Acc =>
  lo * totalW acc <= mRaw acc /\ mRaw acc <= hi * totalW acc /\
  lo * totalW acc <= mBlend acc /\ mBlend acc <= hi * totalW acc).

Lemma tap_bounds (lumC : Q) (dy dx : Z) (acc : Acc) :
  accOk acc ->
  accOk (tap lumC dy dx acc) /\ totalW acc < totalW (tap lumC dy dx acc).
Proof.
  intros (H1 & H2 & H3 & H4). unfold bilateralTap. cbn [mRaw mBlend totalW].
  set (p := (_, _)). set (w1 := glsl_exp _). set (w2 := glsl_exp _).
  assert (0 < w1) by apply exp_pos. assert (0 < w2) by apply exp_pos.
  assert (Hw : 0 < w1 * w2) by nra. set (w := w1 * w2) in *.
  pose proof (raw_range p) as [R1 R2]. pose proof (mask_range p) as [M1 M2].
  repeat split; nra.
Qed.

Lemma row_bounds (lumC : Q) (dy : Z) (dxs : list Z) :
  forall acc,
    accOk acc ->
    accOk (fold_left (fun acc dx => tap lumC dy dx acc) dxs acc) /\
    totalW acc <= totalW (fold_left (fun acc dx => tap lumC dy dx acc) dxs acc).
Proof.
  induction dxs as [|dx dxs IH]; intros acc H; cbn [fold_left].
  - split; [exact H|lra].
  - destruct (tap_bounds lumC dy dx acc H) as [H1 H2].
    destruct (IH _ H1) as [H3 H4]. split; [exact H3|lra].
Qed.

Lemma upsample_bounds :
  lo <= fst (upsample glsl_exp u_video u_mask u_rawMask u_maskTexelSize v_uv) <= hi /\
  lo <= snd (upsample glsl_exp u_video u_mask u_rawMask u_maskTexelSize v_uv) <= hi.
Proof.
  unfold upsample. cbn [fst snd].
  set (lumC := lumaOf (u_video v_uv)).
  cbn [fold_left].
  set (a0 := mkAcc 0.0 0.0 0.0).
  assert (H0 : accOk a0) by (cbn [mRaw mBlend totalW a0]; repeat split; lra).
  destruct (tap_bounds lumC (-1) (-1) a0 H0) as [H1 L1].
  set (a1 := bilateralTap _ _ _ _ _ _ lumC (-1)%Z (-1)%Z a0) in *.
  destruct (row_bounds lumC (-1) [0; 1]%Z a1 H1) as [H2 L2].
  cbn [fold_left] in H2, L2.
  set (a2 := bilateralTap _ _ _ _ _ _ lumC (-1)%Z 1%Z _) in *.
  destruct (row_bounds lumC 0 [-1; 0; 1]%Z a2 H2) as [H3 L3].
  cbn [fold_left] in H3, L3.
  set (a3 := bilateralTap _ _ _ _ _ _ lumC 0%Z 1%Z _) in *.
  destruct (row_bounds lumC 1 [-1; 0; 1]%Z a3 H3) as [H4 L4].
  cbn [fold_left] in H4, L4.
  set (a4 := bilateralTap _ _ _ _ _ _ lumC 1%Z 1%Z _) in *.
  assert (Hpos : 0 < totalW a4).
  { change (totalW a0) with 0.0 in L1. lra. }
  destruct H4 as (B1 & B2 & B3 & B4).
  split; split.
  - apply Qle_shift_div_l; [exact Hpos|exact B1].
  - apply Qle_shift_div_r; [exact Hpos|exact B2].
  - apply Qle_shift_div_l; [exact Hpos|exact B3].
  - apply Qle_shift_div_r; [exact Hpos|exact B4].
Qed.

End Upsample.

(** X4.  With a positive [exp] and mask textures that read confidences
    in [[0, 1]], every intermediate mask value of the shader is a
    confidence again: the two upsampled values (weighted means of the
    nine taps), the uncertainty, the raw / blend mix and the value after
    the edge snap. *)
Theorem shader_mask_values_in_range glsl_exp glsl_sqrt u_video u_mask u_rawMask
    u_texelSize u_maskTexelSize (v_uv : vec2) :
  (forall x, 0 < glsl_exp x) ->
  (forall p, 0 <= u_rawMask p <= 1) ->
  (forall p, 0 <= u_mask p <= 1) ->
  0 <= fst (upsample glsl_exp u_video u_mask u_rawMask u_maskTexelSize v_uv) <= 1 /\
  0 <= snd (upsample glsl_exp u_video u_mask u_rawMask u_maskTexelSize v_uv) <= 1 /\
  0 <= shaderUncertainty glsl_exp u_video u_mask u_rawMask u_maskTexelSize v_uv <= 1 /\
  0 <= boundaryMix glsl_exp u_video u_mask u_rawMask u_maskTexelSize v_uv <= 1 /\
  0 <= maskBeforeFeather glsl_exp glsl_sqrt u_video u_mask u_rawMask
         u_texelSize u_maskTexelSize v_uv <= 1.
Proof.
  intros Hexp Hraw Hmask.
  pose proof (upsample_bounds glsl_exp u_video u_mask u_rawMask u_maskTexelSize
                v_uv 0 1 Hexp Hraw Hmask) as [HR HB].
  pose proof (videoEdge_range glsl_sqrt u_video u_texelSize v_uv) as He.
  assert (Hu : 0 <= shaderUncertainty glsl_exp u_video u_mask u_rawMask
                      u_maskTexelSize v_uv <= 1).
  { unfold shaderUncertainty. set (r := fst _) in *.
    apply Qabs_case; intros; lra. }
  assert (Hm : 0 <= boundaryMix glsl_exp u_video u_mask u_rawMask
                      u_maskTexelSize v_uv <= 1).
  { unfold boundaryMix.
    set (un := shaderUncertainty _ _ _ _ _ _) in *.
    destruct (upsample _ _ _ _ _ _) as [mR mB]. cbn [fst snd] in HR, HB.
    pose proof (clamp_range (un * 2.0)) as Hc.
    pose proof (mix_between mB mR _ Hc) as [M1 M2].
    destruct (Q.min_spec mB mR) as [[L E]|[L E]]; rewrite E in M1;
      destruct (Q.max_spec mB mR) as [[L' E']|[L' E']]; rewrite E' in M2; lra. }
  split; [exact HR|]. split; [exact HB|]. split; [exact Hu|]. split; [exact Hm|].
  unfold maskBeforeFeather.
  set (m := boundaryMix _ _ _ _ _ _) in *.
  set (un := shaderUncertainty _ _ _ _ _ _) in *.
  set (e := videoEdge _ _ _ _) in *.
  unfold edgeSnap, mix.
  assert (Hw : 0 <= e * un * 0.85 <= 1) by nra. set (w := e * un * 0.85) in *.
  destruct (step_cases 0.5 m) as [[L E]|[L E]]; rewrite E; nra.
Qed.

Lemma shader_mask_values_in_range_witness :
  (forall x, 0 < Samples.constOne x) /\
  (forall p, 0 <= Samples.halfMask p <= 1) /\
  0 <= maskBeforeFeather Samples.constOne Samples.constOne Samples.redFrame
         Samples.halfMask Samples.halfMask
         (1 / 640, 1 / 480) (1 / 256, 1 / 144) (0.5, 0.5) <= 1.
Proof.
  assert (H1 : forall x, 0 < Samples.constOne x)
    by (intros x; unfold Samples.constOne; lra).
  assert (H2 : forall p, 0 <= Samples.halfMask p <= 1)
    by (intros p; unfold Samples.halfMask; lra).
  split; [exact H1|]. split; [exact H2|].
  exact (proj2 (proj2 (proj2 (proj2
    (shader_mask_values_in_range Samples.constOne Samples.constOne Samples.redFrame
       Samples.halfMask Samples.halfMask (1 / 640, 1 / 480) (1 / 256, 1 / 144)
       (0.5, 0.5) H1 H2 H2))))).
Defined.

Lemma confident_chain (mR mB e k : Q) :
  0 <= e <= 1 -> mR == k -> mB == k -> k == 0 \/ k == 1 ->
  edgeSnap (mix mB mR (clamp ((1.0 - Qabs (mR * 2.0 - 1.0)) * 2.0) 0.0 1.0)) e
    (1.0 - Qabs (mR * 2.0 - 1.0)) == k.
Proof.
  intros He ER EB Hk.
  assert (Ea : Qabs (mR * 2.0 - 1.0) == 1)
    by (apply Qabs_case; intros; destruct Hk; lra).
  set (a := Qabs _) in *.
  assert (Hc0 : clamp ((1.0 - a) * 2.0) 0.0 1.0 == 0) by (apply clamp_low; lra).
  set (c := clamp _ _ _) in *.
  unfold edgeSnap, mix.
  destruct (step_cases 0.5 (mB * (1 - c) + mR * c)) as [[L E]|[L E]]; rewrite E;
    destruct Hk; nra.
Qed.

(** X5.  Where both mask textures read a sure foreground (1) the output
    pixel is the video pixel, and where they read a sure background (0) it
    is the background pixel: exactly, whatever the video content and the
    luma gradient around the pixel are. *)
Theorem confident_pixel_is_exact glsl_exp glsl_sqrt u_video u_mask u_rawMask u_bg
    (u_mode : Z) u_texelSize u_maskTexelSize (v_uv : vec2) :
  u_mode <> 0%Z ->
  (forall x, 0 < glsl_exp x) ->
  let out := fragMain glsl_exp glsl_sqrt u_video u_mask u_rawMask u_bg u_mode
               u_texelSize u_maskTexelSize v_uv in
  ((forall p, u_rawMask p == 1 /\ u_mask p == 1) -> vec4_eq out (u_video v_uv)) /\
  ((forall p, u_rawMask p == 0 /\ u_mask p == 0) -> vec4_eq out (u_bg v_uv)).
Proof.
  intros Hmode Hexp out. unfold out.
  rewrite (fragMain_composite _ _ _ _ _ _ _ _ _ _ Hmode).
  pose proof (videoEdge_range glsl_sqrt u_video u_texelSize v_uv) as He.
  pose proof (feather_low
    (maskBeforeFeather glsl_exp glsl_sqrt u_video u_mask u_rawMask
       u_texelSize u_maskTexelSize v_uv)) as Hlow.
  pose proof (feather_high
    (maskBeforeFeather glsl_exp glsl_sqrt u_video u_mask u_rawMask
       u_texelSize u_maskTexelSize v_uv)) as Hhigh.
  unfold maskBeforeFeather, boundaryMix, shaderUncertainty in *.
  set (e := videoEdge _ _ _ _) in *.
  split; intros Hc.
  - assert (Hr : forall p, 1 <= u_rawMask p <= 1)
      by (intros p; destruct (Hc p) as [E _]; rewrite E; lra).
    assert (Hb : forall p, 1 <= u_mask p <= 1)
      by (intros p; destruct (Hc p) as [_ E]; rewrite E; lra).
    pose proof (upsample_bounds glsl_exp u_video u_mask u_rawMask u_maskTexelSize
                  v_uv 1 1 Hexp Hr Hb) as [HR HB].
    destruct (upsample _ _ _ _ _ _) as [mR mB]. cbn [fst snd] in *.
    apply mix4_one, Hhigh.
    rewrite (confident_chain mR mB e 1); [lra|exact He|lra|lra|right; reflexivity].
  - assert (Hr : forall p, 0 <= u_rawMask p <= 0)
      by (intros p; destruct (Hc p) as [E _]; rewrite E; lra).
    assert (Hb : forall p, 0 <= u_mask p <= 0)
      by (intros p; destruct (Hc p) as [_ E]; rewrite E; lra).
    pose proof (upsample_bounds glsl_exp u_video u_mask u_rawMask u_maskTexelSize
                  v_uv 0 0 Hexp Hr Hb) as [HR HB].
    destruct (upsample _ _ _ _ _ _) as [mR mB]. cbn [fst snd] in *.
    apply mix4_zero, Hlow.
    rewrite (confident_chain mR mB e 0); [lra|exact He|lra|lra|left; reflexivity].
Qed.

Lemma confident_pixel_is_exact_witness :
  vec4_eq
    (fragMain Samples.constOne Samples.constOne Samples.redFrame
       (flatMask 1) (flatMask 1) Pump.darkFallback 1
       (1 / 640, 1 / 480) (1 / 256, 1 / 144) (0.5, 0.5))
    (Samples.redFrame (0.5, 0.5)) /\
  vec4_eq
    (fragMain Samples.constOne Samples.constOne Samples.redFrame
       (flatMask 0) (flatMask 0) Pump.darkFallback 1
       (1 / 640, 1 / 480) (1 / 256, 1 / 144) (0.5, 0.5))
    (Pump.darkFallback (0.5, 0.5)).
Proof.
  assert (H1 : (1 <> 0)%Z) by lia.
  assert (H2 : forall x, 0 < Samples.constOne x)
    by (intros x; unfold Samples.constOne; lra).
  split.
  - apply (proj1 (confident_pixel_is_exact Samples.constOne Samples.constOne
                    Samples.redFrame (flatMask 1) (flatMask 1)
                    Pump.darkFallback 1 (1 / 640, 1 / 480) (1 / 256, 1 / 144)
                    (0.5, 0.5) H1 H2)).
    intros p. unfold flatMask. split; reflexivity.
  - apply (proj2 (confident_pixel_is_exact Samples.constOne Samples.constOne
                    Samples.redFrame (flatMask 0) (flatMask 0)
                    Pump.darkFallback 1 (1 / 640, 1 / 480) (1 / 256, 1 / 144)
                    (0.5, 0.5) H1 H2)).
    intros p. unfold flatMask. split; reflexivity.
Defined.

End ShaderMore.

(** ** Temporal mask blender: shape of one update *)

Module BlenderMore.

Import Blender BlenderSpec BlenderFacts.

Lemma blendLength_blendUpdate (prev : option BlendMask) (mask : Mask) :
  blendLength (blendUpdate prev mask) = length mask.
Proof.
  unfold blendUpdate. destruct (hasPrev prev mask) eqn:E; [|reflexivity].
  destruct prev as [[p|len]|]; cbn [hasPrev blendLength] in E;
    [|apply Nat.eqb_eq in E; exact E|reflexivity].
  apply Nat.eqb_eq in E. unfold blendWith.
  destruct (Nat.shiftr (length mask) 4 =? 0)%nat.
  - destruct (Qltb 0 (diffSum mask p)).
    + cbn [blendLength]. apply (blendLoop_spec 0.9 mask p E).
    + destruct mask; [exact E|reflexivity].
  - cbn [blendLength]. apply (blendLoop_spec _ mask p E).
Qed.

(** X6.  The blended mask always has the length of the raw mask it was
    updated with, in every branch (first copy, length change, blend, NaN).
    Hence the next update takes the blend branch exactly when the next raw
    mask has the same length. *)
Theorem blendUpdate_length (prev : option BlendMask) (mask : Mask) :
  blendLength (blendUpdate prev mask) = length mask /\
  forall next : Mask,
    hasPrev (Some (blendUpdate prev mask)) next = (length mask =? length next)%nat.
Proof.
  split; [apply blendLength_blendUpdate|].
  intros next. cbn [hasPrev]. rewrite blendLength_blendUpdate. reflexivity.
Qed.

Lemma convex_between (o r la : Q) :
  0 <= la <= 1 -> Qmin o r <= r * la + o * (1.0 - la) <= Qmax o r.
Proof.
  intros Hla.
  destruct (Q.min_spec o r) as [[L E]|[L E]]; rewrite E;
    destruct (Q.max_spec o r) as [[L' E']|[L' E']]; rewrite E'; nra.
Qed.

(** X7.  One blend step moves every cell towards the raw value without
    overshooting: the new cell lies between the old blended value and the
    raw one, and its distance to the raw value is at most 0.85 times the
    old distance. *)
Theorem blend_moves_toward_raw (mask old : Mask) (i : nat) :
  Forall in01 mask ->
  length old = length mask ->
  (16 <= length mask)%nat ->
  (i < length mask)%nat ->
  exists out,
    blendUpdate (Some (Cells old)) mask = Cells out /\
    Qmin (cell old i) (cell mask i) <= cell out i <= Qmax (cell old i) (cell mask i) /\
    Qabs (cell out i - cell mask i) <= 0.85 * Qabs (cell old i - cell mask i).
Proof.
  intros Hm Hl Hlen Hi.
  rewrite (blendUpdate_hasPrev mask old Hl (shiftr4_pos _ Hlen)).
  eexists. split; [reflexivity|].
  destruct (blendLoop_spec (globalAlpha mask old) mask old Hl) as [_ Hcell].
  rewrite (Hcell i Hi).
  pose proof (globalAlpha_range mask old Hlen) as Hga.
  assert (Hr : in01 (cell mask i)) by (apply cell_Forall; assumption).
  assert (Hla : globalAlpha mask old <= localAlpha (globalAlpha mask old) (cell mask i) <= 1)
    by (apply localAlpha_range; [lra|exact Hr]).
  split.
  - unfold blended. apply convex_between. lra.
  - rewrite blended_distance, Qabs_Qmult.
    rewrite (Qabs_pos (1 - localAlpha _ _)) by lra.
    pose proof (Qabs_nonneg (cell old i - cell mask i)). nra.
Qed.

Lemma blend_moves_toward_raw_witness :
  exists out,
    blendUpdate (Some (Cells Samples.oldMask16)) Samples.rawMask16 = Cells out /\
    Qmin (cell Samples.oldMask16 1) (cell Samples.rawMask16 1) <= cell out 1
      <= Qmax (cell Samples.oldMask16 1) (cell Samples.rawMask16 1) /\
    Qabs (cell out 1 - cell Samples.rawMask16 1)
      <= 0.85 * Qabs (cell Samples.oldMask16 1 - cell Samples.rawMask16 1).
Proof.
  apply (blend_moves_toward_raw Samples.rawMask16 Samples.oldMask16 1).
  - unfold Samples.rawMask16. cbn [repeat]. sample_in01.
  - reflexivity.
  - cbn. lia.
  - cbn. lia.
Defined.

Lemma uncertainty_half (c : Q) : c == 0.5 -> uncertainty c == 1.
Proof.
  intros E. unfold uncertainty.
  assert (Z : c * 2.0 - 1.0 == 0) by lra.
  apply Qabs_case; intros; lra.
Qed.

Lemma uncertainty_sure (c : Q) : c == 0 \/ c == 1 -> uncertainty c == 0.
Proof.
  intros E. unfold uncertainty. apply Qabs_case; intros; destruct E; lra.
Qed.

(** X8.  The blend has no memory at the decision boundary and the most
    memory at sure cells.  A cell whose raw value is 0.5 takes the raw
    value whatever the old blended value was.  A cell whose raw value is 0
    or 1 is blended with the global weight alone, so it keeps between 10
    and 85 percent of its old distance to the raw value. *)
Theorem blend_memory_by_certainty (mask old : Mask) (i : nat) :
  length old = length mask ->
  (16 <= length mask)%nat ->
  (i < length mask)%nat ->
  exists out,
    blendUpdate (Some (Cells old)) mask = Cells out /\
    (cell mask i == 0.5 -> cell out i == 0.5) /\
    (cell mask i == 0 \/ cell mask i == 1 ->
     cell out i - cell mask i
       == (1 - globalAlpha mask old) * (cell old i - cell mask i) /\
     0.1 * Qabs (cell old i - cell mask i)
       <= Qabs (cell out i - cell mask i)
       <= 0.85 * Qabs (cell old i - cell mask i)).
Proof.
  intros Hl Hlen Hi.
  rewrite (blendUpdate_hasPrev mask old Hl (shiftr4_pos _ Hlen)).
  eexists. split; [reflexivity|].
  destruct (blendLoop_spec (globalAlpha mask old) mask old Hl) as [_ Hcell].
  rewrite (Hcell i Hi).
  pose proof (globalAlpha_range mask old Hlen) as Hga.
  set (ga := globalAlpha mask old) in *.
  split.
  - intros E. pose proof (uncertainty_half _ E) as Hu.
    unfold blended, localAlpha.
    set (u := uncertainty (cell mask i)) in *. nra.
  - intros E. pose proof (uncertainty_sure _ E) as Hu.
    assert (D : blended ga mask old i - cell mask i
                == (1 - ga) * (cell old i - cell mask i)).
    { unfold blended, localAlpha.
      set (u := uncertainty (cell mask i)) in *. nra. }
    split; [exact D|].
    rewrite D, Qabs_Qmult, (Qabs_pos (1 - ga)) by lra.
    pose proof (Qabs_nonneg (cell old i - cell mask i)). nra.
Qed.

Lemma blend_memory_by_certainty_witness :
  exists out,
    blendUpdate (Some (Cells (repeat 0.25 16))) (0.5 :: repeat 1 15) = Cells out /\
    (cell (0.5 :: repeat 1 15) 0 == 0.5 -> cell out 0 == 0.5) /\
    (cell (0.5 :: repeat 1 15) 0 == 0 \/ cell (0.5 :: repeat 1 15) 0 == 1 ->
     cell out 0 - cell (0.5 :: repeat 1 15) 0
       == (1 - globalAlpha (0.5 :: repeat 1 15) (repeat 0.25 16))
          * (cell (repeat 0.25 16) 0 - cell (0.5 :: repeat 1 15) 0) /\
     0.1 * Qabs (cell (repeat 0.25 16) 0 - cell (0.5 :: repeat 1 15) 0)
       <= Qabs (cell out 0 - cell (0.5 :: repeat 1 15) 0)
       <= 0.85 * Qabs (cell (repeat 0.25 16) 0 - cell (0.5 :: repeat 1 15) 0)).
Proof.
  apply (blend_memory_by_certainty (0.5 :: repeat 1 15) (repeat 0.25 16) 0).
  - reflexivity.
  - cbn. lia.
  - cbn. lia.
Defined.

Lemma Qsum_lower (c : Q) (l : list Q) :
  Forall (fun x => c <= x) l -> c * Qnat (length l) <= Qsum l.
Proof.
  induction 1 as [|x l Hx _ IH].
  - change (c * 0 <= 0). lra.
  - cbn [length]. rewrite Qnat_S. change (Qsum (x :: l)) with (x + Qsum l). lra.
Qed.

(** X9.  When every sampled cell moved by at least 1/8 the global weight
    is at its cap 0.9, also for a length that is not a multiple of 16
    (where the loop takes one sample more than the divisor counts). *)
Theorem fast_motion_saturates (mask old : Mask) :
  (16 <= length mask)%nat ->
  (forall j, (16 * j < length mask)%nat ->
     0.125 <= Qabs (cell mask (16 * j) - cell old (16 * j))) ->
  globalAlpha mask old == 0.9.
Proof.
  intros Hlen Hmove.
  assert (Hd : 0.125 <= meanDiff mask old).
  { unfold meanDiff. rewrite diffSum_samples.
    set (m := ((length mask + 15) / 16)%nat).
    set (n := Nat.shiftr (length mask) 4).
    assert (Hn : (1 <= n)%nat).
    { pose proof (shiftr4_pos _ Hlen). unfold n. lia. }
    assert (Hnm : (n <= m)%nat).
    { unfold n, m. rewrite Nat.shiftr_div_pow2. change (2 ^ 4)%nat with 16%nat.
      apply Nat.Div0.div_le_mono. lia. }
    assert (Hs : 0.125 * Qnat m
                 <= Qsum (map (fun i => Qabs (cell mask i - cell old i))
                              (strideIdx 0 16 m))).
    { rewrite <- (length_strideIdx 0 16 m) at 1.
      rewrite <- (length_map (fun i => Qabs (cell mask i - cell old i))).
      apply Qsum_lower. apply List.Forall_map, List.Forall_forall.
      intros x Hx. apply In_strideIdx in Hx as [j [Hj ->]].
      apply Hmove. unfold m in Hj.
      pose proof (Nat.Div0.div_mod (length mask + 15) 16).
      pose proof (Nat.mod_upper_bound (length mask + 15) 16). lia. }
    fold (Qnat n).
    assert (Hqn : 1 <= Qnat n).
    { change 1 with (Qnat 1). apply Qnat_le. exact Hn. }
    assert (Hqm : Qnat n <= Qnat m) by (apply Qnat_le; exact Hnm).
    apply Qle_shift_div_l; [lra|]. nra. }
  unfold globalAlpha, globalAlphaOf.
  destruct (Q.min_spec 0.9 (0.15 + meanDiff mask old * 6.0)) as [[L E]|[L E]];
    rewrite E; lra.
Qed.

Lemma fast_motion_saturates_witness :
  globalAlpha (repeat 1 17) (repeat 0.5 17) == 0.9.
Proof.
  apply fast_motion_saturates.
  - cbn. lia.
  - intros j Hj. cbn [length repeat] in Hj.
    assert (Hc : j = 0%nat \/ j = 1%nat) by lia.
    destruct Hc as [-> | ->]; apply Qle_bool_iff; vm_compute; reflexivity.
Defined.

End BlenderMore.

(** ** Load controller: the average and the dead band *)

Module LoadMore.

Import LoadController LoadFacts.

Lemma loadRun_snoc (times : list Q) (t : Q) (s : LoadStats) :
  loadRun (times ++ [t]) s = loadUpdate t (loadRun times s).
Proof. unfold loadRun. rewrite fold_left_app. reflexivity. Qed.

(** X10.  The moving average never leaves the range of what it was fed:
    if the average and every measurement lie in [[lo, hi]], so does the
    average after the measurements. *)
Theorem average_within_measurements (lo hi : Q) (times : list Q) (s : LoadStats) :
  lo <= avgFrameTime s <= hi ->
  Forall (fun t => lo <= t <= hi) times ->
  lo <= avgFrameTime (loadRun times s) <= hi.
Proof.
  intros Hs Ht. revert s Hs.
  induction Ht as [|t times Hx _ IH]; intros s Hs; [exact Hs|].
  cbn [loadRun fold_left]. apply IH. rewrite loadUpdate_avg. lra.
Qed.

Lemma average_within_measurements_witness :
  3 <= avgFrameTime (loadRun [5; 3; 16] initialLoad) <= 16.
Proof.
  apply (average_within_measurements 3 16 [5; 3; 16] initialLoad).
  - cbn. lra.
  - repeat (apply Forall_cons_2; [lra|]). apply Forall_nil_2.
Defined.

Lemma loadUpdate_band (t : Q) (s : LoadStats) :
  FAST <= avgFrameTime s * 0.9 + t * 0.1 <= SLOW ->
  skipInterval (loadUpdate t s) = skipInterval s.
Proof.
  intros [H1 H2]. unfold loadUpdate, FAST, SLOW in *.
  set (avg := avgFrameTime s * 0.9 + t * 0.1) in *.
  destruct (Qltb 8 avg) eqn:E8.
  { apply Qltb_lt in E8. lra. }
  destruct (Qltb avg 3) eqn:E3.
  { apply Qltb_lt in E3. lra. }
  reflexivity.
Qed.

(** X11.  Between the two thresholds the controller holds still: while
    the average and the measurements stay in [[3, 8]] the skip interval
    keeps the value it had, whether that is 1 or 2. *)
Theorem interval_frozen_in_band (times : list Q) (s : LoadStats) :
  FAST <= avgFrameTime s <= SLOW ->
  Forall (fun t => FAST <= t <= SLOW) times ->
  skipInterval (loadRun times s) = skipInterval s.
Proof.
  intros Hs Ht. revert s Hs.
  induction Ht as [|t times Hx _ IH]; intros s Hs; [reflexivity|].
  cbn [loadRun fold_left].
  assert (Hb : FAST <= avgFrameTime s * 0.9 + t * 0.1 <= SLOW)
    by (unfold FAST, SLOW in *; lra).
  fold (loadRun times (loadUpdate t s)).
  rewrite IH by (rewrite loadUpdate_avg; exact Hb).
  apply loadUpdate_band, Hb.
Qed.

Lemma interval_frozen_in_band_witness :
  skipInterval (loadRun [5; 8; 3]
                  {| avgFrameTime := 6; skipInterval := 2 |}) = 2%nat.
Proof.
  apply (interval_frozen_in_band [5; 8; 3] {| avgFrameTime := 6; skipInterval := 2 |}).
  - unfold FAST, SLOW. cbn. lra.
  - unfold FAST, SLOW. repeat (apply Forall_cons_2; [lra|]). apply Forall_nil_2.
Defined.

End LoadMore.

(** ** Frame pump: sessions *)

Module PumpMore.

Import Blender LoadController Shader Pump PumpParts PumpFacts.

Local Opaque loadUpdate blendUpdate.

Lemma countEv_app (p : Event -> bool) (a b : list Event) :
  countEv p (a ++ b) = (countEv p a + countEv p b)%nat.
Proof. unfold countEv. rewrite List.filter_app, length_app. reflexivity. Qed.

(** *** The stages of [draw] one by one *)

Lemma uploadVideo_fields (v : Video) (s : State) :
  let s1 := fst (uploadVideo v s) in
  hasMask s1 = hasMask s /\ maskAlloc s1 = maskAlloc s /\
  rawMaskTex s1 = rawMaskTex s /\ maskTex s1 = maskTex s /\
  blendMask s1 = blendMask s /\ load s1 = load s /\
  frameCount s1 = frameCount s /\ lastBgKey s1 = lastBgKey s /\
  bgTex s1 = bgTex s /\ lastDims s1 = frameDims v /\
  (surface s = lastDims s -> surface s1 = frameDims v).
Proof.
  unfold uploadVideo. destruct (frameDims v) as [w h].
  destruct (dimsDiffer (lastDims s) (w, h)) eqn:E; cbn.
  - repeat split; reflexivity.
  - apply dimsDiffer_false in E. repeat split; try reflexivity; congruence.
Qed.

Lemma uploadVideo_count (p : Event -> bool) (v : Video) (s : State) :
  (forall w h, p (TexImage2D TEXTURE0 w h) = false) ->
  p (TexSubImage2D TEXTURE0) = false ->
  countEv p (snd (uploadVideo v s)) = 0%nat.
Proof.
  intros H1 H2. unfold uploadVideo. destruct (frameDims v) as [w h].
  destruct (dimsDiffer (lastDims s) (w, h)); unfold countEv; cbn [snd List.filter];
    rewrite ?H1, ?H2; reflexivity.
Qed.

Lemma uploadBackground_form (t : Tick) (s : State) :
  uploadBackground t s = (s, []) \/
  exists key img,
    uploadBackground t s = (set_bg key img s, [TexImage2DFrom TEXTURE2]).
Proof.
  unfold uploadBackground.
  destruct (findBackground (selectedBg t)) as [[id ty]|]; [|by left].
  destruct (String.eqb ty "blur"); [right; by eexists _, _|].
  destruct (String.eqb ty "image").
  { destruct (bgImages t !! id); [|by left].
    destruct (bool_decide _); [by left|right; by eexists _, _]. }
  destruct (String.eqb ty "upload"); [|by left].
  destruct (uploadedImage t); [|by left].
  destruct (bool_decide _); [by left|right; by eexists _, _].
Qed.

Lemma uploadBackground_count (p : Event -> bool) (t : Tick) (s : State) :
  p (TexImage2DFrom TEXTURE2) = false ->
  countEv p (snd (uploadBackground t s)) = 0%nat.
Proof.
  intros H. destruct (uploadBackground_form t s) as [-> | (key & img & ->)];
    [reflexivity|]. unfold countEv. cbn [snd List.filter]. rewrite H. reflexivity.
Qed.

(** The two stages of an active tick that depend on the segmenter. *)
Lemma draw_form (t : Tick) (s : State) (v : Video) :
  liveVideo t = Some v -> bypass t = false ->
  let s1 := fst (uploadVideo v s) in
  let s2 := set_frameCount (S (frameCount s1)) s1 in
  let p3 := if shouldSegment s2 then segmentStep t s2 else (s2, []) in
  draw t s =
  if hasMask (fst p3)
  then (set_mode 1 (fst (uploadBackground t (fst p3))),
        snd (uploadVideo v s) ++ snd p3
        ++ snd (uploadBackground t (fst p3)) ++ [DrawArrays 1; RequestAnimationFrame])
  else (set_mode 0 (fst p3),
        snd (uploadVideo v s) ++ snd p3 ++ [DrawArrays 0; RequestAnimationFrame]).
Proof.
  intros Hv Hb. cbn zeta. rewrite (draw_active t s v Hv Hb). unfold segmentStage.
  destruct (uploadVideo v s) as [s1 ev1]. cbn [fst snd].
  destruct (if shouldSegment _ then _ else _) as [s3 ev3]. cbn [fst snd].
  destruct (hasMask s3); rewrite <- ?app_assoc; reflexivity.
Qed.

(** Events of one kind in a tick, for a kind that is neither video
    texture traffic nor the draw call nor the scheduling. *)
Lemma draw_count (p : Event -> bool) (t : Tick) (s : State) :
  (forall w h, p (TexImage2D TEXTURE0 w h) = false) ->
  p (TexSubImage2D TEXTURE0) = false ->
  (forall m, p (DrawArrays m) = false) ->
  p RequestAnimationFrame = false ->
  countEv p (snd (draw t s))
  = match liveVideo t with
    | None => 0%nat
    | Some v =>
        if bypass t then 0%nat
        else
          let s1 := fst (uploadVideo v s) in
          let s2 := set_frameCount (S (frameCount s1)) s1 in
          let p3 := if shouldSegment s2 then segmentStep t s2 else (s2, []) in
          (countEv p (snd p3)
           + if hasMask (fst p3)
             then countEv p (snd (uploadBackground t (fst p3))) else 0)%nat
    end.
Proof.
  intros H1 H2 H3 H4.
  destruct (liveVideo t) as [v|] eqn:Hv.
  2:{ rewrite draw_idle by exact Hv. unfold countEv. cbn [snd List.filter].
      rewrite H4. reflexivity. }
  destruct (bypass t) eqn:Hb.
  { rewrite (draw_bypass t s v Hv Hb). cbn [snd].
    rewrite countEv_app, (uploadVideo_count p v s H1 H2).
    unfold countEv. cbn [List.filter]. rewrite H3, H4. reflexivity. }
  rewrite (draw_form t s v Hv Hb). cbn zeta.
  set (p3 := if shouldSegment _ then _ else _).
  assert (Hd : forall m, countEv p [DrawArrays m; RequestAnimationFrame] = 0%nat).
  { intros m. unfold countEv. cbn [List.filter]. rewrite H3, H4. reflexivity. }
  destruct (hasMask (fst p3)); cbn [snd];
    rewrite !countEv_app, (uploadVideo_count p v s H1 H2), Hd; lia.
Qed.

(** *** The session invariant *)

Lemma sessionInv_initial : sessionInv initialState.
Proof. unfold sessionInv. cbn. repeat split; reflexivity. Qed.

Lemma segmentStep_session (t : Tick) (s : State) :
  sessionInv s ->
  let s3 := fst (segmentStep t s) in
  let ev := snd (segmentStep t s) in
  sessionInv s3 /\
  hasMask s3 = hasMask s || bool_decide (is_Some (obtainedMask t)) /\
  maskAllocs TEXTURE1 ev = (if hasMask s then 0 else if hasMask s3 then 1 else 0)%nat /\
  maskAllocs TEXTURE3 ev = (if hasMask s then 0 else if hasMask s3 then 1 else 0)%nat /\
  segmentCalls ev = 1%nat /\ bgUploads ev = 0%nat /\
  frameCount s3 = frameCount s /\ lastBgKey s3 = lastBgKey s /\ bgTex s3 = bgTex s /\
  surface s3 = surface s /\ lastDims s3 = lastDims s.
Proof.
  intros (Hs & Ha & Hm). unfold segmentStep.
  destruct (obtainedMask t) as [mask|] eqn:Em.
  - assert (Hd : dimsDiffer (maskAlloc s) (SEG_WIDTH, SEG_HEIGHT) = negb (hasMask s)).
    { rewrite Ha. destruct (hasMask s); reflexivity. }
    rewrite Hd. destruct (hasMask s) eqn:Eh; cbn.
    + repeat split; try reflexivity; try assumption.
      eexists. repeat split. apply BlenderMore.blendLength_blendUpdate.
    + repeat split; try reflexivity; try assumption.
      eexists. repeat split. apply BlenderMore.blendLength_blendUpdate.
  - cbn. rewrite orb_false_r.
    assert (Hi : sessionInv s) by (repeat split; assumption).
    split; [exact Hi|].
    change (hasMask (set_load (loadUpdate (segTime t) (load s)) s)) with (hasMask s).
    destruct (hasMask s); repeat split; reflexivity.
Qed.

Lemma uploadVideo_session (v : Video) (s : State) :
  sessionInv s -> sessionInv (fst (uploadVideo v s)).
Proof.
  intros (Hs & Ha & Hm).
  pose proof (uploadVideo_fields v s) as Hf. cbn zeta in Hf.
  destruct Hf as (H1 & H2 & H3 & H4 & H5 & _ & _ & _ & _ & H6 & H7).
  unfold sessionInv. rewrite H1, H2, H3, H4, H5, H6, (H7 Hs). by repeat split.
Qed.

Lemma uploadBackground_session (t : Tick) (s : State) :
  sessionInv s -> sessionInv (fst (uploadBackground t s)).
Proof.
  intros H. destruct (uploadBackground_form t s) as [-> | (key & img & ->)];
    exact H.
Qed.

Lemma draw_session (t : Tick) (s : State) :
  sessionInv s -> sessionInv (fst (draw t s)).
Proof.
  intros H.
  destruct (liveVideo t) as [v|] eqn:Hv; [|rewrite draw_idle by exact Hv; exact H].
  destruct (bypass t) eqn:Hb.
  { rewrite (draw_bypass t s v Hv Hb). exact (uploadVideo_session v s H). }
  rewrite (draw_form t s v Hv Hb). cbn zeta.
  pose proof (uploadVideo_session v s H) as H1.
  set (s1 := fst (uploadVideo v s)) in *.
  assert (H2 : sessionInv (set_frameCount (S (frameCount s1)) s1)) by exact H1.
  set (s2 := set_frameCount _ s1) in *.
  assert (H3 : sessionInv (fst (if shouldSegment s2 then segmentStep t s2 else (s2, [])))).
  { destruct (shouldSegment s2); [apply segmentStep_session, H2|exact H2]. }
  set (p3 := if shouldSegment s2 then _ else _) in *.
  destruct (hasMask (fst p3)); cbn [fst]; [|exact H3].
  exact (uploadBackground_session t _ H3).
Qed.

Lemma stateAfter_session (ts : list Tick) (s : State) :
  sessionInv s -> sessionInv (stateAfter ts s).
Proof.
  revert s. induction ts as [|t ts IH]; intros s H; [exact H|].
  rewrite stateAfter_cons. apply IH, draw_session, H.
Qed.

(** *** Mask textures *)

Lemma draw_hasMask_form (t : Tick) (s : State) :
  hasMask (fst (draw t s))
  = match liveVideo t with
    | None => hasMask s
    | Some v =>
        if bypass t then hasMask s
        else
          let s1 := fst (uploadVideo v s) in
          let s2 := set_frameCount (S (frameCount s1)) s1 in
          hasMask (fst (if shouldSegment s2 then segmentStep t s2 else (s2, [])))
    end.
Proof.
  destruct (liveVideo t) as [v|] eqn:Hv; [|rewrite draw_idle by exact Hv; reflexivity].
  pose proof (uploadVideo_fields v s) as Hf. cbn zeta in Hf.
  destruct Hf as (H1 & _).
  destruct (bypass t) eqn:Hb.
  { rewrite (draw_bypass t s v Hv Hb). exact H1. }
  rewrite (draw_form t s v Hv Hb). cbn zeta.
  set (p3 := if shouldSegment _ then _ else _).
  destruct (hasMask (fst p3)) eqn:E; cbn [fst]; [|exact E].
  destruct (uploadBackground_form t (fst p3)) as [-> | (key & img & ->)]; exact E.
Qed.

Lemma draw_maskAllocs (unit : nat) (t : Tick) (s : State) :
  unit = TEXTURE1 \/ unit = TEXTURE3 ->
  sessionInv s ->
  maskAllocs unit (snd (draw t s))
  = (if hasMask s then 0 else if hasMask (fst (draw t s)) then 1 else 0)%nat.
Proof.
  intros Hu H. unfold maskAllocs.
  rewrite draw_count, draw_hasMask_form;
    try (intros; destruct Hu as [-> | ->]; reflexivity).
  destruct (liveVideo t) as [v|]; [|destruct (hasMask s); reflexivity].
  destruct (bypass t); [destruct (hasMask s); reflexivity|]. cbn zeta.
  pose proof (uploadVideo_session v s H) as H1.
  pose proof (uploadVideo_fields v s) as Hf. cbn zeta in Hf.
  destruct Hf as (Hh & _).
  set (s1 := fst (uploadVideo v s)) in *.
  set (s2 := set_frameCount (S (frameCount s1)) s1).
  assert (H2 : sessionInv s2) by exact H1.
  assert (Hh2 : hasMask s2 = hasMask s) by exact Hh.
  assert (Hbg : forall s', countEv (isAllocOf unit) (snd (uploadBackground t s')) = 0%nat).
  { intros s'. apply uploadBackground_count. reflexivity. }
  rewrite Hbg. destruct (shouldSegment s2).
  - pose proof (segmentStep_session t s2 H2) as Hs. cbn zeta in Hs.
    destruct Hs as (_ & _ & A1 & A3 & _). unfold maskAllocs in A1, A3.
    rewrite Hh2 in A1, A3.
    destruct Hu as [-> | ->]; [rewrite A1|rewrite A3];
      destruct (hasMask s), (hasMask (fst (segmentStep t s2))); reflexivity.
  - cbn [fst snd]. rewrite Hh2. destruct (hasMask s); reflexivity.
Qed.

Lemma run_maskAllocs (unit : nat) (ts : list Tick) (s : State) :
  unit = TEXTURE1 \/ unit = TEXTURE3 ->
  sessionInv s ->
  maskAllocs unit (snd (run ts s))
  = (if hasMask s then 0 else if hasMask (stateAfter ts s) then 1 else 0)%nat.
Proof.
  intros Hu. revert s. induction ts as [|t ts IH]; intros s H.
  - cbn. destruct (hasMask s); reflexivity.
  - rewrite run_cons, stateAfter_cons. cbn [snd].
    assert (Happ : forall a b, maskAllocs unit (a ++ b)
                               = (maskAllocs unit a + maskAllocs unit b)%nat)
      by (intros; apply countEv_app).
    rewrite Happ, (draw_maskAllocs unit t s Hu H), (IH _ (draw_session t s H)).
    destruct (hasMask s) eqn:E.
    + rewrite (draw_hasMask_mono t s E). reflexivity.
    + destruct (hasMask (fst (draw t s))) eqn:E1; [|reflexivity].
      rewrite (stateAfter_hasMask_mono ts _ E1). reflexivity.
Qed.

(** X12.  Storage for the two mask textures is allocated once per
    session: over any run of ticks the raw and the blended mask texture
    see the same number of allocating [texImage2D] calls, namely one if a
    mask arrived during the run for the first time and none otherwise;
    every later mask is written into the existing storage. *)
Theorem mask_storage_allocated_once (ts : list Tick) (s : State) :
  sessionInv s ->
  maskAllocs TEXTURE1 (snd (run ts s)) = maskAllocs TEXTURE3 (snd (run ts s)) /\
  maskAllocs TEXTURE1 (snd (run ts s))
  = (if hasMask s then 0 else if hasMask (stateAfter ts s) then 1 else 0)%nat.
Proof.
  intros H.
  rewrite (run_maskAllocs TEXTURE1 ts s (or_introl eq_refl) H),
          (run_maskAllocs TEXTURE3 ts s (or_intror eq_refl) H).
  split; reflexivity.
Qed.

Lemma mask_storage_allocated_once_witness :
  maskAllocs TEXTURE1
    (snd (run [Samples.tickNone; Samples.tickMask; Samples.tickHD] initialState))
  = 1%nat.
Proof.
  exact (proj2 (mask_storage_allocated_once
                  [Samples.tickNone; Samples.tickMask; Samples.tickHD]
                  initialState sessionInv_initial)).
Defined.

(** X13.  When the quad is drawn in Composite mode both mask textures
    are filled, the blended-mask texture holds [blendMaskRef.current],
    and that mask has as many cells as the raw mask. *)
Theorem composite_has_both_masks (ts : list Tick) (t : Tick) :
  let s' := fst (draw t (stateAfter ts initialState)) in
  In (DrawArrays 1) (snd (draw t (stateAfter ts initialState))) ->
  exists raw b,
    rawMaskTex s' = Some raw /\ maskTex s' = Some b /\ blendMask s' = Some b /\
    blendLength b = length raw.
Proof.
  intros s' Hd.
  pose proof (composite_needs_mask _ _ Hd) as Hh.
  pose proof (draw_session t _ (stateAfter_session ts _ sessionInv_initial))
    as (_ & _ & Hm).
  fold s' in Hh, Hm.
  destruct (rawMaskTex s') as [raw|].
  - destruct Hm as (_ & b & Hb & Ht & Hl). by exists raw, b.
  - destruct Hm as (Hf & _). congruence.
Qed.

Lemma composite_has_both_masks_witness :
  exists raw b,
    rawMaskTex (fst (draw Samples.tickMask (stateAfter [Samples.tickNone] initialState)))
    = Some raw /\
    maskTex (fst (draw Samples.tickMask (stateAfter [Samples.tickNone] initialState)))
    = Some b /\
    blendMask (fst (draw Samples.tickMask (stateAfter [Samples.tickNone] initialState)))
    = Some b /\
    blendLength b = length raw.
Proof.
  apply (composite_has_both_masks [Samples.tickNone] Samples.tickMask).
  vm_compute. do 4 right. left. reflexivity.
Defined.

(** *** How often the segmenter runs *)

Lemma mod2_even (n : nat) : (n mod 2 =? 0)%nat = Nat.even n.
Proof.
  induction n as [n IH] using (well_founded_induction lt_wf).
  destruct n as [|[|n]]; [reflexivity|reflexivity|].
  replace (S (S n)) with (n + 1 * 2)%nat by lia.
  rewrite Nat.Div0.mod_add, IH by lia.
  replace (n + 1 * 2)%nat with (S (S n)) by lia. reflexivity.
Qed.

Lemma shouldSegment_due (s : State) (n : nat) :
  (1 <= skipInterval (load s) <= MAX_SKIP)%nat ->
  shouldSegment (set_frameCount (S n) s)
  = (skipInterval (load s) =? 1)%nat || Nat.odd n.
Proof.
  intros Hs. unfold shouldSegment, MAX_SKIP in *. cbn [load frameCount set_frameCount].
  assert (Hc : skipInterval (load s) = 1%nat \/ skipInterval (load s) = 2%nat) by lia.
  destruct Hc as [-> | ->]; cbn [Nat.eqb orb].
  - rewrite Nat.mod_1_r. reflexivity.
  - rewrite mod2_even, Nat.even_succ. reflexivity.
Qed.

Lemma activeTick_true (t : Tick) :
  activeTick t = true <-> exists v, liveVideo t = Some v /\ bypass t = false.
Proof.
  unfold activeTick. destruct (liveVideo t) as [v|].
  - destruct (bypass t); cbn; split.
    + discriminate.
    + intros (? & _ & ?). discriminate.
    + intros _. by exists v.
    + reflexivity.
  - split; [discriminate|]. intros (? & ? & _). discriminate.
Qed.

(** One tick: the counter, the call of the segmenter and whether the
    next active tick is due. *)
Lemma draw_cadence (t : Tick) (s : State) :
  pumpInv s ->
  frameCount (fst (draw t s))
  = (frameCount s + if activeTick t then 1 else 0)%nat /\
  segmentCalls (snd (draw t s)) = (if activeTick t && due s then 1 else 0)%nat /\
  (activeTick t = false ->
     load (fst (draw t s)) = load s /\ maskState (fst (draw t s)) = maskState s /\
     bgTex (fst (draw t s)) = bgTex s /\ lastBgKey (fst (draw t s)) = lastBgKey s) /\
  (activeTick t = true -> due s = false -> due (fst (draw t s)) = true).
Proof.
  intros ((Hskip & _) & _). unfold segmentCalls.
  rewrite draw_count by reflexivity. unfold activeTick.
  destruct (liveVideo t) as [v|] eqn:Hv.
  2:{ rewrite draw_idle by exact Hv. cbn [fst andb].
      rewrite Nat.add_0_r. repeat split; discriminate. }
  pose proof (uploadVideo_fields v s) as Hf. cbn zeta in Hf.
  destruct Hf as (F1 & F2 & F3 & F4 & F5 & F6 & F7 & F8 & F9 & _).
  destruct (bypass t) eqn:Hb; cbn [negb andb].
  { rewrite (draw_bypass t s v Hv Hb). cbn [fst].
    change (frameCount (set_mode 0 (fst (uploadVideo v s))))
      with (frameCount (fst (uploadVideo v s))).
    rewrite F7, Nat.add_0_r.
    split; [reflexivity|]. split; [reflexivity|]. split; [|discriminate].
    intros _. unfold maskState. cbn [load blendMask rawMaskTex maskTex hasMask bgTex
                                      lastBgKey set_mode].
    rewrite F1, F3, F4, F5, F6, F8, F9. by repeat split. }
  rewrite (draw_form t s v Hv Hb). cbn zeta.
  set (s1 := fst (uploadVideo v s)) in *.
  assert (Hdue : shouldSegment (set_frameCount (S (frameCount s1)) s1) = due s).
  { rewrite shouldSegment_due by (rewrite F6; exact Hskip).
    unfold due. rewrite F6, F7. reflexivity. }
  set (s2 := set_frameCount (S (frameCount s1)) s1) in *.
  assert (Hbg : forall s', countEv isSegment (snd (uploadBackground t s')) = 0%nat).
  { intros s'. apply uploadBackground_count. reflexivity. }
  rewrite Hbg, Hdue.
  assert (Hfc : forall s3 (m1 m2 : list Event), frameCount s3 = S (frameCount s) ->
            frameCount (fst (if hasMask s3
                             then (set_mode 1 (fst (uploadBackground t s3)), m1)
                             else (set_mode 0 s3, m2)))
            = (frameCount s + 1)%nat).
  { intros s3 m1 m2 E. destruct (hasMask s3); cbn [fst]; [|cbn; lia].
    destruct (uploadBackground_form t s3) as [-> | (key & img & ->)]; cbn; lia. }
  assert (Hld : forall s3 (m1 m2 : list Event),
            load (fst (if hasMask s3
                       then (set_mode 1 (fst (uploadBackground t s3)), m1)
                       else (set_mode 0 s3, m2)))
            = load s3).
  { intros s3 m1 m2. destruct (hasMask s3); cbn [fst]; [|reflexivity].
    destruct (uploadBackground_form t s3) as [-> | (key & img & ->)]; reflexivity. }
  assert (F7' : frameCount s2 = S (frameCount s)) by (cbn; rewrite F7; reflexivity).
  destruct (due s) eqn:Ed.
  - pose proof (segmentStep_state t s2) as Hs. cbn zeta in Hs.
    destruct Hs as (_ & _ & S3 & _).
    pose proof (segmentStep_events t s2) as (ev & Hev & Hall).
    split; [apply Hfc; rewrite S3; exact F7'|].
    split; [|split; discriminate].
    rewrite Hev. unfold countEv. cbn [List.filter isSegment length].
    assert (Hz : List.filter isSegment ev = []).
    { clear Hev. induction Hall as [|e ev He _ IH]; [reflexivity|].
      cbn [List.filter]. rewrite IH.
      destruct He as [-> | [-> | [-> | ->]]]; reflexivity. }
    rewrite Hz. destruct (hasMask (fst (segmentStep t s2))); reflexivity.
  - cbn [fst snd]. split; [apply Hfc; exact F7'|].
    split; [destruct (hasMask s2); reflexivity|]. split; [discriminate|].
    intros _ _. unfold due in *.
    apply orb_false_iff in Ed as [E1 E2].
    rewrite Hld, Hfc by exact F7'.
    change (load s2) with (load s1). rewrite F6, E1. cbn [orb].
    rewrite Nat.add_1_r, Nat.odd_succ, <- Nat.negb_odd, E2. reflexivity.
Qed.

Lemma run_cadence (ts : list Tick) :
  forall s, pumpInv s ->
  frameCount (stateAfter ts s) = (frameCount s + activeTicks ts)%nat /\
  (segmentCalls (snd (run ts s)) <= activeTicks ts)%nat /\
  (activeTicks ts
   <= 2 * segmentCalls (snd (run ts s)) + if due s then 0 else 1)%nat.
Proof.
  induction ts as [|t ts IH]; intros s H.
  - cbn. split; [lia|]. split; [lia|]. destruct (due s); lia.
  - rewrite run_cons, stateAfter_cons. cbn [snd].
    assert (Happ : forall a b, segmentCalls (a ++ b)
                               = (segmentCalls a + segmentCalls b)%nat)
      by (intros; apply countEv_app).
    rewrite Happ.
    destruct (draw_cadence t s H) as (C1 & C2 & C3 & C4).
    destruct (IH _ (draw_inv t s H)) as (I1 & I2 & I3).
    rewrite I1, C1, C2.
    unfold activeTicks in *. cbn [List.filter].
    destruct (activeTick t) eqn:Ea; cbn [andb length].
    + split; [lia|]. destruct (due s) eqn:Ed.
      * split; [lia|]. destruct (due (fst (draw t s))); lia.
      * rewrite (C4 eq_refl eq_refl) in I3. lia.
    + assert (Hd : due (fst (draw t s)) = due s).
      { unfold due. destruct (C3 eq_refl) as (-> & _). rewrite C1, Nat.add_0_r.
        reflexivity. }
      rewrite Hd in I3. lia.
Qed.

(** X14.  The frame counter counts the ticks that reach the segmentation
    stage, and the segmenter is called on at least every second one of
    them: in every run of a session the number of calls lies between half
    the number of such ticks (rounded down) and that number. *)
Theorem segmenter_runs_every_other_frame (ts : list Tick) (s : State) :
  pumpInv s ->
  frameCount (stateAfter ts s) = (frameCount s + activeTicks ts)%nat /\
  (segmentCalls (snd (run ts s)) <= activeTicks ts)%nat /\
  (activeTicks ts <= 2 * segmentCalls (snd (run ts s)) + 1)%nat.
Proof.
  intros H. destruct (run_cadence ts s H) as (H1 & H2 & H3).
  split; [exact H1|]. split; [exact H2|]. destruct (due s); lia.
Qed.

Lemma segmenter_runs_every_other_frame_witness :
  frameCount (stateAfter [Samples.tickMask; Samples.tickNone; Samples.tickThrows]
                initialState)
  = (frameCount initialState
     + activeTicks [Samples.tickMask; Samples.tickNone; Samples.tickThrows])%nat.
Proof.
  exact (proj1 (segmenter_runs_every_other_frame
                  [Samples.tickMask; Samples.tickNone; Samples.tickThrows]
                  initialState initialState_inv)).
Defined.

(** *** Canvas size *)

Lemma frameDims_pos (v : Video) :
  (1 <= fst (frameDims v))%nat /\ (1 <= snd (frameDims v))%nat.
Proof.
  unfold frameDims, orDefault. cbn [fst snd].
  destruct (videoWidth v =? 0)%nat eqn:Ew, (videoHeight v =? 0)%nat eqn:Eh;
    try apply Nat.eqb_neq in Ew; try apply Nat.eqb_neq in Eh; lia.
Qed.

Lemma draw_surface (t : Tick) (s : State) (v : Video) :
  sessionInv s -> liveVideo t = Some v ->
  surface (fst (draw t s)) = frameDims v.
Proof.
  intros H Hv.
  pose proof (draw_session t s H) as (Hs & _). rewrite Hs.
  pose proof (draw_video t s) as Hd. unfold tickDims in Hd. rewrite Hv in Hd.
  cbn [option_map] in Hd. apply Hd.
Qed.

(** X15.  After every tick that has a frame, the canvas, the viewport and
    the video texture have the size of that frame, with 640 or 480 in
    place of a dimension the video does not know yet; so the texel size
    handed to the shader is a positive number, never [1 / 0]. *)
Theorem surface_tracks_frame glsl_exp glsl_sqrt maskSampler
    (ts : list Tick) (t : Tick) (v : Video) (uv : vec2) :
  liveVideo t = Some v ->
  let s' := fst (draw t (stateAfter ts initialState)) in
  surface s' = frameDims v /\ lastDims s' = frameDims v /\
  frameDims v = (if (videoWidth v =? 0)%nat then 640%nat else videoWidth v,
                 if (videoHeight v =? 0)%nat then 480%nat else videoHeight v) /\
  0 < texel (fst (surface s')) <= 1 /\ 0 < texel (snd (surface s')) <= 1 /\
  canvas glsl_exp glsl_sqrt maskSampler s' uv
  = fragMain glsl_exp glsl_sqrt (picture v)
      (maskSampler (maskTex s')) (maskSampler (option_map Cells (rawMaskTex s')))
      (bgTex s') (u_mode s')
      (texel (fst (frameDims v)), texel (snd (frameDims v)))
      (texel SEG_WIDTH, texel SEG_HEIGHT) uv.
Proof.
  intros Hv s'.
  pose proof (stateAfter_session ts _ sessionInv_initial) as H.
  pose proof (draw_surface t _ v H Hv) as Hs. fold s' in Hs.
  pose proof (draw_session t _ H) as (Hl & _). fold s' in Hl.
  assert (Ht : forall n, (1 <= n)%nat -> 0 < texel n <= 1).
  { intros n Hn. unfold texel.
    assert (Hq : 1 <= inject_Z (Z.of_nat n)).
    { change 1 with (inject_Z 1). rewrite <- Zle_Qle. lia. }
    split.
    - apply Qlt_shift_div_l; lra.
    - apply Qle_shift_div_r; lra. }
  destruct (frameDims_pos v) as [P1 P2].
  split; [exact Hs|]. split; [congruence|]. split; [reflexivity|].
  rewrite Hs. split; [apply Ht, P1|]. split; [apply Ht, P2|].
  unfold canvas. rewrite Hs.
  assert (Hvt : videoTexels s' = picture v).
  { pose proof (stateAfter_inv ts _ initialState_inv) as Hi.
    unfold s'. destruct (bypass t) eqn:Hb.
    - rewrite (draw_bypass t _ v Hv Hb). cbn [fst].
      apply (uploadVideo_state v (stateAfter ts initialState)).
    - destruct (draw_active_state t (stateAfter ts initialState) v Hv Hb)
        as (_ & _ & -> & _).
      apply (segmentStage_state t v (stateAfter ts initialState)). }
  rewrite Hvt. reflexivity.
Qed.

Lemma surface_tracks_frame_witness :
  liveVideo Samples.tickHD = Some Samples.cameraHD /\
  surface (fst (draw Samples.tickHD (stateAfter [Samples.tickMask] initialState)))
  = (1280, 720)%nat.
Proof.
  split; [reflexivity|].
  exact (proj1 (surface_tracks_frame Samples.constOne Samples.constOne
                  (fun _ => Samples.halfMask) [Samples.tickMask] Samples.tickHD
                  Samples.cameraHD (0.5, 0.5) eq_refl)).
Defined.

(** *** While the effect is off *)

Lemma run_inactive (ts : list Tick) :
  forall s, pumpInv s ->
  Forall (fun t => activeTick t = false) ts ->
  frameCount (stateAfter ts s) = frameCount s /\ load (stateAfter ts s) = load s /\
  maskState (stateAfter ts s) = maskState s /\
  bgTex (stateAfter ts s) = bgTex s /\ lastBgKey (stateAfter ts s) = lastBgKey s /\
  Forall (fun e => e = RequestAnimationFrame \/ e = DrawArrays 0 \/
                   isVideoAlloc e = true \/ isVideoSub e = true) (snd (run ts s)).
Proof.
  induction ts as [|t ts IH]; intros s H Hall.
  - cbn. repeat split; constructor.
  - apply Forall_cons_1 in Hall as [Ht Hall].
    rewrite run_cons, stateAfter_cons. cbn [snd].
    destruct (draw_cadence t s H) as (C1 & _ & C3 & _).
    destruct (C3 Ht) as (D1 & D2 & D3 & D4).
    destruct (IH _ (draw_inv t s H) Hall) as (I1 & I2 & I3 & I4 & I5 & I6).
    rewrite I1, I2, I3, I4, I5, C1, Ht, D1, D2, D3, D4, Nat.add_0_r.
    repeat split. apply Forall_app_2; [|exact I6].
    unfold activeTick in Ht.
    destruct (liveVideo t) as [v|] eqn:Hv.
    + destruct (bypass t) eqn:Hb; [|discriminate].
      rewrite (draw_bypass t s v Hv Hb). cbn [snd].
      apply Forall_app_2.
      * rewrite uploadVideo_events. destruct (dimsDiffer _ _);
          repeat (apply Forall_cons_2; [by (right; right; (left + right))|]);
          apply Forall_nil_2.
      * apply Forall_cons_2; [by (right; left)|].
        apply Forall_cons_2; [by left|]. apply Forall_nil_2.
    + rewrite draw_idle by exact Hv. cbn [snd].
      apply Forall_cons_2; [by left|]. apply Forall_nil_2.
Qed.

(** X16.  While the effect is off (no background selected, the segmenter
    not ready, or no frame) the pump only uploads video frames and draws
    them in Passthrough mode; the masks, the blend history, the frame
    counter, the load controller and the background texture stay as they
    were, so a later active tick continues from them. *)
Theorem effect_off_keeps_pipeline (ts : list Tick) (s : State) :
  pumpInv s ->
  Forall (fun t => activeTick t = false) ts ->
  frameCount (stateAfter ts s) = frameCount s /\ load (stateAfter ts s) = load s /\
  maskState (stateAfter ts s) = maskState s /\
  bgTex (stateAfter ts s) = bgTex s /\ lastBgKey (stateAfter ts s) = lastBgKey s /\
  Forall (fun e => e = RequestAnimationFrame \/ e = DrawArrays 0 \/
                   isVideoAlloc e = true \/ isVideoSub e = true) (snd (run ts s)).
Proof. intros H Hall. exact (run_inactive ts s H Hall). Qed.

Lemma effect_off_keeps_pipeline_witness :
  maskState (stateAfter [Samples.tickNone; Samples.tickNone] Samples.afterMask)
  = maskState Samples.afterMask.
Proof.
  assert (H : pumpInv Samples.afterMask)
    by apply (stateAfter_inv [Samples.tickMask] initialState initialState_inv).
  assert (Hall : Forall (fun t => activeTick t = false)
                   [Samples.tickNone; Samples.tickNone])
    by (repeat (apply Forall_cons_2; [reflexivity|]); apply Forall_nil_2).
  exact (proj1 (proj2 (proj2
    (effect_off_keeps_pipeline [Samples.tickNone; Samples.tickNone]
       Samples.afterMask H Hall)))).
Defined.

(** *** Background texture *)

(** No entry of [BACKGROUNDS] has the type "blur". *)
Lemma findBackground_types (curBg id ty : string) :
  findBackground curBg = Some (id, ty) ->
  id = curBg /\
  (ty = "none" \/ ty = "image" \/ ty = "upload")%string.
Proof.
  unfold findBackground, BACKGROUNDS. cbn [List.find fst].
  destruct (String.eqb "none" curBg) eqn:E1;
    [apply String.eqb_eq in E1; intros H; injection H as <- <-; auto|].
  destruct (String.eqb "living-room" curBg) eqn:E2;
    [apply String.eqb_eq in E2; intros H; injection H as <- <-; auto|].
  destruct (String.eqb "home-office" curBg) eqn:E3;
    [apply String.eqb_eq in E3; intros H; injection H as <- <-; auto|].
  destruct (String.eqb "library" curBg) eqn:E4;
    [apply String.eqb_eq in E4; intros H; injection H as <- <-; auto|].
  destruct (String.eqb "upload" curBg) eqn:E5;
    [apply String.eqb_eq in E5; intros H; injection H as <- <-; auto|].
  discriminate.
Qed.

Lemma uploadBackground_key (t : Tick) (s : State) :
  (uploadBackground t s = (s, []) /\
   (pictureReady t = true -> lastBgKey s <> None)) \/
  (exists key img,
     uploadBackground t s = (set_bg (Some key) img s, [TexImage2DFrom TEXTURE2]) /\
     lastBgKey s <> Some key /\ pictureReady t = true).
Proof.
  unfold uploadBackground, pictureReady.
  destruct (findBackground (selectedBg t)) as [[id ty]|] eqn:Ef;
    [|left; split; [reflexivity|discriminate]].
  destruct (findBackground_types _ _ _ Ef) as [_ [-> | [-> | ->]]]; cbn.
  - left. split; [reflexivity|discriminate].
  - destruct (bgImages t !! id) as [img|];
      [|left; split; [reflexivity|rewrite bool_decide_eq_true; by intros [? ?]]].
    destruct (bool_decide (lastBgKey s = Some id)) eqn:E.
    + apply bool_decide_eq_true in E. left. split; [reflexivity|]. congruence.
    + apply bool_decide_eq_false in E. right. exists id, img.
      split; [reflexivity|]. split; [exact E|].
      apply bool_decide_eq_true. by eexists.
  - destruct (uploadedImage t) as [up|];
      [|left; split; [reflexivity|rewrite bool_decide_eq_true; by intros [? ?]]].
    destruct (bool_decide _) eqn:E.
    + apply bool_decide_eq_true in E. left. split; [reflexivity|]. congruence.
    + apply bool_decide_eq_false in E. right. eexists _, _.
      split; [reflexivity|]. split; [exact E|].
      apply bool_decide_eq_true. by eexists.
Qed.

Lemma draw_background (t : Tick) (s : State) :
  (bgUploads (snd (draw t s)) = 0%nat /\
   bgTex (fst (draw t s)) = bgTex s /\ lastBgKey (fst (draw t s)) = lastBgKey s) \/
  (bgUploads (snd (draw t s)) = 1%nat /\
   pictureReady t = true /\ In (DrawArrays 1) (snd (draw t s)) /\
   exists key, lastBgKey (fst (draw t s)) = Some key /\ lastBgKey s <> Some key).
Proof.
  unfold bgUploads. rewrite draw_count by reflexivity.
  destruct (liveVideo t) as [v|] eqn:Hv.
  2:{ left. rewrite draw_idle by exact Hv. by repeat split. }
  pose proof (uploadVideo_fields v s) as Hf. cbn zeta in Hf.
  destruct Hf as (_ & _ & _ & _ & _ & _ & _ & F8 & F9 & _).
  destruct (bypass t) eqn:Hb.
  { left. rewrite (draw_bypass t s v Hv Hb). by repeat split. }
  rewrite (draw_form t s v Hv Hb). cbn zeta.
  set (s1 := fst (uploadVideo v s)) in *.
  set (s2 := set_frameCount (S (frameCount s1)) s1) in *.
  assert (H3 : countEv isBgUpload
                 (snd (if shouldSegment s2 then segmentStep t s2 else (s2, []))) = 0%nat /\
               bgTex (fst (if shouldSegment s2 then segmentStep t s2 else (s2, [])))
               = bgTex s /\
               lastBgKey (fst (if shouldSegment s2 then segmentStep t s2 else (s2, [])))
               = lastBgKey s).
  { destruct (shouldSegment s2); [|by repeat split].
    pose proof (segmentStep_state t s2) as Hs. cbn zeta in Hs.
    destruct Hs as (_ & _ & _ & S4 & S5 & _).
    pose proof (segmentStep_events t s2) as (ev & Hev & Hall).
    split; [|split; [rewrite S4; exact F9|rewrite S5; exact F8]].
    rewrite Hev. unfold countEv. cbn [List.filter isBgUpload].
    clear Hev. induction Hall as [|e ev He _ IH]; [reflexivity|].
    cbn [List.filter].
    destruct He as [-> | [-> | [-> | ->]]]; exact IH. }
  set (p3 := if shouldSegment s2 then _ else _) in *.
  destruct H3 as (H31 & H32 & H33). rewrite H31.
  destruct (hasMask (fst p3)); cbn [fst]; [|left; by repeat split].
  destruct (uploadBackground_key t (fst p3))
    as [[E _] | (key & img & E & Hk & Hr)]; rewrite E; cbn [fst snd].
  - left. by repeat split.
  - right. split; [reflexivity|]. split; [exact Hr|]. split.
    + apply in_or_app. right. apply in_or_app. right.
      apply in_or_app. right. by left.
    + exists key. split; [reflexivity|]. rewrite <- H33. exact Hk.
Qed.

(** X17.  The background texture is a cache keyed by [lastBgKeyRef]: a
    tick uploads a background picture at most once, only in a tick that
    composites and whose picture is loaded, and exactly then the key
    changes to a new value; in every other tick texture and key stay
    untouched.  No entry of [BACKGROUNDS] is of type "blur", so the key is
    never cleared again. *)
Theorem background_upload_follows_key (t : Tick) (s : State) :
  (bgUploads (snd (draw t s)) = 0%nat /\
   bgTex (fst (draw t s)) = bgTex s /\ lastBgKey (fst (draw t s)) = lastBgKey s) \/
  (bgUploads (snd (draw t s)) = 1%nat /\
   pictureReady t = true /\ In (DrawArrays 1) (snd (draw t s)) /\
   exists key, lastBgKey (fst (draw t s)) = Some key /\ lastBgKey s <> Some key).
Proof. exact (draw_background t s). Qed.

Lemma run_no_picture (ts : list Tick) :
  forall s,
  Forall (fun t => pictureReady t = false) ts ->
  bgUploads (snd (run ts s)) = 0%nat /\
  bgTex (stateAfter ts s) = bgTex s /\ lastBgKey (stateAfter ts s) = lastBgKey s.
Proof.
  induction ts as [|t ts IH]; intros s Hall; [by repeat split|].
  apply Forall_cons_1 in Hall as [Ht Hall].
  rewrite run_cons, stateAfter_cons. cbn [snd].
  unfold bgUploads in *. rewrite countEv_app.
  destruct (IH (fst (draw t s)) Hall) as (I1 & I2 & I3). rewrite I1, I2, I3.
  destruct (draw_background t s) as [(D1 & D2 & D3) | (_ & Hr & _)];
    [|congruence].
  unfold bgUploads in D1. rewrite D1. by repeat split.
Qed.

(** X18.  As long as the selected background has no loaded picture (the
    image is still loading, or "upload" is selected without an uploaded
    file) nothing is uploaded to the background texture: from the start of
    a session the composite then shows the dark 1 x 1 fallback. *)
Theorem background_waits_for_picture (ts : list Tick) :
  Forall (fun t => pictureReady t = false) ts ->
  bgUploads (snd (run ts initialState)) = 0%nat /\
  bgTex (stateAfter ts initialState) = darkFallback /\
  lastBgKey (stateAfter ts initialState) = None.
Proof. intros H. exact (run_no_picture ts initialState H). Qed.

Lemma background_waits_for_picture_witness :
  bgTex (stateAfter [Samples.tickMask; Samples.tickHD] initialState) = darkFallback.
Proof.
  refine (proj1 (proj2 (background_waits_for_picture
                          [Samples.tickMask; Samples.tickHD] _))).
  repeat (apply Forall_cons_2; [reflexivity|]). apply Forall_nil_2.
Defined.

Lemma draw_cached (t : Tick) (s : State) (id : string) :
  hasMask s = true -> activeTick t = true ->
  findBackground (selectedBg t) = Some (id, "image"%string) ->
  is_Some (bgImages t !! id) ->
  bgUploads (snd (draw t s)) = (if bool_decide (lastBgKey s = Some id) then 0 else 1)%nat /\
  lastBgKey (fst (draw t s)) = Some id /\ hasMask (fst (draw t s)) = true.
Proof.
  intros Hh Ha Hf [img Hi].
  apply activeTick_true in Ha as (v & Hv & Hb).
  split; [|split; [|apply draw_hasMask_mono, Hh]].
  - unfold bgUploads. rewrite draw_count by reflexivity. rewrite Hv, Hb. cbn zeta.
    pose proof (uploadVideo_fields v s) as Hu. cbn zeta in Hu.
    destruct Hu as (F1 & _ & _ & _ & _ & _ & _ & F8 & _).
    set (s1 := fst (uploadVideo v s)) in *.
    set (s2 := set_frameCount (S (frameCount s1)) s1) in *.
    assert (H3 : countEv isBgUpload
                   (snd (if shouldSegment s2 then segmentStep t s2 else (s2, []))) = 0%nat /\
                 hasMask (fst (if shouldSegment s2 then segmentStep t s2 else (s2, [])))
                 = true /\
                 lastBgKey (fst (if shouldSegment s2 then segmentStep t s2 else (s2, [])))
                 = lastBgKey s).
    { destruct (shouldSegment s2);
        [|split; [reflexivity|split; [exact (eq_trans F1 Hh)|exact F8]]].
      pose proof (segmentStep_state t s2) as Hs. cbn zeta in Hs.
      destruct Hs as (_ & _ & _ & _ & S5 & _ & S7).
      pose proof (segmentStep_events t s2) as (ev & Hev & Hall).
      split; [|split; [|rewrite S5; exact F8]].
      - rewrite Hev. unfold countEv. cbn [List.filter isBgUpload].
        clear Hev. induction Hall as [|e ev He _ IH]; [reflexivity|].
        cbn [List.filter].
        destruct He as [-> | [-> | [-> | ->]]]; exact IH.
      - destruct (obtainedMask t).
        + unfold maskState in S7. by injection S7.
        + apply hasMask_maskState in S7 as (-> & _). exact (eq_trans F1 Hh). }
    set (p3 := if shouldSegment s2 then _ else _) in *.
    destruct H3 as (H31 & H32 & H33). rewrite H31, H32.
    unfold uploadBackground. rewrite Hf. cbn. rewrite Hi, H33.
    destruct (bool_decide (lastBgKey s = Some id)); reflexivity.
  - rewrite (draw_form t s v Hv Hb). cbn zeta.
    pose proof (uploadVideo_fields v s) as Hu. cbn zeta in Hu.
    destruct Hu as (F1 & _ & _ & _ & _ & _ & _ & F8 & _).
    set (s1 := fst (uploadVideo v s)) in *.
    set (s2 := set_frameCount (S (frameCount s1)) s1) in *.
    assert (H3 : hasMask (fst (if shouldSegment s2 then segmentStep t s2 else (s2, [])))
                 = true).
    { destruct (shouldSegment s2); [|exact (eq_trans F1 Hh)].
      pose proof (segmentStep_state t s2) as Hs. cbn zeta in Hs.
      destruct Hs as (_ & _ & _ & _ & _ & _ & S7).
      destruct (obtainedMask t).
      + unfold maskState in S7. by injection S7.
      + apply hasMask_maskState in S7 as (-> & _). exact (eq_trans F1 Hh). }
    rewrite H3. cbn [fst].
    unfold uploadBackground. rewrite Hf. cbn. rewrite Hi.
    destruct (bool_decide _) eqn:E; [|reflexivity].
    apply bool_decide_eq_true in E. exact E.
Qed.

(** X19.  Over a run of compositing ticks that keep the same loaded image
    background selected, the picture is uploaded once, in the first tick,
    and not at all if the texture already holds it. *)
Theorem background_uploaded_once (ts : list Tick) (s : State) (id : string) :
  hasMask s = true ->
  Forall (fun t => activeTick t = true /\
                   findBackground (selectedBg t) = Some (id, "image"%string) /\
                   is_Some (bgImages t !! id)) ts ->
  bgUploads (snd (run ts s))
  = (if bool_decide (lastBgKey s = Some id) then 0
     else match ts with [] => 0 | _ :: _ => 1 end)%nat.
Proof.
  intros Hh Hall. revert s Hh.
  induction Hall as [|t ts (Ha & Hf & Hi) _ IH]; intros s Hh.
  - cbn. destruct (bool_decide _); reflexivity.
  - rewrite run_cons. cbn [snd]. unfold bgUploads in *. rewrite countEv_app.
    destruct (draw_cached t s id Hh Ha Hf Hi) as (D1 & D2 & D3).
    unfold bgUploads in D1. rewrite D1, (IH _ D3), D2.
    rewrite (bool_decide_eq_true_2 _ eq_refl).
    destruct (bool_decide (lastBgKey s = Some id)); reflexivity.
Qed.

Lemma background_uploaded_once_witness :
  bgUploads (snd (run [tickLibrary; tickLibrary] Samples.afterMask)) = 1%nat.
Proof.
  apply (background_uploaded_once [tickLibrary; tickLibrary] Samples.afterMask
           "library").
  - reflexivity.
  - repeat (apply Forall_cons_2;
            [split; [reflexivity|split; [reflexivity|by eexists]]|]).
    apply Forall_nil_2.
Defined.

End PumpMore.

(** ** [useSegmenter] *)

Module SegmenterFacts.

Import Segmenter.

Lemma schedule_cases (evs : list HookEvent) :
  schedule evs ->
  evs = [] \/ evs = [Settle] \/ evs = [Unmount] \/
  evs = [Settle; Unmount] \/ evs = [Unmount; Settle].
Proof.
  intros [H1 H2].
  destruct evs as [|[] [|[] [|e evs]]]; cbn in H1, H2; try lia; auto.
  - destruct e; cbn in H1, H2; lia.
  - destruct e; cbn in H1, H2; lia.
Qed.

Lemma errorText_nonempty (msg : string) : errorText msg <> ""%string.
Proof.
  unfold errorText. destruct (String.eqb msg "") eqn:E; [discriminate|].
  apply String.eqb_neq in E. exact E.
Qed.

Ltac hook_cases w evs Hs :=
  destruct (schedule_cases evs Hs) as [-> | [-> | [-> | [-> | ->]]]];
  unfold hookRun; cbn [fold_left hookStep]; unfold settle, awaited;
  destruct w as [i r g c msg]; destruct i, r, g, c;
  cbn [importFails resolverFails gpuFails cpuFails message mounted cleanup
       segmenterRef segmenterReady segmenterError cancelled opened closed app].

Ltac hook_solve :=
  repeat match goal with
         | |- errorText _ <> _ => apply errorText_nonempty
         | |- _ /\ _ => split
         | |- forall _, _ => intro
         | H : _ = _ |- _ => discriminate H
         | H : Some _ = Some _ |- _ => injection H as <-
         | |- exists _, _ => eexists
         | |- _ = _ => reflexivity
         end.

(** X20.  Whatever the awaited calls do and whenever the component
    unmounts, the hook ends consistent: "ready" means exactly that a
    segmenter was created and no error was reported (with the CPU
    delegate only after the GPU one failed); an error text is never empty
    and comes with no segmenter; and nothing is reported after the
    unmount. *)
Theorem segmenter_hook_consistent (w : World) (evs : list HookEvent) :
  schedule evs ->
  let h := hookRun w evs in
  (segmenterReady h = true ->
     segmenterError h = None /\
     exists d, opened h = [d] /\ awaited w = inl d /\
               (d = CPU -> gpuFails w = true /\ cpuFails w = false)) /\
  (forall m, segmenterError h = Some m ->
     m <> ""%string /\ segmenterReady h = false /\ opened h = [] /\
     segmenterRef h = None) /\
  (forall d, segmenterRef h = Some d -> segmenterReady h = true /\ closed h = []) /\
  (evs = [Unmount; Settle] -> segmenterReady h = false /\ segmenterError h = None).
Proof.
  intros Hs h. subst h.
  hook_cases w evs Hs; hook_solve.
Qed.

Lemma segmenter_hook_consistent_witness :
  schedule [Settle; Unmount] /\
  segmenterError
    (hookRun {| importFails := false; resolverFails := false; gpuFails := true;
                cpuFails := false; message := "" |} [Settle; Unmount]) = None.
Proof.
  assert (Hs : schedule [Settle; Unmount]) by (split; cbn; lia).
  split; [exact Hs|].
  exact (proj1 (proj1 (segmenter_hook_consistent
                         {| importFails := false; resolverFails := false;
                            gpuFails := true; cpuFails := false; message := "" |}
                         [Settle; Unmount] Hs) eq_refl)).
Defined.

(** X21.  No segmenter leaks and none is closed twice: after the unmount
    every segmenter that was created has been closed exactly once and the
    ref is null, also when [init] settles only after the unmount. *)
Theorem segmenter_released_on_unmount (w : World) (evs : list HookEvent) :
  schedule evs ->
  In Unmount evs ->
  let h := hookRun w evs in
  segmenterRef h = None /\ closed h = opened h /\ (length (opened h) <= 1)%nat.
Proof.
  intros Hs Hin h. subst h.
  hook_cases w evs Hs; cbn in Hin; try tauto;
    try (destruct Hin as [Hin | []]; discriminate Hin);
    repeat split; cbn; lia.
Qed.

Lemma segmenter_released_on_unmount_witness :
  closed (hookRun {| importFails := false; resolverFails := false; gpuFails := false;
                     cpuFails := false; message := "" |} [Unmount; Settle])
  = opened (hookRun {| importFails := false; resolverFails := false; gpuFails := false;
                       cpuFails := false; message := "" |} [Unmount; Settle]).
Proof.
  assert (Hs : schedule [Unmount; Settle]) by (split; cbn; lia).
  exact (proj1 (proj2 (segmenter_released_on_unmount
                         {| importFails := false; resolverFails := false;
                            gpuFails := false; cpuFails := false; message := "" |}
                         [Unmount; Settle] Hs (or_introl eq_refl)))).
Defined.

(** X22.  [draw] never calls [segment] on a closed or missing segmenter:
    when a tick that reads the hook calls the segmenter, the ref holds a
    segmenter that was created and has not been closed. *)
Theorem segment_only_on_open_segmenter (w : World) (evs : list HookEvent)
    (t : Pump.Tick) (s : Pump.State) :
  schedule evs ->
  seenBy (hookRun w evs) t ->
  In Pump.Segment (snd (Pump.draw t s)) ->
  exists d, segmenterRef (hookRun w evs) = Some d /\
            In d (opened (hookRun w evs)) /\ ~ In d (closed (hookRun w evs)).
Proof.
  intros Hs [Hr Hp] Hseg.
  apply PumpFacts.draw_segments in Hseg as (v & _ & Hb & _).
  apply PumpFacts.bypass_false in Hb as (_ & Hready & Hpres).
  rewrite Hr in Hready. rewrite Hp in Hpres.
  apply bool_decide_eq_true in Hpres as [d Hd].
  exists d. split; [exact Hd|]. revert Hready Hd.
  hook_cases w evs Hs; intros Hready Hd; try discriminate;
    injection Hd as <-; (split; [by left|intros []]).
Qed.

Lemma segment_only_on_open_segmenter_witness :
  exists d,
    segmenterRef (hookRun {| importFails := false; resolverFails := false;
                             gpuFails := true; cpuFails := false; message := "" |}
                    [Settle]) = Some d /\
    In d (opened (hookRun {| importFails := false; resolverFails := false;
                             gpuFails := true; cpuFails := false; message := "" |}
                    [Settle])) /\
    ~ In d (closed (hookRun {| importFails := false; resolverFails := false;
                               gpuFails := true; cpuFails := false; message := "" |}
                      [Settle])).
Proof.
  apply (segment_only_on_open_segmenter _ [Settle] Samples.tickMask Pump.initialState).
  - split; cbn; lia.
  - split; reflexivity.
  - vm_compute. do 2 right. left. reflexivity.
Defined.

End SegmenterFacts.

(** ** [RecordScreen] *)

Module RecorderFacts.

Import Recorder.

Ltac screen_fields :=
  cbn [phase countdown c countdownTimer elapsed timer recorder stopPending
       starts stops] in *.

Ltac screen_premises :=
  repeat match goal with
         | H : ?x = ?x -> _ |- _ => specialize (H eq_refl)
         | H : ?x = ?x \/ _ -> _ |- _ => specialize (H (or_introl eq_refl))
         | H : _ \/ ?x = ?x -> _ |- _ => specialize (H (or_intror eq_refl))
         | H : true = false -> _ |- _ => clear H
         | H : false = true -> _ |- _ => clear H
         | H : Some _ = Some _ -> _ |- _ => clear H
         | H : None = Some _ -> _ |- _ => clear H
         | H : _ = _ \/ _ = _ -> _ |- _ => clear H
         | H : _ /\ _ |- _ => destruct H
         | H : _ = _ |- _ => discriminate H
         | H : ?x <> ?x |- _ => destruct (H eq_refl)
         end.

Ltac screen_goal :=
  repeat match goal with
         | |- _ /\ _ => split
         | |- _ -> _ => intro
         | H : _ \/ _ |- _ => destruct H
         | H : _ = _ |- _ => discriminate H
         | |- _ = _ => reflexivity
         | |- _ <> _ => discriminate
         | |- _ => lia
         end.

Lemma initialScreen_inv : screenInv initialScreen.
Proof. unfold screenInv, MAX_DURATION. cbn. screen_goal. Qed.

Lemma screenStep_inv (r : Screen) (e : ScreenEvent) :
  screenInv r -> screenInv (screenStep r e).
Proof.
  intros H.
  destruct r as [ph cd cc ct el ti rc sp st sn].
  unfold screenInv, MAX_DURATION in *. screen_fields.
  destruct e, ph, ct, ti, rc as [[|]|], sp; screen_premises;
    cbv beta iota zeta delta
      [screenStep phaseIs startCountdown stopRecording retake countdownTick
       timerTick onStop startRecording set_elapsed MAX_DURATION
       phase countdown c countdownTimer elapsed timer recorder stopPending
       starts stops];
    try match goal with
        | |- context [(?a <=? ?b)%Z] =>
            destruct (Z.leb_spec a b); screen_fields
        | |- context [(?a <=? ?b)%nat] =>
            destruct (Nat.leb_spec a b); screen_fields
        end;
    subst; screen_goal.
Qed.

Lemma screenRun_inv (evs : list ScreenEvent) (r : Screen) :
  screenInv r -> screenInv (screenRun evs r).
Proof.
  revert r. induction evs as [|e evs IH]; intros r H; [exact H|].
  apply IH, screenStep_inv, H.
Qed.

Lemma screenRun_snoc (evs : list ScreenEvent) (e : ScreenEvent) (r : Screen) :
  screenRun (evs ++ [e]) r = screenStep (screenRun evs r) e.
Proof. unfold screenRun. rewrite fold_left_app. reflexivity. Qed.

Lemma repeat_snoc {A : Type} (x : A) (n : nat) :
  repeat x (S n) = repeat x n ++ [x].
Proof.
  induction n as [|n IH]; [reflexivity|].
  change (x :: repeat x (S n) = x :: (repeat x n ++ [x])).
  f_equal. exact IH.
Qed.

(** X23.  Whatever the user clicks and whenever the intervals and the
    recorder fire, the elapsed time never exceeds [MAX_DURATION], so the
    progress bar stays within 0..100 percent and the time left is never
    negative; the countdown shown is 3, 2 or 1; and [stop] has been called
    exactly once for every recording that is not running any more. *)
Theorem recording_within_limit (evs : list ScreenEvent) :
  let r := screenRun evs initialScreen in
  (elapsed r <= MAX_DURATION)%nat /\
  0 <= progress r <= 100 /\ (0 <= timeLeft r)%Z /\
  (1 <= countdown r <= 3)%Z /\
  starts r = (stops r + match recorder r with Some true => 1 | _ => 0 end)%nat /\
  (timer r = true -> phase r = Recording /\ recorder r = Some true).
Proof.
  intros r.
  pose proof (screenRun_inv evs _ initialScreen_inv) as (I1 & I2 & I3 & I4 & _).
  fold r in I1, I2, I3, I4.
  split; [exact I1|]. split; [|split; [unfold timeLeft; lia|]].
  - unfold progress. unfold MAX_DURATION in *.
    assert (H0 : 0 <= Qnat (elapsed r)) by apply Qnat_nonneg.
    assert (H1 : Qnat (elapsed r) <= Qnat 30) by (apply Qnat_le; exact I1).
    change (Qnat 30) with 30 in *.
    assert (E : Qnat (elapsed r) / 30 * 100 == Qnat (elapsed r) * (10 # 3))
      by (field).
    rewrite E. lra.
  - split; [exact I2|]. split; [exact I3|].
    intros Ht. destruct (I4 Ht) as (Hp & Hr & _). by split.
Qed.

(** X24.  Left alone, a recording stops itself at the limit: after [n]
    firings of the recording interval the elapsed time is [min n 30], and
    the interval and the recorder are running exactly while [n < 30]; at
    the 30th firing [stop] is called once and the interval is cleared. *)
Theorem recording_stops_at_limit (r0 : Screen) (n : nat) :
  let r := screenRun (repeat TimerFires n) (startRecording r0) in
  elapsed r = Nat.min n MAX_DURATION /\
  timer r = (n <? MAX_DURATION)%nat /\
  recorder r = Some (n <? MAX_DURATION)%nat /\
  stops r = (stops r0 + if (n <? MAX_DURATION)%nat then 0 else 1)%nat /\
  phase r = Recording.
Proof.
  unfold MAX_DURATION. induction n as [|n IH].
  - cbn. repeat split; lia.
  - rewrite repeat_snoc. cbn zeta. rewrite screenRun_snoc.
    cbn zeta in IH. destruct IH as (E & T & R & St & P).
    set (r := screenRun (repeat TimerFires n) (startRecording r0)) in *.
    clearbody r.
    unfold screenStep. rewrite T.
    destruct (Nat.ltb_spec n 30) as [Hlt | Hge].
    + unfold timerTick, MAX_DURATION. rewrite E.
      replace (Nat.min n 30) with n by lia.
      destruct (Nat.leb_spec 30 (n + 1)) as [H30 | H30].
      * assert (Hn : n = 29%nat) by lia. subst n.
        unfold set_elapsed, stopRecording. rewrite R.
        cbn [elapsed timer recorder stops phase].
        change (30 <? 30)%nat with false. change (Nat.min 30 30) with 30%nat.
        repeat split; try lia. exact P.
      * unfold set_elapsed. cbn [elapsed timer recorder stops phase].
        destruct (Nat.ltb_spec (S n) 30); [|lia].
        rewrite T, R.
        repeat split; try lia; assumption.
    + destruct (Nat.ltb_spec (S n) 30); [lia|].
      repeat split; try assumption; lia.
Qed.

Lemma countdown_idle (k : nat) (r : Screen) :
  countdownTimer r = false -> screenRun (repeat CountdownFires k) r = r.
Proof.
  intros H. induction k as [|k IH]; [reflexivity|].
  rewrite repeat_snoc, screenRun_snoc, IH. unfold screenStep. rewrite H.
  reflexivity.
Qed.

(** X25.  One click on the record button starts exactly one recording,
    at the third firing of the countdown interval: before it the screen
    counts 3, 2, 1 in the "countdown" phase, and from then on the
    countdown interval is cleared, however often it would still fire. *)
Theorem countdown_starts_one_recording (r : Screen) (k : nat) :
  phase r = Setup ->
  let r' := screenRun (ClickRecord :: repeat CountdownFires k) r in
  if (k <? 3)%nat
  then phase r' = Countdown /\ countdown r' = (3 - Z.of_nat k)%Z /\
       starts r' = starts r /\ countdownTimer r' = true
  else phase r' = Recording /\ countdown r' = 1%Z /\
       starts r' = S (starts r) /\ countdownTimer r' = false /\
       elapsed r' = 0%nat /\ timer r' = true.
Proof.
  intros Hp. cbn zeta.
  assert (Hc : forall evs, screenRun (ClickRecord :: evs) r
                           = screenRun evs (startCountdown r)).
  { intros evs. unfold screenRun. cbn [fold_left].
    unfold screenStep at 2, phaseIs. rewrite Hp. reflexivity. }
  rewrite Hc.
  destruct k as [|[|[|j]]]; try (cbn; repeat split; reflexivity).
  change (repeat CountdownFires (S (S (S j))))
    with ([CountdownFires; CountdownFires; CountdownFires] ++ repeat CountdownFires j).
  unfold screenRun. rewrite fold_left_app.
  fold (screenRun (repeat CountdownFires j)
          (fold_left screenStep [CountdownFires; CountdownFires; CountdownFires]
             (startCountdown r))).
  rewrite countdown_idle by reflexivity.
  cbn. repeat split; reflexivity.
Qed.

Lemma countdown_starts_one_recording_witness :
  phase (screenRun (ClickRecord :: repeat CountdownFires 5) initialScreen) = Recording /\
  starts (screenRun (ClickRecord :: repeat CountdownFires 5) initialScreen) = 1%nat.
Proof.
  pose proof (countdown_starts_one_recording initialScreen 5 eq_refl) as H.
  cbn zeta in H. change (5 <? 3)%nat with false in H. cbv iota in H.
  destruct H as (H1 & _ & H2 & _). split; [exact H1|exact H2].
Defined.

End RecorderFacts.

(** ** The e-mail pattern *)

Module EmailFacts.

Import Email.

Lemma lang_seq_inv (r1 r2 : Re) (s : JsString) :
  lang (Seq r1 r2) s -> exists s1 s2, s = s1 ++ s2 /\ lang r1 s1 /\ lang r2 s2.
Proof. intros H. inversion H; subst. by eexists _, _. Qed.

Lemma lang_alt_inv (r1 r2 : Re) (s : JsString) :
  lang (Alt r1 r2) s -> lang r1 s \/ lang r2 s.
Proof. intros H. inversion H; subst; [by left|by right]. Qed.

Lemma lang_class_inv (p : N -> bool) (s : JsString) :
  lang (Class p) s -> exists ch, s = [ch] /\ p ch = true.
Proof. intros H. inversion H; subst. by eexists. Qed.

Lemma nullable_spec (r : Re) : nullable r = true <-> lang r [].
Proof.
  induction r as [| |p|r1 IH1 r2 IH2|r1 IH1 r2 IH2|r IH]; cbn [nullable].
  - split; [discriminate|]. intros H. inversion H.
  - split; [constructor|reflexivity].
  - split; [discriminate|]. intros H. inversion H.
  - rewrite andb_true_iff, IH1, IH2. split.
    + intros [H1 H2]. exact (lang_seq _ _ [] [] H1 H2).
    + intros H. apply lang_seq_inv in H as (s1 & s2 & E & H1 & H2).
      symmetry in E. apply app_eq_nil in E as [-> ->]. by split.
  - rewrite orb_true_iff, IH1, IH2. split.
    + intros [H | H]; [by apply lang_alt_l|by apply lang_alt_r].
    + apply lang_alt_inv.
  - split; [constructor|reflexivity].
Qed.

Lemma star_cons_inv (r : Re) (s : JsString) :
  lang (Star r) s ->
  forall ch s', s = ch :: s' ->
  exists s1 s2, s' = s1 ++ s2 /\ lang r (ch :: s1) /\ lang (Star r) s2.
Proof.
  intros H. remember (Star r) as sr eqn:Esr. revert r Esr.
  induction H as [| | | | | |r0 s1 s2 H1 _ H2 IH2]; intros rr Esr; try discriminate.
  injection Esr as ->. intros ch s' E.
  destruct s1 as [|c1 s1].
  - cbn in E. exact (IH2 rr eq_refl ch s' E).
  - cbn in E. injection E as -> <-. by exists s1, s2.
Qed.

Lemma deriv_spec (r : Re) :
  forall ch s, lang (deriv ch r) s <-> lang r (ch :: s).
Proof.
  induction r as [| |p|r1 IH1 r2 IH2|r1 IH1 r2 IH2|r IH]; intros ch s; cbn [deriv].
  - split; intros H; inversion H.
  - split; intros H; inversion H.
  - destruct (p ch) eqn:E; split; intros H.
    + inversion H; subst. by constructor.
    + apply lang_class_inv in H as (c & [= -> ->] & _). constructor.
    + inversion H.
    + apply lang_class_inv in H as (c & [= -> ->] & Hc). congruence.
  - assert (Hseq : lang (Seq (deriv ch r1) r2) s ->
                   lang (Seq r1 r2) (ch :: s)).
    { intros H. apply lang_seq_inv in H as (s1 & s2 & -> & H1 & H2).
      apply IH1 in H1. exact (lang_seq _ _ (ch :: s1) s2 H1 H2). }
    assert (Hinv : lang (Seq r1 r2) (ch :: s) ->
                   lang (Seq (deriv ch r1) r2) s \/
                   (lang r1 [] /\ lang r2 (ch :: s))).
    { intros H. apply lang_seq_inv in H as (s1 & s2 & E & H1 & H2).
      destruct s1 as [|c1 s1].
      - cbn in E. subst. right. by split.
      - cbn in E. injection E as <- ->. left.
        apply lang_seq; [by apply IH1|exact H2]. }
    destruct (nullable r1) eqn:En.
    + split.
      * intros H. apply lang_alt_inv in H as [H | H]; [by apply Hseq|].
        apply nullable_spec in En.
        apply (lang_seq _ _ [] (ch :: s) En). by apply IH2.
      * intros H. destruct (Hinv H) as [H' | [_ H']];
          [by apply lang_alt_l|apply lang_alt_r; by apply IH2].
    + split; [exact Hseq|].
      intros H. destruct (Hinv H) as [H' | [H' _]]; [exact H'|].
      apply nullable_spec in H'. congruence.
  - split.
    + intros H. apply lang_alt_inv in H as [H | H];
        [apply lang_alt_l; by apply IH1|apply lang_alt_r; by apply IH2].
    + intros H. apply lang_alt_inv in H as [H | H];
        [apply lang_alt_l; by apply IH1|apply lang_alt_r; by apply IH2].
  - split.
    + intros H. apply lang_seq_inv in H as (s1 & s2 & -> & H1 & H2).
      apply IH in H1. exact (lang_star_cons _ (ch :: s1) s2 H1 H2).
    + intros H.
      destruct (star_cons_inv r _ H ch s eq_refl) as (s1 & s2 & -> & H1 & H2).
      apply lang_seq; [by apply IH|exact H2].
Qed.

Lemma matches_spec (s : JsString) : forall r, matches r s = true <-> lang r s.
Proof.
  induction s as [|ch s IH]; intros r; cbn [matches].
  - apply nullable_spec.
  - rewrite IH. apply deriv_spec.
Qed.

Lemma lang_lit (ch : N) (s : JsString) : lang (Lit ch) s <-> s = [ch].
Proof.
  unfold Lit. split.
  - intros H. apply lang_class_inv in H as (c & -> & Hc).
    apply N.eqb_eq in Hc. by subst.
  - intros ->. constructor. apply N.eqb_refl.
Qed.

Lemma lang_star_class (p : N -> bool) (s : JsString) :
  lang (Star (Class p)) s <-> Forall (fun ch => p ch = true) s.
Proof.
  split.
  - intros H. remember (Star (Class p)) as r eqn:Er.
    induction H as [| | | | | |r0 s1 s2 H1 _ H2 IH2]; try discriminate.
    + constructor.
    + injection Er as ->. apply lang_class_inv in H1 as (c & -> & Hc). cbn.
      apply Forall_cons_2; [assumption|]. by apply IH2.
  - induction 1 as [|ch s Hc _ IH]; [constructor|].
    apply (lang_star_cons _ [ch] s); [by constructor|exact IH].
Qed.

Lemma lang_plus_class (p : N -> bool) (s : JsString) :
  lang (Plus (Class p)) s <-> s <> [] /\ Forall (fun ch => p ch = true) s.
Proof.
  unfold Plus. split.
  - intros H. apply lang_seq_inv in H as (s1 & s2 & -> & H1 & H2).
    apply lang_class_inv in H1 as (c & -> & Hc).
    apply lang_star_class in H2. cbn.
    split; [discriminate|]. by apply Forall_cons_2.
  - intros [Hn Hall]. destruct s as [|ch s]; [congruence|].
    apply Forall_cons_1 in Hall as [Hc Hall].
    apply (lang_seq _ _ [ch] s); [by constructor|by apply lang_star_class].
Qed.

(** The strings the pattern accepts. *)
Lemma emailOk_shape (email : JsString) :
  emailOk email = true <->
  exists a b d, email = a ++ [AT] ++ b ++ [DOT] ++ d /\ word a /\ word b /\ word d.
Proof.
  unfold emailOk, emailRe, word. rewrite matches_spec. split.
  - intros H.
    apply lang_seq_inv in H as (a & s2 & -> & Ha & H).
    apply lang_seq_inv in H as (at' & s3 & -> & Hat & H).
    apply lang_seq_inv in H as (b & s4 & -> & Hb & H).
    apply lang_seq_inv in H as (dot & d & -> & Hdot & Hd).
    apply lang_lit in Hat, Hdot. subst.
    apply lang_plus_class in Ha, Hb, Hd. by exists a, b, d.
  - intros (a & b & d & -> & Ha & Hb & Hd).
    apply lang_seq; [by apply lang_plus_class|].
    apply lang_seq; [by apply lang_lit|].
    apply lang_seq; [by apply lang_plus_class|].
    apply lang_seq; [by apply lang_lit|by apply lang_plus_class].
Qed.

Lemma plain_spec (ch : N) :
  plain ch = true <-> isSpace ch = false /\ ch <> AT.
Proof.
  unfold plain. rewrite andb_true_iff, !negb_true_iff, N.eqb_neq. reflexivity.
Qed.

Lemma word_count (a : JsString) :
  Forall (fun ch => plain ch = true) a -> count_occ N.eq_dec a AT = 0%nat.
Proof.
  induction 1 as [|ch a Hc _ IH]; [reflexivity|].
  apply plain_spec in Hc as [_ Hc].
  rewrite count_occ_cons_neq by exact Hc. exact IH.
Qed.

Lemma word_nospace (a : JsString) :
  Forall (fun ch => plain ch = true) a -> Forall (fun ch => isSpace ch = false) a.
Proof.
  intros H. eapply Forall_impl; [exact H|].
  intros ch Hc. cbn in Hc. by apply plain_spec in Hc as [Hc _].
Qed.

(** X26.  [handleSubmit] passes an address on, unchanged, exactly when it
    is [local "@" domain "." rest] with three non-empty parts free of
    white space and "@"; otherwise it shows the error.  An accepted
    address therefore holds exactly one "@", no white space, and at
    least five code units. *)
Theorem email_check_shape (email : JsString) :
  (handleSubmit email = inr email \/
   handleSubmit email = inl "Please enter a valid email address"%string) /\
  (handleSubmit email = inr email <->
   exists a b d,
     email = a ++ [AT] ++ b ++ [DOT] ++ d /\ word a /\ word b /\ word d) /\
  (handleSubmit email = inr email ->
   count_occ N.eq_dec email AT = 1%nat /\
   Forall (fun ch => isSpace ch = false) email /\
   (5 <= length email)%nat).
Proof.
  assert (Hiff : handleSubmit email = inr email <-> emailOk email = true).
  { unfold handleSubmit. destruct (emailOk email); cbn; split;
      (reflexivity || discriminate). }
  split; [|split].
  - unfold handleSubmit. destruct (emailOk email); cbn; [by left|by right].
  - rewrite Hiff. apply emailOk_shape.
  - rewrite Hiff, emailOk_shape.
    intros (a & b & d & -> & [Ha1 Ha2] & [Hb1 Hb2] & [Hd1 Hd2]).
    split; [|split].
    + rewrite !count_occ_app, (word_count a Ha2), (word_count b Hb2),
        (word_count d Hd2). reflexivity.
    + repeat apply Forall_app_2; try (by apply word_nospace);
        by repeat constructor.
    + rewrite !length_app. cbn [length].
      destruct a, b, d; cbn [length]; try congruence; lia.
Qed.

End EmailFacts.

(** ** The upload route *)

Module ServerFacts.

Import Email Server EmailFacts.

Lemma emailBad_false (e : BodyValue) :
  emailBad e = inl false <-> exists s, e = Str s /\ emailOk s = true.
Proof.
  unfold emailBad. destruct e as [|[|ch s]|message].
  - split; [discriminate|]. intros (s & H & _). discriminate H.
  - split; [discriminate|]. intros (s & [= <-] & H). discriminate H.
  - split.
    + intros [= H]. apply negb_false_iff in H. by eexists.
    + intros (s' & [= <-] & H). by rewrite H.
  - split; [discriminate|]. intros (s & H & _). discriminate H.
Qed.

Lemma emailBad_cases (e : BodyValue) :
  (emailBad e = inl false /\ exists s, e = Str s /\ emailOk s = true) \/
  (emailBad e = inl true /\ forall message, e <> Other message) \/
  (exists message, e = Other message /\ emailBad e = inr message).
Proof.
  destruct (emailBad e) as [[|]|message] eqn:E.
  - right. left. split; [reflexivity|]. intros message ->. discriminate E.
  - left. split; [reflexivity|]. by apply emailBad_false.
  - right. right. exists message. split; [|reflexivity].
    destruct e as [|[|ch s]|m]; try discriminate E. by injection E as ->.
Qed.

Lemma unlink_fresh (path : string) (disk : Disk) :
  path ∉ disk -> ({[ path ]} ∪ disk) ∖ {[ path ]} = disk.
Proof.
  intros Hfresh. apply set_eq. intros x.
  rewrite elem_of_difference, elem_of_union, !elem_of_singleton. split.
  - intros [[Hx | Hx] Hn]; [contradiction|exact Hx].
  - intros Hx. split; [by right|]. intros ->. contradiction.
Qed.

(** X27.  The upload route answers 200 exactly when the address is a
    well-formed string and a file part with a "video/" MIME type and
    within the size limit came with it, and then the file stays in the
    uploads directory; every other request is answered 400 with an error
    text.  A rejected request leaves the directory as it was (a file
    stored for a bad address is deleted again, given that its name was
    not taken), with one exception: when [req.body.email] is a truthy
    value that is not a string (a repeated field), [email.match] throws
    before the file is unlinked, and the stored file stays. *)
Theorem upload_stores_only_valid (email : BodyValue) (part : option Part)
    (disk : Disk) :
  (forall f, part = Some f -> storedPath f ∉ disk) ->
  let resp := fst (upload email part disk) in
  let disk' := snd (upload email part disk) in
  (status resp = 200%nat \/ status resp = 400%nat) /\
  (status resp = 200%nat <->
   (exists s, email = Str s /\ emailOk s = true) /\
   (exists f, part = Some f /\ fileFilter f = true /\ overLimit f = false)) /\
  (status resp = 200%nat ->
   errorText resp = None /\
   exists f, part = Some f /\ disk' = {[ storedPath f ]} ∪ disk) /\
  (status resp = 400%nat -> errorText resp <> None) /\
  (status resp = 400%nat -> (forall message, email <> Other message) ->
   disk' = disk) /\
  (forall message, email = Other message ->
   status resp = 400%nat /\
   match part with
   | Some f =>
       if fileFilter f && negb (overLimit f)
       then errorText resp = Some message /\ disk' = {[ storedPath f ]} ∪ disk
       else disk' = disk
   | None => errorText resp = Some message /\ disk' = disk
   end).
Proof.
  intros Hfresh. cbn zeta. unfold upload, handler.
  destruct part as [f|];
    [destruct (fileFilter f) eqn:Ef; [destruct (overLimit f) eqn:Eo|]|];
    cbn [bodyEmail reqFile andb negb errorHandler];
    destruct (emailBad_cases email)
      as [[Eb (s & -> & Hok)] | [[Eb Hno] | (m & -> & Eb)]];
    rewrite ?Eb; cbn [fst snd status errorText];
    try (rewrite (unlink_fresh _ _ (Hfresh f eq_refl)));
    repeat match goal with
           | |- _ /\ _ => split
           | |- _ <-> _ => split
           end;
    try (intros; discriminate); try (intros; lia); auto;
    try (intros; reflexivity);
    try (intros [(s' & Hs & _) _];
         first [discriminate Hs | by destruct (Hno _ Hs)]);
    try (intros [_ (f' & Hf & Hff & Hfo)];
         first [discriminate Hf | injection Hf as <-; congruence]);
    try (intros _; split; [by eexists|by eexists; repeat split]);
    try (intros _; split; [reflexivity|by exists f]);
    try (intros message' Hm; first [discriminate Hm | by destruct (Hno _ Hm)
                                   | injection Hm as <-; by repeat split]);
    try (intros _ Hm; by destruct (Hm m));
    try (intros [(s' & -> & Hok') _];
         assert (Hc : emailBad (Str s') = inl false)
           by (apply emailBad_false; by eexists);
         congruence).
Qed.

Lemma upload_stores_only_valid_witness :
  status (fst (upload (Str sampleAddress) (Some samplePart) ∅)) = 200%nat.
Proof.
  assert (Hf : forall f, Some samplePart = Some f -> storedPath f ∉ (∅ : Disk))
    by (intros f _; apply not_elem_of_empty).
  apply (proj1 (proj2 (upload_stores_only_valid _ _ ∅ Hf))).
  split.
  - eexists. split; reflexivity.
  - eexists. repeat split; reflexivity.
Defined.

(** An [email] field that was sent twice: the answer is 400 with the
    message of the exception, and the stored video stays. *)
Example repeated_field_leaves_file :
  upload (Other "email.match is not a function") (Some samplePart) ∅
  = ({| status := 400; errorText := Some "email.match is not a function"%string |},
     {[ storedPath samplePart ]} ∪ ∅).
Proof. reflexivity. Qed.

(** X28.  Client and server agree on the address: whatever
    [handleSubmit] hands to [onNext] is accepted by the upload route when
    it arrives with a video file, so "Valid email is required" is never
    the answer to an address the form let through. *)
Theorem client_address_passes_server (email out : JsString) (f : Part) (disk : Disk) :
  handleSubmit email = inr out ->
  fileFilter f = true ->
  overLimit f = false ->
  out = email /\
  fst (upload (Str out) (Some f) disk) = {| status := 200; errorText := None |}.
Proof.
  intros Hs Hf Ho. unfold handleSubmit in Hs.
  destruct (emailOk email) eqn:E; cbn in Hs; [|discriminate].
  injection Hs as <-. split; [reflexivity|].
  unfold upload, handler. rewrite Hf, Ho. cbn [bodyEmail reqFile].
  assert (Hb : emailBad (Str email) = inl false)
    by (apply emailBad_false; by exists email).
  rewrite Hb. reflexivity.
Qed.

Lemma client_address_passes_server_witness :
  fst (upload (Str sampleAddress) (Some samplePart) ∅)
  = {| status := 200; errorText := None |}.
Proof.
  exact (proj2 (client_address_passes_server sampleAddress sampleAddress
                  samplePart ∅ eq_refl eq_refl eq_refl)).
Defined.

End ServerFacts.

(** ** The other revision: timestamps and guided filter *)

Module Rev1Facts.

Import Shader Rev1 BlenderSpec.

Lemma nextTimestamp_gt (last segStart : Q) :
  last < nextTimestamp last segStart /\ segStart <= nextTimestamp last segStart.
Proof.
  unfold nextTimestamp. destruct (Qltb last segStart) eqn:E.
  - apply Qltb_lt in E. lra.
  - apply Qltb_ge in E. lra.
Qed.

Lemma timestamps_increasing (readings : list Q) :
  forall last,
  increasing (timestamps last readings) /\
  Forall (fun ts => last < ts) (timestamps last readings).
Proof.
  induction readings as [|r rest IH]; intros last; cbn [timestamps].
  - split; [exact I|constructor].
  - destruct (nextTimestamp_gt last r) as [H1 _].
    destruct (IH (nextTimestamp last r)) as [I1 I2].
    split.
    + cbn [increasing]. split; [|exact I1].
      destruct (timestamps (nextTimestamp last r) rest) as [|y ys] eqn:E; [exact I|].
      apply Forall_cons_1 in I2 as [I2 _]. exact I2.
    + apply Forall_cons_2; [exact H1|].
      eapply Forall_impl; [exact I2|]. intros ts Hts. cbn in Hts. lra.
Qed.

Lemma timestamps_length (readings : list Q) :
  forall last, length (timestamps last readings) = length readings.
Proof.
  induction readings as [|r rest IH]; intros last; [reflexivity|].
  cbn [timestamps length]. by rewrite IH.
Qed.

Lemma timestamps_ge (readings : list Q) :
  forall last i r ts,
  readings !! i = Some r -> timestamps last readings !! i = Some ts -> r <= ts.
Proof.
  induction readings as [|r0 rest IH]; intros last i r ts Hr Ht; [discriminate|].
  destruct i as [|i]; cbn in Hr, Ht.
  - injection Hr as <-. injection Ht as <-. apply nextTimestamp_gt.
  - exact (IH _ i r ts Hr Ht).
Qed.

(** X29.  The timestamps handed to [segmentForVideo] are strictly
    increasing and all later than the last one used before, whatever the
    clock returns (equal, earlier or repeated readings included); there is
    one per reading and none is earlier than its reading. *)
Theorem timestamps_strictly_increase (last : Q) (readings : list Q) :
  increasing (timestamps last readings) /\
  Forall (fun ts => last < ts) (timestamps last readings) /\
  length (timestamps last readings) = length readings /\
  (forall i r ts, readings !! i = Some r ->
                  timestamps last readings !! i = Some ts -> r <= ts).
Proof.
  destruct (timestamps_increasing readings last) as [H1 H2].
  split; [exact H1|]. split; [exact H2|].
  split; [apply timestamps_length|apply timestamps_ge].
Qed.

(** *** The guided filter *)

Section Guided.

Variable u_video : sampler2D.
Variable u_rawMask : vec2 -> Q.
Variable u_maskTexelSize : vec2.
Variable v_uv : vec2.

Local Abbreviation Is := (guideAt u_video u_maskTexelSize v_uv).
Local Abbreviation Ps := (rawAt u_rawMask u_maskTexelSize v_uv).

Lemma guidedSums_spec :
  let s := guidedSums u_video u_rawMask u_maskTexelSize v_uv in
  sI s == Qsum Is /\ sP s == Qsum Ps /\
  sIP s == Qsum (zip_with Qmult Is Ps) /\
  sII s == Qsum (map (fun x => x * x) Is).
Proof.
  unfold guidedSums, guideAt, rawAt, taps, guidedTap, Qsum.
  cbn [fold_left map zip_with fold_right sI sP sIP sII].
  repeat split; ring.
Qed.

End Guided.

Lemma Qsq_nonneg (z : Q) : 0 <= z * z.
Proof. destruct (Qlt_le_dec z 0); nra. Qed.

Lemma Qsum_cross (l : list Q) (x : Q) :
  2 * Qsum l * x <= Qsum (map (fun y => y * y) l) + Qnat (length l) * (x * x).
Proof.
  induction l as [|y l IH].
  - change (2 * 0 * x <= 0 + 0 * (x * x)). lra.
  - cbn [map length]. rewrite Qnat_S.
    change (Qsum (y :: l)) with (y + Qsum l).
    change (Qsum (y * y :: map (fun y => y * y) l))
      with (y * y + Qsum (map (fun y => y * y) l)).
    pose proof (Qsq_nonneg (y - x)) as H.
    set (S := Qsum l) in *. set (M := Qsum (map _ l)) in *.
    set (n := Qnat (length l)) in *.
    assert (E : (y - x) * (y - x) == y * y - 2 * y * x + x * x) by ring.
    rewrite E in H.
    assert (E2 : 2 * (y + S) * x == 2 * y * x + 2 * S * x) by ring.
    assert (E3 : (n + 1) * (x * x) == n * (x * x) + x * x) by ring.
    rewrite E2, E3. lra.
Qed.

Lemma Qsum_square (l : list Q) :
  Qsum l * Qsum l <= Qnat (length l) * Qsum (map (fun y => y * y) l).
Proof.
  induction l as [|x l IH].
  - change (0 * 0 <= 0 * 0). lra.
  - cbn [map length]. rewrite Qnat_S.
    change (Qsum (x :: l)) with (x + Qsum l).
    change (Qsum (x * x :: map (fun y => y * y) l))
      with (x * x + Qsum (map (fun y => y * y) l)).
    pose proof (Qsum_cross l x) as Hc.
    set (S := Qsum l) in *. set (M := Qsum (map _ l)) in *.
    set (n := Qnat (length l)) in *.
    assert (E1 : (x + S) * (x + S) == x * x + 2 * S * x + S * S) by ring.
    assert (E2 : (n + 1) * (x * x + M) == n * (x * x) + n * M + x * x + M) by ring.
    rewrite E1, E2. lra.
Qed.

Lemma clamp_inside (x : Q) : 0 <= x <= 1 -> clamp x 0.0 1.0 == x.
Proof.
  intros Hx. unfold clamp.
  destruct (Q.max_spec x 0.0) as [[L E]|[L E]];
    destruct (Q.min_spec (Qmax x 0.0) 1.0) as [[L' E']|[L' E']]; lra.
Qed.

Lemma Qsum_const (l : list Q) (k : Q) :
  Forall (fun p => p == k) l -> Qsum l == Qnat (length l) * k.
Proof.
  induction 1 as [|p l Hp _ IH].
  - change (0 == 0 * k). ring.
  - cbn [length]. rewrite Qnat_S. change (Qsum (p :: l)) with (p + Qsum l).
    rewrite IH, Hp. ring.
Qed.

Lemma Qsum_zip_const (xs ps : list Q) (k : Q) :
  length xs = length ps -> Forall (fun p => p == k) ps ->
  Qsum (zip_with Qmult xs ps) == k * Qsum xs.
Proof.
  intros Hl Hall. revert xs Hl.
  induction Hall as [|p ps Hp _ IH]; intros [|x xs] Hl; try discriminate.
  - change (0 == k * 0). ring.
  - cbn [zip_with]. change (Qsum (x * p :: zip_with Qmult xs ps))
      with (x * p + Qsum (zip_with Qmult xs ps)).
    change (Qsum (x :: xs)) with (x + Qsum xs).
    rewrite IH by (injection Hl as Hl; exact Hl). rewrite Hp. ring.
Qed.

(** The guided value when covariance of guide and mask is zero. *)
Lemma guided_flat (cI cP cIP cII guide k : Q) :
  0.02 <= cII / 9.0 - cI / 9.0 * (cI / 9.0) + 0.02 ->
  0 <= k <= 1 ->
  cP == 9 * k -> cIP == k * cI ->
  clamp ((cIP / 9.0 - cI / 9.0 * (cP / 9.0))
         / (cII / 9.0 - cI / 9.0 * (cI / 9.0) + 0.02) * guide
         + (cP / 9.0
            - (cIP / 9.0 - cI / 9.0 * (cP / 9.0))
              / (cII / 9.0 - cI / 9.0 * (cI / 9.0) + 0.02) * (cI / 9.0)))
        0.0 1.0 == k.
Proof.
  intros Hd Hk HP HIP.
  set (den := cII / 9.0 - cI / 9.0 * (cI / 9.0) + 0.02) in *.
  assert (Ha : (cIP / 9.0 - cI / 9.0 * (cP / 9.0)) / den == 0).
  { rewrite HP, HIP. unfold Qdiv at 1.
    assert (Z : k * cI / 9.0 - cI / 9.0 * (9 * k / 9.0) == 0) by field.
    rewrite Z. ring. }
  assert (Hv : (cIP / 9.0 - cI / 9.0 * (cP / 9.0)) / den * guide
               + (cP / 9.0 - (cIP / 9.0 - cI / 9.0 * (cP / 9.0)) / den * (cI / 9.0))
               == k).
  { rewrite Ha, HP. field. }
  rewrite clamp_inside by (rewrite Hv; exact Hk). exact Hv.
Qed.

Lemma guidedDivisor_bound u_video u_rawMask u_maskTexelSize (v_uv : vec2) :
  0.02 <= guidedDivisor u_video u_rawMask u_maskTexelSize v_uv.
Proof.
  unfold guidedDivisor. cbn zeta.
  destruct (guidedSums_spec u_video u_rawMask u_maskTexelSize v_uv)
    as (HI & _ & _ & HII). cbn zeta in HI, HII.
  set (s := guidedSums u_video u_rawMask u_maskTexelSize v_uv) in *.
  pose proof (Qsum_square (guideAt u_video u_maskTexelSize v_uv)) as Hsq.
  change (Qnat (length (guideAt u_video u_maskTexelSize v_uv))) with 9 in Hsq.
  rewrite <- HI, <- HII in Hsq.
  assert (E : sII s / 9.0 - sI s / 9.0 * (sI s / 9.0) + 0.02
              == (9 * sII s - sI s * sI s) / 81 + 0.02) by field.
  rewrite E.
  assert (H : 0 <= (9 * sII s - sI s * sI s) / 81)
    by (apply Qle_shift_div_l; lra).
  lra.
Qed.

(** *** The Gaussian / dilation pass and the composite *)

Section Feather.

Variable u_mask : vec2 -> Q.
Variable u_maskTexelSize : vec2.
Variable v_uv : vec2.
Hypothesis mask_range : forall p, 0 <= u_mask p <= 1.

Local Abbreviation okAcc :=
  (fun (B : Q) (acc : Feat) => 0 <= mBlur acc <= B /\ 0 <= mDilate acc <= 1).

Lemma featTap_bounds (dy dx : Z) (w B : Q) (acc : Feat) :
  gw3 (dx + 1) * gw3 (dy + 1) == w -> 0 <= w ->
  okAcc B acc ->
  okAcc (B + w) (featTap u_mask u_maskTexelSize v_uv dy dx acc).
Proof.
  intros Hw Hw0 [Hb Hd]. unfold featTap. cbn [mBlur mDilate].
  pose proof (mask_range (tapUV u_maskTexelSize v_uv dy dx)) as Hs.
  set (sv := u_mask _) in *. split.
  - rewrite <- Qmult_assoc, Hw. nra.
  - destruct (Q.max_spec (mDilate acc) sv) as [[L E]|[L E]]; rewrite E; lra.
Qed.

Lemma featRow_bounds (dy : Z) (w B : Q) (acc : Feat) :
  gw3 (dy + 1) == w -> 0 <= w ->
  okAcc B acc ->
  okAcc (B + w)
    (fold_left (fun acc dx => featTap u_mask u_maskTexelSize v_uv dy dx acc)
       [-1; 0; 1]%Z acc).
Proof.
  intros Hw Hw0 H. cbn [fold_left].
  pose proof (featTap_bounds dy (-1) (0.25 * w) B acc) as H1.
  pose proof (featTap_bounds dy 0 (0.5 * w) (B + 0.25 * w)
                (featTap u_mask u_maskTexelSize v_uv dy (-1) acc)) as H2.
  pose proof (featTap_bounds dy 1 (0.25 * w) (B + 0.25 * w + 0.5 * w)
                (featTap u_mask u_maskTexelSize v_uv dy 0
                   (featTap u_mask u_maskTexelSize v_uv dy (-1) acc))) as H3.
  assert (G1 : gw3 (-1 + 1) * gw3 (dy + 1) == 0.25 * w)
    by (rewrite Hw; reflexivity).
  assert (G2 : gw3 (0 + 1) * gw3 (dy + 1) == 0.5 * w)
    by (rewrite Hw; reflexivity).
  assert (G3 : gw3 (1 + 1) * gw3 (dy + 1) == 0.25 * w)
    by (rewrite Hw; reflexivity).
  specialize (H1 G1 ltac:(lra) H).
  specialize (H2 G2 ltac:(lra) H1).
  specialize (H3 G3 ltac:(lra) H2).
  destruct H3 as [[A1 A2] A3]. split; [|exact A3]. lra.
Qed.

Lemma mFeat_range : 0 <= mFeat u_mask u_maskTexelSize v_uv <= 1.
Proof.
  unfold mFeat. cbn zeta. cbn [fold_left].
  pose proof (featRow_bounds (-1) 0.25 0 (mkFeat 0.0 0.0)
                ltac:(reflexivity) ltac:(lra)
                ltac:(cbn [mBlur mDilate]; lra)) as H1.
  pose proof (featRow_bounds 0 0.5 _ _ ltac:(reflexivity) ltac:(lra) H1) as H2.
  pose proof (featRow_bounds 1 0.25 _ _ ltac:(reflexivity) ltac:(lra) H2) as H3.
  cbn [fold_left] in H3.
  destruct H3 as [Hb Hd].
  set (acc := featTap _ _ _ 1 1 _) in *. clearbody acc.
  destruct (Q.max_spec (mBlur acc) (mDilate acc * 0.1)) as [[L E]|[L E]];
    rewrite E; lra.
Qed.

End Feather.

Lemma smoothstep_range (e0 e1 x : Q) : 0 <= smoothstep e0 e1 x <= 1.
Proof.
  unfold smoothstep. cbn zeta.
  apply ShaderMore.hermite_range, ShaderFacts.clamp_range.
Qed.

Lemma fragMain1_between u_video u_mask u_rawMask u_bg (u_mode : Z)
    u_maskTexelSize (v_uv : vec2) :
  between4 (u_bg v_uv) (u_video v_uv)
    (fragMain1 u_video u_mask u_rawMask u_bg u_mode u_maskTexelSize v_uv).
Proof.
  unfold fragMain1. cbn zeta. destruct (u_mode =? 0)%Z.
  - unfold between4. repeat split;
      (apply Q.le_min_r || apply Q.le_max_r).
  - set (m := smoothstep _ _ _).
    assert (Hm : 0 <= m <= 1) by apply smoothstep_range.
    clearbody m. unfold between4, mix4. cbn [vx vy vz vw].
    repeat split; apply ShaderMore.mix_between; exact Hm.
Qed.

(** X30.  The guided-filter shader is defined and stays in range.  The
    divisor of the slope [a] is at least 0.02 for every video content
    (the variance of the nine guide samples is never negative), so [a] is
    a finite quotient; the guided value is in [[0, 1]], and where the raw
    mask reads the same confidence [k] at all nine taps it is [k],
    whatever the video shows; the feathered mask value is in [[0, 1]] for
    a mask texture with values in [[0, 1]]; and every channel of the
    output pixel lies between the background's and the video's, with the
    video pixel itself in Passthrough mode. *)
Theorem guided_filter_is_defined u_video u_mask u_rawMask u_bg (u_mode : Z)
    u_maskTexelSize (v_uv : vec2) :
  0.02 <= guidedDivisor u_video u_rawMask u_maskTexelSize v_uv /\
  0 <= mGuided u_video u_rawMask u_maskTexelSize v_uv <= 1 /\
  (forall k, 0 <= k <= 1 ->
     Forall (fun p => p == k) (rawAt u_rawMask u_maskTexelSize v_uv) ->
     mGuided u_video u_rawMask u_maskTexelSize v_uv == k) /\
  ((forall p, 0 <= u_mask p <= 1) -> 0 <= mFeat u_mask u_maskTexelSize v_uv <= 1) /\
  between4 (u_bg v_uv) (u_video v_uv)
    (fragMain1 u_video u_mask u_rawMask u_bg u_mode u_maskTexelSize v_uv) /\
  (u_mode = 0%Z ->
   fragMain1 u_video u_mask u_rawMask u_bg u_mode u_maskTexelSize v_uv
   = u_video v_uv).
Proof.
  split; [apply guidedDivisor_bound|]. split; [apply ShaderFacts.clamp_range|].
  split; [|split; [|split]].
  - intros k Hk Hall.
    pose proof (guidedDivisor_bound u_video u_rawMask u_maskTexelSize v_uv) as Hd.
    destruct (guidedSums_spec u_video u_rawMask u_maskTexelSize v_uv)
      as (HI & HP & HIP & _).
    apply guided_flat.
    + exact Hd.
    + exact Hk.
    + cbn zeta in HP. rewrite HP, (Qsum_const _ k Hall). reflexivity.
    + cbn zeta in HI, HIP. rewrite HIP, HI.
      apply Qsum_zip_const; [reflexivity|exact Hall].
  - intros Hm. apply mFeat_range, Hm.
  - apply fragMain1_between.
  - intros ->. reflexivity.
Qed.

End Rev1Facts.
